(** * Advanced Sigil Analyzer: extraction pipeline and sigil search

    A shallow embedding of the core of
    [Programs/Sigil ID/Advanced Sigil Analyzer.py]: the regular
    expressions that drive the parsing, the entry segmenter, the two glyph
    detection strategies, the sigil image store and the drawn-sigil search.

    Conventions.
    - A Python [str] is a sequence of Unicode code points ([list N]); the
      heading pattern of the source contains the non-ASCII code point
      U+2019, so bytes would not do.
    - The Unicode property tables behind [str.isalnum], [\w] and [\d]
      belong to the interpreter, not to the program: beyond the ASCII range
      they are a parameter ([UnicodeDB]).
    - Page coordinates (Python floats) are modelled as exact rationals.
    - File system, renderer, OCR engine and perceptual hash are oracles.
    - The states carry history fields ([attempted], [hashed]) that record
      what has been asked of the store and of the hash; the program does not
      read them. *)

From Stdlib Require Import String Ascii.
From Stdlib Require Import List NArith ZArith QArith Bool Lia Arith.
From Stdlib Require Import Permutation Sorted.
From Stdlib Require Import DecimalN DecimalFacts.
Import ListNotations.

Set Implicit Arguments.
Local Open Scope N_scope.

(** ** Strings *)

Definition char := N.
Definition str := list char.

(** ASCII literal to code points. *)
Definition lit (s : string) : str := map N_of_ascii (list_ascii_of_string s).

Definition in_range (lo hi c : char) : bool := (lo <=? c) && (c <=? hi).

(** [str.isspace] / [\s] on one code point (CPython's whitespace table). *)
Definition isspace (c : char) : bool :=
  in_range 9 13 c || in_range 28 32 c || (c =? 133) || (c =? 160)
  || (c =? 5760) || in_range 8192 8202 c || (c =? 8232) || (c =? 8233)
  || (c =? 8239) || (c =? 8287) || (c =? 12288).

Definition ascii_digit (c : char) : bool := in_range 48 57 c.
Definition ascii_upper (c : char) : bool := in_range 65 90 c.
Definition ascii_lower (c : char) : bool := in_range 97 122 c.
Definition ascii_alnum (c : char) : bool :=
  ascii_digit c || ascii_upper c || ascii_lower c.

(** The interpreter's Unicode tables.  On the ASCII range they are fixed;
    beyond it they are a parameter of the development.  [isalnum_c] is the
    per-character [str.isalnum] (and [\w] without the underscore),
    [isdecimal_c] is [\d]. *)
Class UnicodeDB := {
  alnum_beyond_ascii : char -> bool;
  decimal_beyond_ascii : char -> bool
}.

Definition isalnum_c {U : UnicodeDB} (c : char) : bool :=
  if c <? 128 then ascii_alnum c else alnum_beyond_ascii c.

Definition isdecimal_c {U : UnicodeDB} (c : char) : bool :=
  if c <? 128 then ascii_digit c else decimal_beyond_ascii c.

(** A table with nothing beyond ASCII; used to evaluate examples. *)
#[export] Instance ascii_db : UnicodeDB :=
  {| alnum_beyond_ascii := fun _ => false; decimal_beyond_ascii := fun _ => false |}.

Fixpoint lstrip (s : str) : str :=
  match s with
  | c :: s' => if isspace c then lstrip s' else s
  | [] => []
  end.

Definition rstrip (s : str) : str := rev (lstrip (rev s)).

(** [s.strip()] *)
Definition strip (s : str) : str := rstrip (lstrip s).

(** [s.split(sep)] for a one-character separator. *)
Fixpoint split_on (sep : char) (s : str) : list str :=
  match s with
  | [] => [[]]
  | c :: s' =>
      if c =? sep then [] :: split_on sep s'
      else match split_on sep s' with
           | l :: ls => (c :: l) :: ls
           | [] => [[c]]
           end
  end.

(** [sep.join(parts)] *)
Fixpoint join (sep : str) (parts : list str) : str :=
  match parts with
  | [] => []
  | [x] => x
  | x :: rest => x ++ sep ++ join sep rest
  end.

Fixpoint prefixb (a b : str) : bool :=
  match a, b with
  | [], _ => true
  | x :: a', y :: b' => (x =? y) && prefixb a' b'
  | _ :: _, [] => false
  end.

(** [a in b] for strings. *)
Fixpoint contains (b a : str) : bool :=
  prefixb a b || match b with [] => false | _ :: b' => contains b' a end.

Fixpoint str_eqb (a b : str) : bool :=
  match a, b with
  | [], [] => true
  | x :: a', y :: b' => (x =? y) && str_eqb a' b'
  | _, _ => false
  end.

(** Code point order, as [sorted] uses it on strings. *)
Fixpoint str_ltb (a b : str) : bool :=
  match a, b with
  | [], [] => false
  | [], _ :: _ => true
  | _ :: _, [] => false
  | x :: a', y :: b' => (x <? y) || ((x =? y) && str_ltb a' b')
  end.

(** [s[a:b]] for [0 <= a <= b]. *)
Definition substr (s : str) (a b : nat) : str := firstn (b - a) (skipn a s).

(** [str(n)] for a non-negative integer. *)
Fixpoint digits_of_uint (d : Decimal.uint) : str :=
  match d with
  | Decimal.Nil => []
  | Decimal.D0 d' => 48 :: digits_of_uint d'
  | Decimal.D1 d' => 49 :: digits_of_uint d'
  | Decimal.D2 d' => 50 :: digits_of_uint d'
  | Decimal.D3 d' => 51 :: digits_of_uint d'
  | Decimal.D4 d' => 52 :: digits_of_uint d'
  | Decimal.D5 d' => 53 :: digits_of_uint d'
  | Decimal.D6 d' => 54 :: digits_of_uint d'
  | Decimal.D7 d' => 55 :: digits_of_uint d'
  | Decimal.D8 d' => 56 :: digits_of_uint d'
  | Decimal.D9 d' => 57 :: digits_of_uint d'
  end.

Definition str_of_N (n : N) : str := digits_of_uint (N.to_uint n).

(** [str(z)] for an integer. *)
Definition str_of_Z (z : Z) : str :=
  match z with
  | Zneg p => 45 :: str_of_N (Npos p)
  | _ => str_of_N (Z.to_N z)
  end.

(** ** Regular expressions

    The fragment of Python's [re] the program uses, with the engine's
    backtracking order: alternatives left to right, greedy repetition longest
    first, lazy repetition shortest first. *)

Inductive citem :=
| CChar (c : char)
| CRange (lo hi : char)
| CSpace   (* \s *)
| CWord    (* \w *)
| CDigit.  (* \d *)

Record cclass := { negated : bool; items : list citem }.

Definition cset (l : list citem) : cclass := {| negated := false; items := l |}.
Definition cnot (l : list citem) : cclass := {| negated := true; items := l |}.

Inductive regex :=
| Bol                                            (* ^ *)
| Eol                                            (* $ *)
| Cls (c : cclass)
| Rep (greedy : bool) (lo : nat) (hi : option nat) (c : cclass)
| Cat (r1 r2 : regex)
| Alt (r1 r2 : regex)
| Grp (n : nat) (r : regex).

Definition captures := list (nat * (nat * nat)).

Record match_obj := {
  m_start : nat;
  m_end : nat;
  m_groups : captures
}.

Fixpoint lookup_group (n : nat) (c : captures) : option (nat * nat) :=
  match c with
  | [] => None
  | (k, span) :: c' => if Nat.eqb k n then Some span else lookup_group n c'
  end.

(** [m.group(n)] on the subject string [s]; unset groups read as empty. *)
Definition group (s : str) (m : match_obj) (n : nat) : str :=
  match lookup_group n (m_groups m) with
  | Some (a, b) => substr s a b
  | None => []
  end.

(** [m.group(0)] *)
Definition group0 (s : str) (m : match_obj) : str := substr s (m_start m) (m_end m).

Section Engine.
Context {U : UnicodeDB}.

Definition citem_match (it : citem) (c : char) : bool :=
  match it with
  | CChar x => c =? x
  | CRange lo hi => in_range lo hi c
  | CSpace => isspace c
  | CWord => isalnum_c c || (c =? 95)
  | CDigit => isdecimal_c c
  end.

Definition cls_match (cl : cclass) (c : char) : bool :=
  xorb (negated cl) (existsb (fun it => citem_match it c) (items cl)).

Section Run.
Variable R : Type.

Fixpoint rep_greedy (cl : cclass) (lo n i : nat) (s : str)
         (k : nat -> str -> option R) : option R :=
  let stop := match lo with O => k i s | S _ => None end in
  match n, s with
  | S n', c :: s' =>
      if cls_match cl c then
        match rep_greedy cl (pred lo) n' (S i) s' k with
        | Some x => Some x
        | None => stop
        end
      else stop
  | _, _ => stop
  end.

Fixpoint rep_lazy (cl : cclass) (lo n i : nat) (s : str)
         (k : nat -> str -> option R) : option R :=
  let more :=
    match n, s with
    | S n', c :: s' =>
        if cls_match cl c then rep_lazy cl (pred lo) n' (S i) s' k else None
    | _, _ => None
    end in
  match lo with
  | O => match k i s with Some x => Some x | None => more end
  | S _ => more
  end.

Fixpoint run (r : regex) (i : nat) (s : str) (caps : captures)
         (k : nat -> str -> captures -> option R) {struct r} : option R :=
  match r with
  | Bol => if Nat.eqb i 0 then k i s caps else None
  | Eol =>
      match s with
      | [] => k i s caps
      | [c] => if c =? 10 then k i s caps else None
      | _ => None
      end
  | Cls cl =>
      match s with
      | c :: s' => if cls_match cl c then k (S i) s' caps else None
      | [] => None
      end
  | Rep g lo hi cl =>
      let n := match hi with Some h => h | None => length s end in
      (if g then rep_greedy else rep_lazy) cl lo n i s
        (fun i' s' => k i' s' caps)
  | Cat r1 r2 => run r1 i s caps (fun i' s' c' => run r2 i' s' c' k)
  | Alt r1 r2 =>
      match run r1 i s caps k with
      | Some x => Some x
      | None => run r2 i s caps k
      end
  | Grp n r0 =>
      run r0 i s caps (fun i' s' c' => k i' s' ((n, (i, i')) :: c'))
  end.
End Run.

(** One anchored attempt at position [i], [s] being the rest of the subject. *)
Definition match_at (r : regex) (i : nat) (s : str) : option match_obj :=
  run r i s []
    (fun j _ caps => Some {| m_start := i; m_end := j; m_groups := caps |}).

(** [pattern.match(s)] *)
Definition re_match (r : regex) (s : str) : option match_obj := match_at r 0 s.

Fixpoint search_from (r : regex) (i : nat) (s : str) : option match_obj :=
  match match_at r i s with
  | Some m => Some m
  | None =>
      match s with
      | [] => None
      | _ :: s' => search_from r (S i) s'
      end
  end.

(** [pattern.search(s)] *)
Definition re_search (r : regex) (s : str) : option match_obj := search_from r 0 s.

(** [pattern.finditer(s)]: successive non-overlapping matches.  The one
    pattern iterated by the program never matches the empty string; after
    an empty match the scan moves on by one character. *)
Fixpoint finditer_from (fuel : nat) (r : regex) (i : nat) (s : str)
  : list match_obj :=
  match fuel with
  | O => []
  | S fuel' =>
      match search_from r i s with
      | None => []
      | Some m =>
          let j := if Nat.eqb (m_end m) (m_start m) then S (m_end m) else m_end m in
          m :: finditer_from fuel' r j (skipn (j - i) s)
      end
  end.

Definition finditer (r : regex) (s : str) : list match_obj :=
  finditer_from (S (length s)) r 0 s.

(** [re.sub(cls, repl, s)] for a one-character class and replacement. *)
Definition sub_class (cl : cclass) (repl : char) (s : str) : str :=
  map (fun c => if cls_match cl c then repl else c) s.
End Engine.

(** ** The program's patterns (lines 44-48) *)

Definition ch (s : string) : char :=
  match s with
  | String a _ => N_of_ascii a
  | EmptyString => 0
  end.

(** U+2019 RIGHT SINGLE QUOTATION MARK, as typed in the source pattern. *)
Definition RSQUO : char := 8217.

(** [^([A-Z0-9][A-Z0-9\s\-’,]+?)\s+([A-Z][a-z]{1,3}\.)] *)
Definition HEADING_CLASS_RE : regex :=
  Cat Bol
   (Cat (Grp 1 (Cat (Cls (cset [CRange (ch "A") (ch "Z"); CRange (ch "0") (ch "9")]))
                    (Rep false 1 None
                       (cset [CRange (ch "A") (ch "Z"); CRange (ch "0") (ch "9");
                              CSpace; CChar (ch "-"); CChar RSQUO; CChar (ch ",")]))))
   (Cat (Rep true 1 None (cset [CSpace]))
        (Grp 2 (Cat (Cls (cset [CRange (ch "A") (ch "Z")]))
               (Cat (Rep true 1 (Some 3%nat) (cset [CRange (ch "a") (ch "z")]))
                    (Cls (cset [CChar (ch ".")]))))))).

Definition biblio_name : regex :=
  Cat (Cls (cset [CRange (ch "A") (ch "Z")]))
  (Cat (Rep false 1 None
          (cset [CRange (ch "A") (ch "Z"); CRange (ch "a") (ch "z"); CSpace]))
       (Cls (cset [CSpace]))).

(** [([A-Z][A-Za-z\s]+?\s\d{4}|[A-Z][A-Za-z\s]+?\s\d{1,2}C)] *)
Definition BIBLIO_RE : regex :=
  Grp 1 (Alt (Cat biblio_name (Rep true 4 (Some 4%nat) (cset [CDigit])))
             (Cat biblio_name
                  (Cat (Rep true 1 (Some 2%nat) (cset [CDigit]))
                       (Cls (cset [CChar (ch "C")]))))).

Definition symbol_excluded : list citem :=
  [CSpace; CWord; CChar (ch "."); CChar (ch ","); CChar (ch ";"); CChar (ch ":");
   CChar (ch "'"); CChar 34; CChar (ch "("); CChar (ch ")");
   CChar (ch "["); CChar (ch "]"); CChar (ch "?"); CChar (ch "!")].

(** Line 47: anchored at both ends, one to five characters, none of which is
    whitespace, a word character, or one of . , ; : ' (double quote) ( ) [ ] ? ! *)
Definition POTENTIAL_SYMBOL_RE_OCR : regex :=
  Cat Bol (Cat (Rep true 1 (Some 5%nat) (cnot symbol_excluded)) Eol).

(** Line 48: the fourteen one-character strings
    . , ; : ( ) ' (double quote) [ ] ! ? - / *)
Definition COMMON_PUNCTUATION : list str :=
  [lit "."; lit ","; lit ";"; lit ":"; lit "("; lit ")"; lit "'"; [34];
   lit "["; lit "]"; lit "!"; lit "?"; lit "-"; lit "/"].

(** ** Data model *)

Definition bbox := (Q * Q * Q * Q)%type.

Inductive method := Ocr | Direct.

(** One entry of a [sigils_metadata] list (lines 509 and 551). *)
Record SigilMetadata := {
  image_path : str;
  parent_entry_heading : str;
  sm_page_number : Z;
  source_text : str;
  bounding_box_pdf_coords : bbox;
  extraction_method : method
}.

(** The entry dictionary while it is [current_entry]: it carries
    [description_parts] and no [description] yet. *)
Record OpenEntry := {
  oe_heading : str;
  oe_class : str;
  oe_sigils : list SigilMetadata;
  description_parts : list str;
  oe_page : Z
}.

(** The same dictionary once finalized (lines 531-534): [description_parts]
    is deleted, [description] and the sorted [references_raw] are set. *)
Record Entry := {
  heading : str;
  class : str;
  sigils_metadata : list SigilMetadata;
  description : str;
  references_raw : list str;
  page_number : Z
}.

Inductive vtype := text_block | heading_v | biblio_ref | potential_symbol | saved_sigil.

(** A visual annotation; [wh] holds the ['width'] and ['height'] keys that
    only the OCR strategy sets. *)
Record VisualElement := {
  rect : bbox;
  vkind : vtype;
  text_snippet : str;
  wh : option (Z * Z)
}.

(** ** Sigil image store (lines 401-412) *)

Inductive log_entry :=
| ErrSavingSigil (entry_heading : str)
| ErrOcrPage (page : Z)
| WarnDbImage (img_path : str)
| InfoLoaded (n : nat)
| ErrDataFile
| ErrStartOutOfBounds
| ErrEndBeforeStart
| InfoScanComplete (n : nat).

(** What a scan mutates: the counter, the files written under
    [OUTPUT_IMAGE_DIR], the log; [attempted] records every generated
    [img_filename] in call order. *)
Record Scan := {
  sigil_counter : N;
  written : list str;
  attempted : list str;
  log : list log_entry
}.

Inductive pixmap := PixmapRaises | Pixmap (pw ph : Z).

(** The renderer and the disk, indexed by the number of the save attempt:
    [get_pixmap] clips a page to a box, [pix_save] is [true] when the write
    succeeds and [false] when it raises. *)
Record Renderer := {
  os_sep : char;
  get_pixmap : N -> Z -> bbox -> pixmap;
  pix_save : N -> str -> bool
}.

Definition OUTPUT_IMAGE_DIR : str := lit "extracted_sigil_images".

Definition path_join (sep : char) (dir file : str) : str := dir ++ sep :: file.

(** The class of [re.sub] on line 404: everything but word characters,
    hyphen, underscore, dot and space. *)
Definition unclean : cclass :=
  cnot [CWord; CChar (ch "-"); CChar (ch "_"); CChar (ch "."); CChar (ch " ")].

Section Store.
Context {U : UnicodeDB}.
Variable env : Renderer.

Definition img_filename_of (entry_heading : str) (page_num : Z) (counter : N) : str :=
  lit "sigil_" ++ sub_class unclean (ch "_") (firstn 30 entry_heading)
    ++ lit "_p" ++ str_of_Z page_num ++ lit "_id" ++ str_of_N counter ++ lit ".png".

Definition _save_sigil_image (st : Scan) (fitz_page : Z) (sigil_bbox : bbox)
           (entry_heading : str) (page_num : Z) : option str * Scan :=
  let counter := sigil_counter st + 1 in
  let img_filename := img_filename_of entry_heading page_num counter in
  let img_path := path_join (os_sep env) OUTPUT_IMAGE_DIR img_filename in
  let st1 := {| sigil_counter := counter; written := written st;
                attempted := attempted st ++ [img_filename]; log := log st |} in
  let failed := {| sigil_counter := counter; written := written st;
                   attempted := attempted st1;
                   log := log st ++ [ErrSavingSigil entry_heading] |} in
  match get_pixmap env counter fitz_page sigil_bbox with
  | PixmapRaises => (None, failed)
  | Pixmap w h =>
      if ((w =? 0) || (h =? 0))%Z then (None, st1)
      else if pix_save env counter img_path
           then (Some img_path,
                 {| sigil_counter := counter; written := written st ++ [img_path];
                    attempted := attempted st1; log := log st |})
           else (None, failed)
  end.
End Store.

(** ** Bibliography extraction and entry segmentation *)

Fixpoint insert_sorted (x : str) (l : list str) : list str :=
  match l with
  | [] => [x]
  | y :: l' =>
      if str_ltb x y then x :: l
      else if str_eqb x y then l
      else y :: insert_sorted x l'
  end.

(** [sorted(list(set(l)))] *)
Definition sorted_set (l : list str) : list str := fold_right insert_sorted [] l.

Section Segmenter.
Context {U : UnicodeDB}.

(** Lines 532-534: the trimmed [BIBLIO_RE] matches, as a sorted set. *)
Definition extract_references (d : str) : list str :=
  sorted_set (map (fun m => strip (group0 d m)) (finditer BIBLIO_RE d)).

Definition finalize (e : OpenEntry) : Entry :=
  let d := strip (join (lit " ") (description_parts e)) in
  {| heading := oe_heading e; class := oe_class e;
     sigils_metadata := oe_sigils e; description := d;
     references_raw := extract_references d; page_number := oe_page e |}.

Definition close_current (entries : list Entry) (cur : option OpenEntry) : list Entry :=
  match cur with
  | Some e => entries ++ [finalize e]
  | None => entries
  end.

Definition add_part (e : OpenEntry) (line : str) : OpenEntry :=
  {| oe_heading := oe_heading e; oe_class := oe_class e; oe_sigils := oe_sigils e;
     description_parts := description_parts e ++ [line]; oe_page := oe_page e |}.

Definition open_entry (page : Z) (line_text : str) (m : match_obj) : OpenEntry :=
  let remaining := strip (skipn (m_end m) line_text) in
  {| oe_heading := strip (group line_text m 1);
     oe_class := strip (group line_text m 2);
     oe_sigils := [];
     description_parts := match remaining with [] => [] | _ => [remaining] end;
     oe_page := page |}.

(** The entry part of one iteration of the line loop, shared verbatim by
    both strategies (lines 477-488 and 528-540), on a trimmed, non-empty
    line. *)
Definition segment_line (page : Z) (st : list Entry * option OpenEntry)
           (line_text : str) : list Entry * option OpenEntry :=
  let '(entries, cur) := st in
  match re_match HEADING_CLASS_RE line_text with
  | Some m => (close_current entries cur, Some (open_entry page line_text m))
  | None =>
      match cur with
      | Some e => (entries, Some (add_part e line_text))
      | None => (entries, None)
      end
  end.

(** The lines a loop really looks at: trimmed, empty ones skipped. *)
Definition parsed_lines (lines_for_parsing : list str) : list str :=
  filter (fun l => match l with [] => false | _ => true end)
         (map strip lines_for_parsing).

Definition segment_lines (page : Z) (st : list Entry * option OpenEntry)
           (lines_for_parsing : list str) : list Entry * option OpenEntry :=
  fold_left (segment_line page) (parsed_lines lines_for_parsing) st.

(** The entries of a page whose text layer has these lines and no glyph. *)
Definition segment_page (page : Z) (lines_for_parsing : list str) : list Entry :=
  let '(entries, cur) := segment_lines page ([], None) lines_for_parsing in
  close_current entries cur.
End Segmenter.

(** ** Floating-point arithmetic *)

(** Page coordinates are IEEE doubles.  A finite double is a rational
    number, and an operation of the code on doubles is the exact operation
    followed by the rounding of its result to a double: [fl] is that
    rounding.  Nothing is assumed of it, so what is proved below holds of
    every rounding, the machine's included; a statement that needs a
    computation to be exact says so. *)
Class Doubles := { fl : Q -> Q }.

(** An arithmetic that never rounds, with results in lowest terms; used to
    evaluate examples on small integers, where doubles are exact too. *)
#[export] Instance exact_doubles : Doubles := {| fl := Qred |}.

(** ** Geometry *)

Definition Qltb (a b : Q) : bool := negb (Qle_bool b a).

Definition bbox_eqb (a b : bbox) : bool :=
  let '(a0, a1, a2, a3) := a in
  let '(b0, b1, b2, b3) := b in
  Qeq_bool a0 b0 && Qeq_bool a1 b1 && Qeq_bool a2 b2 && Qeq_bool a3 b3.

(** PyMuPDF's [Rect]: corner coordinates, [width] and [height] never
    negative. *)
Record Rect := { rx0 : Q; ry0 : Q; rx1 : Q; ry1 : Q }.

(** [max(0, d)] *)
Definition Qmax0 (d : Q) : Q := if Qltb 0 d then d else 0%Q.

(** [Rect.width] and [Rect.height]: [max(0, x1 - x0)] and [max(0, y1 - y0)],
    the differences being taken in doubles. *)
Definition rect_width {D : Doubles} (r : Rect) : Q := Qmax0 (fl (rx1 r - rx0 r)).
Definition rect_height {D : Doubles} (r : Rect) : Q := Qmax0 (fl (ry1 r - ry0 r)).
Definition rect_tuple (r : Rect) : bbox := (rx0 r, ry0 r, rx1 r, ry1 r).

(** ** Vector strategy (lines 515-565) *)

(** A pdfplumber object (character, line or word): its text and box. *)
Record pobj := { text : str; x0 : Q; top : Q; x1 : Q; bottom : Q }.

Record PlumberPage := {
  chars : list pobj;
  page_text : str;              (* extract_text(x_tolerance=2, y_tolerance=3) *)
  lines : list pobj;
  words : list pobj;            (* extract_words(x_tolerance=1, y_tolerance=1) *)
  width : Q;
  height : Q;
  pp_number : Z                 (* page_number, 1-based *)
}.

Definition obj_box (o : pobj) : bbox := (x0 o, top o, x1 o, bottom o).

Definition mkve (r : bbox) (k : vtype) (snippet : str) : VisualElement :=
  {| rect := r; vkind := k; text_snippet := snippet; wh := None |}.

Definition add_sigil_open (e : OpenEntry) (m : SigilMetadata) : OpenEntry :=
  {| oe_heading := oe_heading e; oe_class := oe_class e;
     oe_sigils := oe_sigils e ++ [m];
     description_parts := description_parts e; oe_page := oe_page e |}.

Definition add_sigil (e : Entry) (m : SigilMetadata) : Entry :=
  {| heading := heading e; class := class e;
     sigils_metadata := sigils_metadata e ++ [m];
     description := description e; references_raw := references_raw e;
     page_number := page_number e |}.

(** Lines 561-564: keep the first annotation of every rectangle. *)
Fixpoint dedupe (seen : list bbox) (l : list VisualElement) : list VisualElement :=
  match l with
  | [] => []
  | ve :: l' =>
      if existsb (bbox_eqb (rect ve)) seen then dedupe seen l'
      else ve :: dedupe (rect ve :: seen) l'
  end.

Section Vector.
Context {U : UnicodeDB}.
Context {D : Doubles}.
Variable env : Renderer.

(** [s.isalnum()] and [s.isspace()]: every character, and at least one. *)
Definition str_isalnum (s : str) : bool :=
  match s with [] => false | _ => forallb isalnum_c s end.
Definition str_isspace (s : str) : bool :=
  match s with [] => false | _ => forallb isspace s end.

(** The candidate test of line 543. *)
Definition vector_candidate (char_text : str) : bool :=
  Nat.eqb (length char_text) 1
  && negb (str_isalnum char_text)
  && negb (existsb (str_eqb char_text) COMMON_PUNCTUATION)
  && negb (str_isspace char_text).

Definition padding : Q := 1.

(** Line 546: four operations on doubles, each rounded. *)
Definition pad (r : Rect) : Rect :=
  {| rx0 := fl (rx0 r - padding); ry0 := fl (ry0 r - padding);
     rx1 := fl (rx1 r + padding); ry1 := fl (ry1 r + padding) |}.

(** The rejection test of line 547.  Comparisons are exact; the half of
    the page width is a division of doubles, the width and the height of
    the box are those of [Rect]. *)
Definition rejects (p : PlumberPage) (padded_bbox : Rect) : bool :=
  Qltb (rx0 padded_bbox) 0 || Qltb (ry0 padded_bbox) 0
  || Qltb (width p) (rx1 padded_bbox) || Qltb (height p) (ry1 padded_bbox)
  || Qltb (fl (width p / 2)) (rect_width padded_bbox)
  || Qltb 50 (rect_height padded_bbox).

Definition line_bbox (p : PlumberPage) (line_text : str) : option bbox :=
  option_map obj_box (find (fun l => contains (text l) line_text) (lines p)).

Definition vstate := (list Entry * list VisualElement * option OpenEntry)%type.

(** One iteration of the line loop, lines 521-540. *)
Definition plumber_line (p : PlumberPage) (st : vstate) (line_text_raw : str) : vstate :=
  let '(entries, ves, cur) := st in
  let line_text := strip line_text_raw in
  match line_text with
  | [] => st
  | _ =>
      let lb := line_bbox p line_text in
      let ves1 := ves ++ match lb with
                         | Some b => [mkve b text_block (firstn 30 line_text)]
                         | None => []
                         end in
      let ves2 := ves1 ++ match re_match HEADING_CLASS_RE line_text, lb with
                          | Some m, Some b =>
                              [mkve b heading_v (strip (group line_text m 1))]
                          | _, _ => []
                          end in
      let '(entries', cur') := segment_line (pp_number p) (entries, cur) line_text in
      (entries', ves2, cur')
  end.

Definition direct_meta (p : PlumberPage) (e : OpenEntry) (img_path char_text : str)
           (padded_bbox : Rect) : SigilMetadata :=
  {| image_path := img_path; parent_entry_heading := oe_heading e;
     sm_page_number := pp_number p; source_text := char_text;
     bounding_box_pdf_coords := rect_tuple padded_bbox;
     extraction_method := Direct |}.

Definition cstate := (Scan * option OpenEntry * list VisualElement)%type.

(** One iteration of the character loop, lines 541-553. *)
Definition plumber_char (p : PlumberPage) (fitz_page : Z) (st : cstate)
           (char_info : pobj) : cstate :=
  let '(sc, cur, ves) := st in
  let char_text := text char_info in
  if vector_candidate char_text then
    match cur with
    | Some e =>
        let sigil_rect := {| rx0 := x0 char_info; ry0 := top char_info;
                             rx1 := x1 char_info; ry1 := bottom char_info |} in
        let padded_bbox := pad sigil_rect in
        if rejects p padded_bbox then st
        else
          let '(img, sc') := _save_sigil_image env sc fitz_page
                               (rect_tuple padded_bbox) (oe_heading e) (pp_number p) in
          match img with
          | Some img_path =>
              (sc', Some (add_sigil_open e (direct_meta p e img_path char_text padded_bbox)),
               ves ++ [mkve (obj_box char_info) saved_sigil char_text])
          | None =>
              (sc', cur, ves ++ [mkve (obj_box char_info) potential_symbol char_text])
          end
    | None => st
    end
  else st.

(** Lines 554-555. *)
Definition biblio_words (p : PlumberPage) : list VisualElement :=
  map (fun w => mkve (obj_box w) biblio_ref (text w))
      (filter (fun w => match re_search BIBLIO_RE (text w) with
                        | Some _ => true | None => false end)
              (words p)).

Definition _extract_elements_from_plumber_page (st : Scan) (p : PlumberPage)
           (fitz_page : Z) : (list Entry * list VisualElement) * Scan :=
  match page_text p with
  | [] => (([], []), st)
  | _ =>
      let '(entries, ves, cur) :=
        fold_left (plumber_line p) (split_on 10 (page_text p)) ([], [], None) in
      let '(st', cur', ves') :=
        fold_left (plumber_char p fitz_page) (chars p) (st, cur, ves) in
      ((close_current entries cur', dedupe [] (ves' ++ biblio_words p)), st')
  end.
End Vector.

(** ** Raster strategy (lines 459-513) *)

(** A row of the OCR engine's table; [o_text = None] is a missing cell. *)
Record OcrRow := {
  block_num : Z;
  line_num : Z;
  o_text : option str;
  o_left : Z;
  o_top : Z;
  o_width : Z;
  o_height : Z;
  conf : Q
}.

(** Line 76.  The zoom is 2.0: dividing an integer pixel coordinate by it,
    and multiplying a page coordinate by it, are exact in doubles, and are
    written without rounding. *)
Definition zoom_x : Q := 2.
Definition zoom_y : Q := 2.

Section Raster.
Context {U : UnicodeDB}.
Context {D : Doubles}.
Variable env : Renderer.

(** [str(row['text']).strip()] *)
Definition row_text (r : OcrRow) : str :=
  strip (match o_text r with Some t => t | None => lit "nan" end).

Definition flush_words (acc : list str) (current_line_words : list str) : list str :=
  match current_line_words with
  | [] => acc
  | _ => acc ++ [join (lit " ") current_line_words]
  end.

(** Lines 466-473: rows with the same block and line number form a line. *)
Definition ocr_group (st : list str * list str * Z * Z) (row : OcrRow)
  : list str * list str * Z * Z :=
  let '(acc, current_line_words, last_block_num, last_line_num) := st in
  if negb (block_num row =? last_block_num)%Z || negb (line_num row =? last_line_num)%Z
  then (flush_words acc current_line_words, [row_text row], block_num row, line_num row)
  else (acc, current_line_words ++ [row_text row], block_num row, line_num row).

Definition ocr_lines (rows : list OcrRow) : list str :=
  let '(acc, current_line_words, _, _) :=
    fold_left ocr_group rows ([], [], (-1)%Z, (-1)%Z) in
  flush_words acc current_line_words.

(** [next((e for e in reversed(entries_data) if ...), None)] *)
Definition active_entry (page : Z) (entries_data : list Entry) : option Entry :=
  find (fun e => (page_number e =? page)%Z) (rev entries_data).

Fixpoint attach_rev (page : Z) (m : SigilMetadata) (rev_entries : list Entry) : list Entry :=
  match rev_entries with
  | [] => []
  | e :: rest =>
      if (page_number e =? page)%Z then add_sigil e m :: rest
      else e :: attach_rev page m rest
  end.

(** Appending to the list of the active entry, which is an element of
    [entries_data]. *)
Definition attach (page : Z) (m : SigilMetadata) (entries_data : list Entry) : list Entry :=
  rev (attach_rev page m (rev entries_data)).

Definition ocr_meta (page : Z) (e : Entry) (img_path txt : str) (box : bbox) : SigilMetadata :=
  {| image_path := img_path; parent_entry_heading := heading e;
     sm_page_number := page; source_text := txt;
     bounding_box_pdf_coords := box; extraction_method := Ocr |}.

(** The candidate test of line 503. *)
Definition raster_candidate (txt : str) : bool :=
  match re_match POTENTIAL_SYMBOL_RE_OCR txt with Some _ => true | None => false end.

Definition rstate := (Scan * list Entry * list VisualElement)%type.

Definition ocr_ve (row : OcrRow) (k : vtype) (txt : str) : VisualElement :=
  {| rect := (inject_Z (o_left row), inject_Z (o_top row),
              inject_Z (o_width row), inject_Z (o_height row));
     vkind := k; text_snippet := txt;
     wh := Some (o_width row, o_height row) |}.

(** One iteration of the token loop, lines 494-511; [number] is
    [fitz_page.number]. *)
Definition ocr_row (number : Z) (st : rstate) (row : OcrRow) : rstate :=
  let '(sc, entries_data, ves) := st in
  let page := (number + 1)%Z in
  match o_text row, row_text row with
  | None, _ => st
  | Some _, [] => st
  | Some _, txt =>
      let x := inject_Z (o_left row) in
      let y := inject_Z (o_top row) in
      let w := inject_Z (o_width row) in
      let h := inject_Z (o_height row) in
      let box := (x / zoom_x, y / zoom_y, (x + w) / zoom_x, (y + h) / zoom_y)%Q in
      let is_heading_word :=
        existsb (fun e => contains (heading e) txt)
                (filter (fun e => (page_number e =? page)%Z) entries_data) in
      if is_heading_word then (sc, entries_data, ves ++ [ocr_ve row heading_v txt])
      else match re_search BIBLIO_RE txt with
      | Some _ => (sc, entries_data, ves ++ [ocr_ve row biblio_ref txt])
      | None =>
          if raster_candidate txt then
            match active_entry page entries_data with
            | Some e =>
                let '(img, sc') := _save_sigil_image env sc number box (heading e) page in
                match img with
                | Some img_path =>
                    (sc', attach page (ocr_meta page e img_path txt box) entries_data,
                     ves ++ [ocr_ve row saved_sigil txt])
                | None => (sc', entries_data, ves ++ [ocr_ve row potential_symbol txt])
                end
            | None => (sc, entries_data, ves ++ [ocr_ve row potential_symbol txt])
            end
          else (sc, entries_data, ves ++ [ocr_ve row text_block txt])
      end
  end.

Definition log_add (st : Scan) (l : log_entry) : Scan :=
  {| sigil_counter := sigil_counter st; written := written st;
     attempted := attempted st; log := log st ++ [l] |}.

(** [ocr_data = None]: the OCR call raised; the handler of line 512 logs
    and the function returns what it has, nothing. *)
Definition _extract_elements_with_ocr (st : Scan) (number : Z)
           (ocr_data : option (list OcrRow)) : (list Entry * list VisualElement) * Scan :=
  match ocr_data with
  | None => (([], []), log_add st (ErrOcrPage (number + 1)))
  | Some data =>
      let rows := filter (fun r => Qltb (-1) (conf r)) data in
      let entries_data := segment_page (number + 1) (ocr_lines rows) in
      let '(st', entries_data', ves) :=
        fold_left (ocr_row number) rows (st, entries_data, []) in
      ((entries_data', ves), st')
  end.
End Raster.

(** ** The scan (lines 414-457) *)

(** A page of the document under its two views. *)
Record PageInput := {
  plumber : PlumberPage;
  ocr : option (list OcrRow)
}.

Section ScanWorker.
Context {U : UnicodeDB}.
Context {D : Doubles}.
Variable env : Renderer.
Variable use_ocr : bool.

(** Line 422: a scan starts with an empty dataset and the counter at 0. *)
Definition start_scan_thread (st : Scan) : Scan :=
  {| sigil_counter := 0; written := written st; attempted := []; log := log st |}.

Definition extract_page (st : Scan) (idx : Z) (pg : PageInput)
  : (list Entry * list VisualElement) * Scan :=
  if use_ocr then _extract_elements_with_ocr env st idx (ocr pg)
  else _extract_elements_from_plumber_page env st (plumber pg) idx.

(** The body of the page loop, lines 435-447. *)
Definition scan_page (acc : Scan * list Entry) (ip : Z * PageInput) : Scan * list Entry :=
  let '(st, all_extracted_data) := acc in
  let '(idx, pg) := ip in
  let '((parsed_entries, _), st') := extract_page st idx pg in
  (st', all_extracted_data ++ parsed_entries).

Definition page_range (doc : list PageInput) (start_idx end_idx : Z) : list (Z * PageInput) :=
  let s := Z.to_nat start_idx in
  let n := Z.to_nat (end_idx - start_idx + 1) in
  combine (map Z.of_nat (seq s n)) (firstn n (skipn s doc)).

(** The worker; the second component is the dataset dumped to
    [OUTPUT_JSON_PATH], if the scan gets that far. *)
Definition scan_pdf_worker (doc : list PageInput) (scan_start_page_idx scan_end_page_idx : Z)
           (st : Scan) : Scan * option (list Entry) :=
  let total_pages_in_doc := Z.of_nat (length doc) in
  if negb ((0 <=? scan_start_page_idx)%Z && (scan_start_page_idx <? total_pages_in_doc)%Z)
  then (log_add st ErrStartOutOfBounds, None)
  else
    let end_idx := Z.min scan_end_page_idx (total_pages_in_doc - 1) in
    if (end_idx <? scan_start_page_idx)%Z then (log_add st ErrEndBeforeStart, None)
    else
      let '(st', data) :=
        fold_left scan_page (page_range doc scan_start_page_idx end_idx) (st, []) in
      (log_add st' (InfoScanComplete (length data)), Some data).

Definition run_scan (doc : list PageInput) (start_idx end_idx : Z) (st : Scan)
  : Scan * option (list Entry) :=
  scan_pdf_worker doc start_idx end_idx (start_scan_thread st).
End ScanWorker.

(** ** Drawn-sigil search (lines 647-671) *)

Definition rgb := (N * N * N)%type.

Definition rgb_eqb (a b : rgb) : bool :=
  let '(r1, g1, b1) := a in
  let '(r2, g2, b2) := b in
  (r1 =? r2) && (g1 =? g2) && (b1 =? b2).

Record Image := { pixels : list rgb }.

Definition DRAW_CANVAS_WIDTH : N := 250.
Definition DRAW_CANVAS_HEIGHT : N := 250.
Definition DRAW_BG_COLOR : str := lit "white".
(** The pixel value of a canvas filled with [DRAW_BG_COLOR] (lines 82 and
    641). *)
Definition DRAW_BG_RGB : rgb := (255, 255, 255).

(** [Image.Color.getrgb(...)] on line 654.  [Image] is the module
    [PIL.Image] imported on line 3, and that module has no attribute
    [Color] (the colour table of the library is the module [ImageColor]):
    evaluating the expression raises AttributeError, whatever the argument.
    [None] stands for the exception. *)
Definition Image_Color_getrgb (color : str) : option rgb := None.

Fixpoint bump (c : rgb) (counts : list (N * rgb)) : list (N * rgb) :=
  match counts with
  | [] => [(1, c)]
  | (n, c') :: rest => if rgb_eqb c c' then (n + 1, c') :: rest else (n, c') :: bump c rest
  end.

(** PIL's [Image.getcolors(maxcolors)]: the colours with their pixel counts,
    or [None] when there are more than [maxcolors] of them. *)
Definition getcolors (maxcolors : nat) (im : Image) : option (list (N * rgb)) :=
  let counts := fold_left (fun acc c => bump c acc) (pixels im) [] in
  if (length counts <=? maxcolors)%nat then Some counts else None.

(** What evaluating a condition gives: a truth value, or an exception. *)
Inductive tested := Raises | IsTrue | IsFalse.

(** The test of lines 654-655, a chain of three conjuncts evaluated from
    left to right.  [getcolors(1)] is falsy when it is [None] or an empty
    list, and the chain stops there; otherwise the second conjunct is
    evaluated, and its right operand raises. *)
Definition empty_canvas (drawn : Image) : tested :=
  match getcolors 1 drawn with
  | Some ((count, colour) :: _) =>
      match Image_Color_getrgb DRAW_BG_COLOR with
      | None => Raises
      | Some background =>
          if rgb_eqb colour background
             && (count =? DRAW_CANVAS_WIDTH * DRAW_CANVAS_HEIGHT)
          then IsTrue else IsFalse
      end
  | _ => IsFalse
  end.

Fixpoint pop_pos (p : positive) : N :=
  match p with
  | xH => 1
  | xO q => pop_pos q
  | xI q => 1 + pop_pos q
  end.

(** Distance of two 64-bit perceptual hashes: the number of differing bits. *)
Definition hamming (a b : N) : N :=
  match N.lxor a b with
  | 0 => 0
  | Npos p => pop_pos p
  end.

Record MatchResult := {
  distance : N;
  sigil_meta : SigilMetadata;
  parent_entry : Entry
}.

Inductive hash_call := HashDrawing | HashFile (img_path : str).

(** The state the search reads and writes: the loaded dataset, the log, and
    the trace of hashing calls made so far. *)
Record Query := {
  scanned_data_for_query : list Entry;
  qlog : list log_entry;
  hashed : list hash_call
}.

(** The world of a search: the dataset file ([None]: missing or undecodable),
    the image files, and the hash of a file or of the drawing ([None]: the
    call raises). *)
Record SearchEnv := {
  stored_dataset : option (list Entry);
  path_exists : str -> bool;
  phash_file : str -> option N;
  phash_drawing : Image -> option N
}.

Inductive outcome :=
| NotLoaded                       (* error box: scanned data not loaded *)
| Raised                          (* AttributeError out of line 654, not caught *)
| EmptyCanvas                     (* info box: please draw a symbol *)
| HashingError
| TopMatches (top : list MatchResult).

(** [matches.sort(key=lambda x: x[distance])]: a stable sort. *)
Fixpoint insert_match (m : MatchResult) (l : list MatchResult) : list MatchResult :=
  match l with
  | [] => [m]
  | x :: l' => if distance m <=? distance x then m :: l else x :: insert_match m l'
  end.

Definition sort_matches (l : list MatchResult) : list MatchResult :=
  fold_right insert_match [] l.

Section Search.
Variable senv : SearchEnv.

(** Lines 568-575. *)
Definition load_scanned_data_for_query (q : Query) : Query :=
  match stored_dataset senv with
  | Some d => {| scanned_data_for_query := d;
                 qlog := qlog q ++ [InfoLoaded (length d)]; hashed := hashed q |}
  | None => {| scanned_data_for_query := scanned_data_for_query q;
               qlog := qlog q ++ [ErrDataFile]; hashed := hashed q |}
  end.

Definition cstep := (list MatchResult * list log_entry * list hash_call)%type.

(** The body of the inner loop, lines 662-668. *)
Definition try_sigil (drawn_hash : N) (entry : Entry) (acc : cstep)
           (sm : SigilMetadata) : cstep :=
  let '(matches, lg, hs) := acc in
  let img_path := image_path sm in
  match img_path with
  | [] => acc
  | _ =>
      if path_exists senv img_path then
        match phash_file senv img_path with
        | Some db_hash =>
            (matches ++ [{| distance := hamming drawn_hash db_hash;
                            sigil_meta := sm; parent_entry := entry |}],
             lg, hs ++ [HashFile img_path])
        | None => (matches, lg ++ [WarnDbImage img_path], hs ++ [HashFile img_path])
        end
      else acc
  end.

Definition try_entry (drawn_hash : N) (acc : cstep) (entry : Entry) : cstep :=
  fold_left (try_sigil drawn_hash entry) (sigils_metadata entry) acc.

Definition collect (drawn_hash : N) (data : list Entry) (acc : cstep) : cstep :=
  fold_left (try_entry drawn_hash) data acc.

Definition search_drawn_sigil_action (q : Query) (drawn : Image) : outcome * Query :=
  let q1 := match scanned_data_for_query q with
            | [] => load_scanned_data_for_query q
            | _ => q
            end in
  match scanned_data_for_query q1 with
  | [] => (NotLoaded, q1)
  | data =>
      match empty_canvas drawn with
      | Raises => (Raised, q1)
      | IsTrue => (EmptyCanvas, q1)
      | IsFalse =>
          match phash_drawing senv drawn with
          | None =>
              (HashingError,
               {| scanned_data_for_query := data; qlog := qlog q1;
                  hashed := hashed q1 ++ [HashDrawing] |})
          | Some drawn_hash =>
              let '(matches, lg, hs) :=
                collect drawn_hash data ([], qlog q1, hashed q1 ++ [HashDrawing]) in
              (TopMatches (firstn 10 (sort_matches matches)),
               {| scanned_data_for_query := data; qlog := lg; hashed := hs |})
          end
      end
  end.
End Search.

(** * Specifications

    Declarative readings of the patterns and of the loops, against which the
    functions above are verified. *)

Section Readings.
Context {U : UnicodeDB}.
Context {D : Doubles}.

Definition all_in (cl : cclass) (u : str) : Prop :=
  Forall (fun c => cls_match cl c = true) u.

(** What follows group 1: blanks, then the tag, which is group 2. *)
Definition heading_tag (i0 : nat) (i' : nat) (s : str) : option match_obj :=
  match s with
  | [] => None
  | c0 :: s2 =>
      if cls_match (cset [CRange (ch "A") (ch "Z")]) c0 then
        rep_greedy (cset [CRange (ch "a") (ch "z")]) 1 3 (S i') s2
          (fun i1 s3 =>
             match s3 with
             | [] => None
             | c1 :: _ =>
                 if cls_match (cset [CChar (ch ".")]) c1 then
                   Some {| m_start := 0; m_end := S i1;
                           m_groups := [(2%nat, (i', S i1)); (1%nat, (0%nat, i0))] |}
                 else None
             end)
      else None
  end.

Definition heading_tail (i0 : nat) (s : str) : option match_obj :=
  rep_greedy (cset [CSpace]) 1 (length s) i0 s (heading_tag i0).

End Readings.

(** *** Reading of the heading pattern *)

Definition heading_first (c : char) : bool := ascii_upper c || ascii_digit c.

Definition heading_more (c : char) : bool :=
  ascii_upper c || ascii_digit c || isspace c
  || (c =? ch "-") || (c =? RSQUO) || (c =? ch ",").

(** [line] starts with a heading [g1], blanks [ws] and a tag [g2]. *)
Record heading_prefix (line g1 ws g2 rest : str) : Prop := {
  hp_line : line = g1 ++ ws ++ g2 ++ rest;
  hp_heading : exists c run, g1 = c :: run /\ heading_first c = true
                 /\ run <> [] /\ Forall (fun x => heading_more x = true) run;
  hp_blank : ws <> [] /\ Forall (fun x => isspace x = true) ws;
  hp_tag : exists t lows, g2 = t :: lows ++ [ch "."] /\ ascii_upper t = true
             /\ (1 <= length lows <= 3)%nat
             /\ Forall (fun x => ascii_lower x = true) lows
}.

(** The entry opened by a heading line split as [g1], blanks, [g2], [rest]. *)
Definition fresh_entry (page : Z) (g1 g2 rest : str) : OpenEntry :=
  {| oe_heading := strip g1; oe_class := strip g2; oe_sigils := [];
     description_parts := match strip rest with [] => [] | r => [r] end;
     oe_page := page |}.

(** The heading pattern as the specification prints it: the quotation mark of
    the class is the ASCII apostrophe. *)
Definition HEADING_CLASS_RE_spec : regex :=
  Cat Bol
   (Cat (Grp 1 (Cat (Cls (cset [CRange (ch "A") (ch "Z"); CRange (ch "0") (ch "9")]))
                    (Rep false 1 None
                       (cset [CRange (ch "A") (ch "Z"); CRange (ch "0") (ch "9");
                              CSpace; CChar (ch "-"); CChar (ch ","); CChar (ch "'")]))))
   (Cat (Rep true 1 None (cset [CSpace]))
        (Grp 2 (Cat (Cls (cset [CRange (ch "A") (ch "Z")]))
               (Cat (Rep true 1 (Some 3%nat) (cset [CRange (ch "a") (ch "z")]))
                    (Cls (cset [CChar (ch ".")]))))))).

Section SegmentReadings.
Context {U : UnicodeDB}.
Context {D : Doubles}.

Definition is_heading (line : str) : bool :=
  match re_match HEADING_CLASS_RE line with Some _ => true | None => false end.

(** The text after the tag on a heading line, as a list of fragments. *)
Definition trailing (h : str) (m : match_obj) : list str :=
  match strip (skipn (m_end m) h) with [] => [] | r => [r] end.

(** [e] is the entry of heading line [h] followed by the lines [body]. *)
Definition entry_of_block (page : Z) (h : str) (body : list str) (e : Entry) : Prop :=
  exists m, re_match HEADING_CLASS_RE h = Some m
    /\ heading e = strip (group h m 1) /\ class e = strip (group h m 2)
    /\ page_number e = page
    /\ description e = strip (join (lit " ") (trailing h m ++ body))
    /\ references_raw e = extract_references (description e).

(** In [ls], [h] is a heading line and [body] are the lines from there up
    to the next heading line or the end. *)
Definition block (ls : list str) (h : str) (body : list str) : Prop :=
  exists pre post, ls = pre ++ h :: body ++ post
    /\ is_heading h = true
    /\ Forall (fun l => is_heading l = false) body
    /\ match post with [] => True | h2 :: _ => is_heading h2 = true end.
End SegmentReadings.

(** *** Readings for the glyph detectors *)

Section BoxReadings.
Context {D : Doubles}.

(** The box of a character as a [Rect] (line 545). *)
Definition char_rect (c : pobj) : Rect :=
  {| rx0 := x0 c; ry0 := top c; rx1 := x1 c; ry1 := bottom c |}.

(** The box of a character, padded by 1 on each side. *)
Definition padded_box (c : pobj) : bbox :=
  (fl (x0 c - 1), fl (top c - 1), fl (x1 c + 1), fl (bottom c + 1))%Q.

(** A padded box that is not acceptable: it sticks out of the page, or is
    wider than half the page, or higher than 50.  Its width and height
    are the differences of its sides, taken in doubles. *)
Definition out_of_bounds (p : PlumberPage) (padded : bbox) : Prop :=
  let '(bx0, by0, bx1, by1) := padded in
  (bx0 < 0 \/ by0 < 0 \/ width p < bx1 \/ height p < by1
   \/ fl (width p / 2) < fl (bx1 - bx0)
   \/ 50 < fl (by1 - by0))%Q.

(** Doubles represent the integers up to 2^53 exactly: an operation whose
    exact result is such an integer is not rounded. *)
Definition exact_on_integers : Prop :=
  forall (q : Q) (z : Z),
    (q == inject_Z z)%Q -> (Z.abs z <= 2 ^ 53)%Z -> fl q = inject_Z z.
End BoxReadings.

Definition with_sigils (ms : list SigilMetadata) (e : OpenEntry) : OpenEntry :=
  {| oe_heading := oe_heading e; oe_class := oe_class e;
     oe_sigils := oe_sigils e ++ ms;
     description_parts := description_parts e; oe_page := oe_page e |}.

Definition add_sigils (ms : list SigilMetadata) (e : Entry) : Entry :=
  {| heading := heading e; class := class e;
     sigils_metadata := sigils_metadata e ++ ms;
     description := description e; references_raw := references_raw e;
     page_number := page_number e |}.

(** [ms] appended to the sigils of the last entry of [l]. *)
Definition on_last (ms : list SigilMetadata) (l : list Entry) : list Entry :=
  match rev l with
  | [] => []
  | e :: r => rev r ++ [add_sigils ms e]
  end.

(** An entry without its sigils. *)
Definition core (e : Entry) : str * str * str * list str * Z :=
  (heading e, class e, description e, references_raw e, page_number e).

Section GlyphReadings.
Context {U : UnicodeDB}.
Context {D : Doubles}.
Variable env : Renderer.

(** An accepted vector candidate: the crop of [box] is requested, and
    recorded when the store returns a path. *)
Definition store_glyph (p : PlumberPage) (fitz_page : Z) (sc : Scan) (e : OpenEntry)
           (ves : list VisualElement) (c : pobj) (box : bbox) : cstate :=
  let '(img, sc') := _save_sigil_image env sc fitz_page box (oe_heading e) (pp_number p) in
  match img with
  | Some img_path =>
      (sc',
       Some (add_sigil_open e
               {| image_path := img_path; parent_entry_heading := oe_heading e;
                  sm_page_number := pp_number p; source_text := text c;
                  bounding_box_pdf_coords := box; extraction_method := Direct |}),
       ves ++ [mkve (obj_box c) saved_sigil (text c)])
  | None => (sc', Some e, ves ++ [mkve (obj_box c) potential_symbol (text c)])
  end.
End GlyphReadings.

Definition last_entry (l : list Entry) : option Entry := hd_error (rev l).

(** What a batch of extracted metadata looks like: method, page, and the
    heading of the entry that received it. *)
Definition attached_to (meth : method) (page : Z) (owner : option str)
           (ms : list SigilMetadata) : Prop :=
  Forall (fun m => extraction_method m = meth /\ sm_page_number m = page
                   /\ owner = Some (parent_entry_heading m)) ms.

Definition vproj (st : list Entry * list VisualElement * option OpenEntry)
  : list Entry * option OpenEntry := (fst (fst st), snd st).

Definition on_page (page : Z) (l : list Entry) : Prop :=
  Forall (fun e => page_number e = page) l.

Definition no_sigils (l : list Entry) : Prop :=
  Forall (fun e => sigils_metadata e = []) l.

(** *** Sample inputs *)

(** A renderer whose crops are never empty and a disk that never fails. *)
Definition demo_env : Renderer :=
  {| os_sep := ch "/"; get_pixmap := fun _ _ _ => Pixmap 8 8;
     pix_save := fun _ _ => true |}.

Definition scan0 : Scan :=
  {| sigil_counter := 0; written := []; attempted := []; log := [] |}.

Definition tok (b l : Z) (t : string) (x y : Z) : OcrRow :=
  {| block_num := b; line_num := l; o_text := Some (lit t);
     o_left := x; o_top := y; o_width := 20; o_height := 10; conf := 90 |}.

(** Two printed lines, each a heading with its text; a glyph sits in the
    first. *)
Definition two_entry_rows : list OcrRow :=
  [tok 1 1 "FOO" 0 0; tok 1 1 "Abc." 30 0; tok 1 1 "+" 60 0;
   tok 1 2 "BAR" 0 20; tok 1 2 "Def." 30 20; tok 1 2 "x" 60 20].

(** Two tokens reported with the same box. *)
Definition same_box_rows : list OcrRow :=
  [tok 1 1 "alpha" 5 5; tok 1 1 "beta" 5 5].

(** The heading of the entry that is open once the page has been read up to
    and including token [i] of the OCR table. *)
Definition current_at {U : UnicodeDB} (number : Z) (rows : list OcrRow) (i : nat)
  : option str :=
  option_map oe_heading
    (snd (segment_lines (number + 1) ([], None) (ocr_lines (firstn (S i) rows)))).

Definition abracadabra : str :=
  lit "ABRACADABRA Sym. A mystical word of power. Agrippa 1533.".

Definition foo_bar_lines : list str :=
  [lit "FOO Abc. first line"; lit "second line"; lit "BAR Def. third line"].

(** *** Invariant of the line loop *)

Section BlockInvariant.
Context {U : UnicodeDB}.
Context {D : Doubles}.
Variable page : Z.

Definition closed_block (done : list str) (h : str) (body : list str) : Prop :=
  exists pre post, done = pre ++ h :: body ++ post
    /\ is_heading h = true
    /\ Forall (fun l => is_heading l = false) body
    /\ exists h2 post', post = h2 :: post' /\ is_heading h2 = true.

Definition open_block (done : list str) (c : OpenEntry) : Prop :=
  exists pre h m body, done = pre ++ h :: body
    /\ re_match HEADING_CLASS_RE h = Some m
    /\ Forall (fun l => is_heading l = false) body
    /\ oe_heading c = strip (group h m 1) /\ oe_class c = strip (group h m 2)
    /\ oe_page c = page
    /\ description_parts c = trailing h m ++ body.

Definition seg_inv (done : list str) (st : list Entry * option OpenEntry) : Prop :=
  (forall e, In e (fst st) ->
             exists h body, closed_block done h body /\ entry_of_block page h body e)
  /\ (forall c, snd st = Some c -> open_block done c).

End BlockInvariant.

(** *** Trace of the sigil store *)

(** One call of the save operation: its arguments and whether a file was
    written. *)
Record save_call := { sc_heading : str; sc_page : Z; sc_saved : bool }.

Section Trace.
Context {U : UnicodeDB}.
Context {D : Doubles}.
Variable env : Renderer.

(** The file names generated by [calls] when the counter stands at [c]. *)
Fixpoint names_from (c : N) (calls : list save_call) : list str :=
  match calls with
  | [] => []
  | k :: rest =>
      img_filename_of (sc_heading k) (sc_page k) (c + 1) :: names_from (c + 1) rest
  end.

(** The paths written by [calls] when the counter stands at [c]. *)
Fixpoint paths_from (c : N) (calls : list save_call) : list str :=
  match calls with
  | [] => []
  | k :: rest =>
      (if sc_saved k
       then [path_join (os_sep env) OUTPUT_IMAGE_DIR
                       (img_filename_of (sc_heading k) (sc_page k) (c + 1))]
       else [])
      ++ paths_from (c + 1) rest
  end.

(** [st'] is [st] after the save calls [calls], the log apart. *)
Definition advances (st st' : Scan) (calls : list save_call) : Prop :=
  sigil_counter st' = sigil_counter st + N.of_nat (length calls)
  /\ attempted st' = attempted st ++ names_from (sigil_counter st) calls
  /\ written st' = written st ++ paths_from (sigil_counter st) calls.

Definition progresses (st st' : Scan) : Prop := exists calls, advances st st' calls.
End Trace.

Definition digit_of_char (c : char) (d : Decimal.uint) : Decimal.uint :=
  if c =? 48 then Decimal.D0 d else if c =? 49 then Decimal.D1 d
  else if c =? 50 then Decimal.D2 d else if c =? 51 then Decimal.D3 d
  else if c =? 52 then Decimal.D4 d else if c =? 53 then Decimal.D5 d
  else if c =? 54 then Decimal.D6 d else if c =? 55 then Decimal.D7 d
  else if c =? 56 then Decimal.D8 d else Decimal.D9 d.

Fixpoint uint_of_digits (s : str) : Decimal.uint :=
  match s with
  | [] => Decimal.Nil
  | c :: rest => digit_of_char c (uint_of_digits rest)
  end.

Fixpoint take_while (f : char -> bool) (s : str) : str :=
  match s with
  | c :: rest => if f c then c :: take_while f rest else []
  | [] => []
  end.

(** The id component of a sigil file name: the digits before [.png]. *)
Definition filename_id (f : str) : option N :=
  match rev f with
  | 103 :: 110 :: 112 :: 46 :: r =>
      Some (N.of_uint (uint_of_digits (rev (take_while ascii_digit r))))
  | _ => None
  end.

(** The id component of the path of a sigil file. *)
Definition path_id (p : str) : option N :=
  filename_id (skipn (S (length OUTPUT_IMAGE_DIR)) p).

(** The ids [c+1, ..., c+n]. *)
Fixpoint ids_from (c : N) (n : nat) : list N :=
  match n with
  | O => []
  | S n' => (c + 1) :: ids_from (c + 1) n'
  end.

(** The ids of the calls of a trace that wrote a file. *)
Fixpoint saved_ids (c : N) (calls : list save_call) : list N :=
  match calls with
  | [] => []
  | k :: rest => (if sc_saved k then [c + 1] else []) ++ saved_ids (c + 1) rest
  end.

(** A renderer whose second crop is empty. *)
Definition gap_env : Renderer :=
  {| os_sep := ch "/";
     get_pixmap := fun n _ _ => if n =? 2 then Pixmap 0 8 else Pixmap 8 8;
     pix_save := fun _ _ => true |}.

(** A one-page document: a heading and three glyph tokens. *)
Definition three_glyph_doc : list PageInput :=
  [ {| plumber := {| chars := []; page_text := []; lines := []; words := [];
                     width := 500; height := 700; pp_number := 1 |};
       ocr := Some [tok 1 1 "SOL" 0 0; tok 1 1 "Sym." 30 0;
                    tok 1 1 "+" 60 0; tok 1 1 "*" 90 0; tok 1 1 "=" 120 0] |} ].

(** *** Readings of the candidate rules *)

(** The twelve punctuation characters listed in the raster pattern. *)
Definition raster_punctuation : list char :=
  [ch "."; ch ","; ch ";"; ch ":"; ch "'"; 34; ch "("; ch ")";
   ch "["; ch "]"; ch "?"; ch "!"].

(** The fourteen of the vector strategy: the same and hyphen, slash. *)
Definition vector_punctuation : list char :=
  raster_punctuation ++ [ch "-"; ch "/"].

(** What the raster pattern lets through: no whitespace, no word character
    (alphanumeric or underscore), none of the twelve. *)
Definition symbol_char {U : UnicodeDB} (c : char) : bool :=
  negb (isspace c) && negb (isalnum_c c || (c =? 95))
  && negb (existsb (N.eqb c) raster_punctuation).

(** *** Readings for the drawn-sigil search *)

Section SearchReadings.
Variable senv : SearchEnv.

(** The dataset the search works on, after the load attempt of lines
    650-651. *)
Definition loaded (q : Query) : list Entry :=
  match scanned_data_for_query q with
  | [] => match stored_dataset senv with Some d => d | None => [] end
  | d => d
  end.

(** The sigils of the dataset, in iteration order, with their entries. *)
Definition corpus (data : list Entry) : list (Entry * SigilMetadata) :=
  flat_map (fun e => map (pair e) (sigils_metadata e)) data.

(** The hash of a corpus image, when its file exists and can be hashed. *)
Definition usable (sm : SigilMetadata) : option N :=
  match image_path sm with
  | [] => None
  | p => if path_exists senv p then phash_file senv p else None
  end.

Definition candidate_of (drawn_hash : N) (es : Entry * SigilMetadata) : list MatchResult :=
  match usable (snd es) with
  | Some db_hash =>
      [{| distance := hamming drawn_hash db_hash;
          sigil_meta := snd es; parent_entry := fst es |}]
  | None => []
  end.

(** One match per sigil whose image exists and can be hashed. *)
Definition candidates (drawn_hash : N) (data : list Entry) : list MatchResult :=
  flat_map (candidate_of drawn_hash) (corpus data).

Definition warning_of (es : Entry * SigilMetadata) : list log_entry :=
  match image_path (snd es) with
  | [] => []
  | p => if path_exists senv p
         then match phash_file senv p with
              | Some _ => []
              | None => [WarnDbImage p]
              end
         else []
  end.

(** The warnings of a search: one per image that exists and cannot be
    hashed, none for a missing image. *)
Definition warnings (data : list Entry) : list log_entry :=
  flat_map warning_of (corpus data).

Definition opened_of (es : Entry * SigilMetadata) : list hash_call :=
  match image_path (snd es) with
  | [] => []
  | p => if path_exists senv p then [HashFile p] else []
  end.

(** The corpus images opened by a search. *)
Definition opened (data : list Entry) : list hash_call :=
  flat_map opened_of (corpus data).
End SearchReadings.

Definition by_distance (a b : MatchResult) : Prop := distance a <= distance b.

Definition at_distance (d : N) (l : list MatchResult) : list MatchResult :=
  filter (fun m => distance m =? d) l.

(** The untouched canvas: every pixel has the background colour. *)
Definition blank_canvas : Image :=
  {| pixels := repeat DRAW_BG_RGB (N.to_nat (DRAW_CANVAS_WIDTH * DRAW_CANVAS_HEIGHT)) |}.

(** A canvas with one black pixel. *)
Definition dotted_canvas : Image :=
  {| pixels := (0, 0, 0) :: repeat DRAW_BG_RGB 15 |}.

Definition sigil_at (path : string) : SigilMetadata :=
  {| image_path := lit path; parent_entry_heading := lit "SOL"; sm_page_number := 1;
     source_text := lit "+"; bounding_box_pdf_coords := (9, 9, 13, 13)%Q;
     extraction_method := Direct |}.

Definition sol_entry (sigils : list SigilMetadata) : Entry :=
  {| heading := lit "SOL"; class := lit "Sym."; sigils_metadata := sigils;
     description := lit "The sun."; references_raw := []; page_number := 1 |}.

Definition query0 : Query :=
  {| scanned_data_for_query := []; qlog := []; hashed := [] |}.

(** No dataset file, no image. *)
Definition bare_disk : SearchEnv :=
  {| stored_dataset := None; path_exists := fun _ => false;
     phash_file := fun _ => None; phash_drawing := fun _ => Some 0 |}.

(** A dataset file holding an empty list. *)
Definition empty_dataset_disk : SearchEnv :=
  {| stored_dataset := Some []; path_exists := fun _ => false;
     phash_file := fun _ => None; phash_drawing := fun _ => Some 0 |}.

(** A dataset of one entry with one sigil, whose image is gone. *)
Definition missing_image_disk : SearchEnv :=
  {| stored_dataset := Some [sol_entry [sigil_at "a.png"]];
     path_exists := fun _ => false;
     phash_file := fun _ => None; phash_drawing := fun _ => Some 0 |}.

(** A dataset of one entry with two sigils whose images hash to 3 and 1. *)
Definition two_image_disk : SearchEnv :=
  {| stored_dataset := Some [sol_entry [sigil_at "a.png"; sigil_at "b.png"]];
     path_exists := fun _ => true;
     phash_file := fun p => if str_eqb p (lit "a.png") then Some 3 else Some 1;
     phash_drawing := fun _ => Some 0 |}.

(** *** Further sample inputs *)

Definition demo_page : PlumberPage :=
  {| chars := []; page_text := lit "SOL Sym. The sun."; lines := []; words := [];
     width := 500; height := 700; pp_number := 1 |}.

Definition demo_entry : OpenEntry :=
  {| oe_heading := lit "SOL"; oe_class := lit "Sym."; oe_sigils := [];
     description_parts := [lit "The sun."]; oe_page := 1 |}.

Definition demo_char : pobj :=
  {| text := lit "+"; x0 := 10; top := 10; x1 := 12; bottom := 12 |}.

Definition distinct_boxes (a b : VisualElement) : Prop :=
  bbox_eqb (rect a) (rect b) = false.

(** *** Readings for the further properties of the segmenter *)

Section LineReadings.
Context {U : UnicodeDB}.
Context {D : Doubles}.

(** The heading and the tag a heading line announces. *)
Definition announced (h : str) : str * str :=
  match re_match HEADING_CLASS_RE h with
  | Some m => (strip (group h m 1), strip (group h m 2))
  | None => ([], [])
  end.

Definition titles (l : list Entry) : list (str * str) :=
  map (fun e => (heading e, class e)) l.
End LineReadings.

(** A heading as the segmenter can produce it, and a tag. *)
Definition heading_shaped (s : str) : Prop :=
  exists c run, s = c :: run /\ heading_first c = true
    /\ Forall (fun x => heading_more x = true) run
    /\ (forall u x, s = u ++ [x] -> isspace x = false).

Definition tag_shaped (s : str) : Prop :=
  exists t lows, s = t :: lows ++ [ch "."] /\ ascii_upper t = true
    /\ (1 <= length lows <= 3)%nat
    /\ Forall (fun x => ascii_lower x = true) lows.

Definition well_titled (page : Z) (e : Entry) : Prop :=
  heading_shaped (heading e) /\ tag_shaped (class e) /\ page_number e = page.

(** A page that opens with a line belonging to no entry. *)
Definition orphan_lines : list str := [lit "continued from the page before"].

(** *** Readings for the bibliography *)

Definition str_lt (a b : str) : Prop := str_ltb a b = true.

Section ReferenceReadings.
Context {U : UnicodeDB}.
Context {D : Doubles}.

Definition name_char (c : char) : bool :=
  ascii_upper c || ascii_lower c || isspace c.

(** A citation as the bibliography pattern reads it: an uppercase letter,
    a run of letters and blanks, one blank, then a four-digit year or a
    one- or two-digit century followed by C. *)
Definition citation_shaped (r : str) : Prop :=
  exists c name sp num,
    r = c :: name ++ sp :: num
    /\ ascii_upper c = true
    /\ name <> [] /\ Forall (fun x => name_char x = true) name
    /\ isspace sp = true
    /\ ((length num = 4%nat /\ Forall (fun x => isdecimal_c x = true) num)
        \/ exists ds, num = ds ++ [ch "C"] /\ (1 <= length ds <= 2)%nat
                      /\ Forall (fun x => isdecimal_c x = true) ds).

(** No decimal digit of the table is a whitespace character. *)
Definition digits_not_blank : Prop :=
  forall c, decimal_beyond_ascii c = true -> isspace c = false.

(** The trimmed matches of the bibliography pattern in [d]. *)
Definition citations (d : str) : list str :=
  map (fun m => strip (group0 d m)) (finditer BIBLIO_RE d).

Definition well_referenced (e : Entry) : Prop :=
  StronglySorted str_lt (references_raw e)
  /\ NoDup (references_raw e)
  /\ (forall r, In r (references_raw e) <-> In r (citations (description e))).

Definition cites_its_text (e : Entry) : Prop :=
  forall r, In r (references_raw e) ->
            citation_shaped r /\ exists pre post, description e = pre ++ r ++ post.
End ReferenceReadings.

(** *** Readings for the store *)

(** The characters a sigil file name is made of. *)
Definition filename_safe {U : UnicodeDB} (c : char) : bool :=
  isalnum_c c || (c =? 95) || (c =? ch "-") || (c =? ch ".") || (c =? ch " ").

(** *** Readings for the metadata records *)

Section RecordReadings.
Context {U : UnicodeDB}.
Context {D : Doubles}.

(** A box the test of line 547 lets through: within the page, its width
    at most half that of the page and its height at most 50, widths and
    heights being differences taken in doubles. *)
Definition within_limits (p : PlumberPage) (box : bbox) : Prop :=
  let '(bx0, by0, bx1, by1) := box in
  (0 <= bx0 /\ 0 <= by0 /\ bx1 <= width p /\ by1 <= height p
   /\ fl (bx1 - bx0) <= fl (width p / 2)
   /\ fl (by1 - by0) <= 50)%Q.

(** A record of the vector strategy: the padded box of a candidate
    character of the page, within the limits of line 547. *)
Definition vector_record (p : PlumberPage) (m : SigilMetadata) : Prop :=
  exists c, In c (chars p)
    /\ vector_candidate (text c) = true
    /\ source_text m = text c
    /\ bounding_box_pdf_coords m = padded_box c
    /\ within_limits p (padded_box c).

(** A record of the raster strategy: the pixel box of a token of the
    table, brought back to page coordinates. *)
Definition raster_record (data : list OcrRow) (m : SigilMetadata) : Prop :=
  exists row t, In row data
    /\ (-1 < conf row)%Q
    /\ o_text row = Some t
    /\ source_text m = strip t
    /\ raster_candidate (strip t) = true
    /\ re_search BIBLIO_RE (strip t) = None
    /\ bounding_box_pdf_coords m
       = (inject_Z (o_left row) / zoom_x, inject_Z (o_top row) / zoom_y,
          (inject_Z (o_left row) + inject_Z (o_width row)) / zoom_x,
          (inject_Z (o_top row) + inject_Z (o_height row)) / zoom_y)%Q.
End RecordReadings.

(** The records an open entry holds. *)
Definition sigils_of (cur : option OpenEntry) : list SigilMetadata :=
  match cur with Some e => oe_sigils e | None => [] end.

(** *** Readings for the annotations *)

(** Every heading annotation of [l] has the box of an annotation before it,
    or of [seen]. *)
Fixpoint shadowed (seen : list bbox) (l : list VisualElement) : Prop :=
  match l with
  | [] => True
  | v :: l' =>
      (vkind v = heading_v -> existsb (bbox_eqb (rect v)) seen = true)
      /\ shadowed (rect v :: seen) l'
  end.

Definition is_saved (k : vtype) : bool :=
  match k with saved_sigil => true | _ => false end.

(** The rectangle [display_page_image_from_path] draws for an annotation
    (lines 380-385): a pixel box with its extent when the annotation has
    the keys width and height, a page box scaled by the zoom otherwise. *)
Definition overlay_rect (v : VisualElement) : bbox :=
  let '(a, b, c, d) := rect v in
  match wh v with
  | Some _ => (a, b, a + c, b + d)%Q
  | None => (a * zoom_x, b * zoom_y, c * zoom_x, d * zoom_y)%Q
  end.

(** Lines 52-59 and 386. *)
Inductive colour := blue | green | purple | red | orange | gray.

Definition OVERLAY_COLORS (k : vtype) : colour :=
  match k with
  | heading_v => blue
  | text_block => green
  | biblio_ref => purple
  | potential_symbol => red
  | saved_sigil => orange
  end.

(** The rectangles drawn over the page, lines 376-387; every annotation
    type is a key of the colour table. *)
Definition overlay (visual_elements : list VisualElement) : list (bbox * colour) :=
  map (fun element => (overlay_rect element, OVERLAY_COLORS (vkind element)))
      visual_elements.

(** A box of the rendered page, in page coordinates. *)
Definition to_page (r : bbox) : bbox :=
  let '(a, b, c, d) := r in (a / zoom_x, b / zoom_y, c / zoom_x, d / zoom_y)%Q.

(** A row the token loop does not skip (line 495). *)
Definition readable {U : UnicodeDB} (r : OcrRow) : bool :=
  match o_text r, row_text r with
  | Some _, _ :: _ => true
  | _, _ => false
  end.

Definition pixel_box (r : OcrRow) : bbox :=
  (inject_Z (o_left r), inject_Z (o_top r), inject_Z (o_width r), inject_Z (o_height r)).

(** All the records of a list of entries, in order. *)
Definition records (l : list Entry) : list SigilMetadata :=
  flat_map sigils_metadata l.

(** A box of the page on the rendered page (line 385). *)
Definition on_screen (r : bbox) : bbox :=
  let '(a, b, c, d) := r in (a * zoom_x, b * zoom_y, c * zoom_x, d * zoom_y)%Q.

Section OutlineReadings.
Context {D : Doubles}.

(** The record [m] was cut around the character [c]. *)
Definition cut_around (c : pobj) (m : SigilMetadata) : Prop :=
  source_text m = text c /\ bounding_box_pdf_coords m = padded_box c.

(** Every record of [ms] was cut around a character of [cs] that has an
    annotation of [ves] at its own box. *)
Definition outlined (cs : list pobj) (ms : list SigilMetadata)
           (ves : list VisualElement) : Prop :=
  forall m, In m ms ->
    exists c v, In c cs /\ cut_around c m
                /\ In v ves /\ bbox_eqb (obj_box c) (rect v) = true.
End OutlineReadings.

(** Every record of every entry of [l] satisfies [P]. *)
Definition records_ok (P : SigilMetadata -> Prop) (l : list Entry) : Prop :=
  forall e m, In e l -> In m (sigils_metadata e) -> P m.

(** A page with one entry and one glyph, and what the vector strategy
    makes of it. *)
Definition glyph_page : PlumberPage :=
  {| chars := [demo_char]; page_text := lit "SOL Sym. The sun."; lines := [];
     words := []; width := 500; height := 700; pp_number := 1 |}.

Definition glyph_record : SigilMetadata :=
  {| image_path := lit "extracted_sigil_images/sigil_SOL_p1_id1.png";
     parent_entry_heading := lit "SOL"; sm_page_number := 1;
     source_text := lit "+";
     bounding_box_pdf_coords := (9, 9, 13, 13)%Q;
     extraction_method := Direct |}.

Definition glyph_entry : Entry :=
  {| heading := lit "SOL"; class := lit "Sym."; sigils_metadata := [glyph_record];
     description := lit "The sun."; references_raw := []; page_number := 1 |}.

(** *** Readings for the scan *)

Section ScanReadings.
Context {U : UnicodeDB}.
Context {D : Doubles}.
Variable use_ocr : bool.

(** The page number the entries of a page carry. *)
Definition page_label (ip : Z * PageInput) : Z :=
  if use_ocr then (fst ip + 1)%Z else pp_number (plumber (snd ip)).

(** The lines of a page as the chosen strategy reads them; a page whose
    OCR fails has none. *)
Definition page_lines (ip : Z * PageInput) : list str :=
  if use_ocr then
    match ocr (snd ip) with
    | Some data => ocr_lines (filter (fun r => Qltb (-1) (conf r)) data)
    | None => []
    end
  else split_on 10 (page_text (plumber (snd ip))).

(** The entries of a page, glyphs apart. *)
Definition page_entries (ip : Z * PageInput) : list Entry :=
  segment_page (page_label ip) (page_lines ip).
End ScanReadings.

(** *** Readings for the search *)

(** The two matches of the drawing hashed 0 against the images hashed 3
    and 1. *)
Definition two_matches : list MatchResult :=
  [ {| distance := 1; sigil_meta := sigil_at "b.png";
       parent_entry := sol_entry [sigil_at "a.png"; sigil_at "b.png"] |};
    {| distance := 2; sigil_meta := sigil_at "a.png";
       parent_entry := sol_entry [sigil_at "a.png"; sigil_at "b.png"] |} ].

(** A canvas of a single colour: one pixel at least, and all alike. *)
Definition one_colour (im : Image) : Prop :=
  exists c n, pixels im = repeat c (S n).

(** ** Data query (lines 577-593) *)

Inductive query_outcome :=
| NoData                                         (* info box: load scanned data first *)
| Displayed (shown : list Entry) (logged : option (str * nat)).

Section DataQuery.
(** [str.lower], which is not a character-wise map on all of Unicode. *)
Variable lower : str -> str.

(** [search_term in field.lower()] *)
Definition term_in (search_term field : str) : bool :=
  contains (lower field) search_term.

(** The test of lines 583-590. *)
Definition entry_matches (search_term : str) (entry : Entry) : bool :=
  term_in search_term (heading entry)
  || term_in search_term (class entry)
  || term_in search_term (description entry)
  || existsb (term_in search_term) (references_raw entry)
  || existsb (fun sigil_meta => term_in search_term (source_text sigil_meta))
             (sigils_metadata entry).

Definition perform_query_search (scanned_data : list Entry) (query : str)
  : query_outcome :=
  match scanned_data with
  | [] => NoData
  | _ =>
      let search_term := strip (lower query) in
      match search_term with
      | [] => Displayed scanned_data None
      | _ =>
          let filtered_data := filter (entry_matches search_term) scanned_data in
          Displayed filtered_data (Some (search_term, length filtered_data))
      end
  end.

(** The texts of an entry a query looks into. *)
Definition fields (e : Entry) : list str :=
  heading e :: class e :: description e
    :: references_raw e ++ map source_text (sigils_metadata e).

Definition shown_by (scanned_data : list Entry) (query : str) : list Entry :=
  match perform_query_search scanned_data query with
  | NoData => []
  | Displayed shown _ => shown
  end.

(** One of the texts of [e], lowercased, contains [term]. *)
Definition found_in (term : str) (e : Entry) : bool :=
  existsb (fun f => contains (lower f) term) (fields e).
End DataQuery.

(** ** Sketch canvas (lines 627-644) *)

Definition point := (Z * Z)%type.
Definition segment := (point * point)%type.

(** The pointer position remembered between two motion events, the lines
    on the visible canvas, and the lines drawn on the hidden image since it
    was last blank. *)
Record Sketch := {
  draw_last : option point;
  canvas_items : list segment;
  pil_lines : list segment
}.

(** Truth value of an integer. *)
Definition truthy (z : Z) : bool := negb (z =? 0)%Z.

(** The test of line 628 on the remembered position. *)
Definition pen_down (last : option point) : option point :=
  match last with
  | Some (lx, ly) => if truthy lx && truthy ly then Some (lx, ly) else None
  | None => None
  end.

Definition paint_on_draw_canvas (s : Sketch) (event : point) : Sketch :=
  match pen_down (draw_last s) with
  | Some from =>
      {| draw_last := Some event;
         canvas_items := canvas_items s ++ [(from, event)];
         pil_lines := pil_lines s ++ [(from, event)] |}
  | None =>
      {| draw_last := Some event;
         canvas_items := canvas_items s; pil_lines := pil_lines s |}
  end.

Definition reset_draw_canvas_pos (s : Sketch) : Sketch :=
  {| draw_last := None; canvas_items := canvas_items s; pil_lines := pil_lines s |}.

(** Line 640 deletes every item of the canvas; the rectangle of line 641
    covers the whole hidden image. *)
Definition clear_drawing_canvas (s : Sketch) : Sketch :=
  {| draw_last := draw_last s; canvas_items := []; pil_lines := [] |}.

(** The bindings of lines 201-202 and the button of line 205. *)
Inductive sketch_event :=
| Motion (p : point)
| Release
| ClearButton.

Definition sketch_step (s : Sketch) (ev : sketch_event) : Sketch :=
  match ev with
  | Motion p => paint_on_draw_canvas s p
  | Release => reset_draw_canvas_pos s
  | ClearButton => clear_drawing_canvas s
  end.

(** Lines 81-83. *)
Definition new_sketch : Sketch :=
  {| draw_last := None; canvas_items := []; pil_lines := [] |}.

(** The segments joining each point of a stroke to the next. *)
Definition polyline (ms : list point) : list segment := combine ms (tl ms).

Definition off_axes (p : point) : bool := truthy (fst p) && truthy (snd p).

(** ** Choosing a document (lines 325-358) *)

Definition DEFAULT_PDF_NAME : str :=
  lit "Dictionary-of-Occult-Hermetic-Alchemical-Sigils-Symbols-Fred-Gettings-1981.pdf".

(** [s.endswith(suffix)] *)
Definition endswith (s suffix : str) : bool := prefixb (rev suffix) (rev s).

Inductive chooser_log :=
| InfoSelectedFolder (folder : str)
| InfoCancelled
| WarnNoPdf
| ErrListing
| InfoSelectedPdf (name : str)
| ErrNoFolder.

(** The folder variable, the items of the list box and its selection, the
    path of the selected document, the document whose first page was last
    sent to the preview, and the log. *)
Record Chooser := {
  pdf_folder_path : str;
  pdf_listbox : list str;
  curselection : option nat;
  selected_pdf_path : str;
  previewed : option str;
  chooser_logs : list chooser_log
}.

Section Choosing.
Variable lower : str -> str.
(** [os.path.join] and [os.listdir]; the latter may raise. *)
Variable os_path_join : str -> str -> str.
Variable listdir : str -> option (list str).

Definition chooser_log_add (s : Chooser) (l : chooser_log) : Chooser :=
  {| pdf_folder_path := pdf_folder_path s; pdf_listbox := pdf_listbox s;
     curselection := curselection s; selected_pdf_path := selected_pdf_path s;
     previewed := previewed s; chooser_logs := chooser_logs s ++ [l] |}.

(** Lines 348-358. *)
Definition on_pdf_select (s : Chooser) : Chooser :=
  match curselection s with
  | Some i =>
      let selected_pdf_name := nth i (pdf_listbox s) [] in
      match pdf_folder_path s with
      | [] => chooser_log_add s ErrNoFolder
      | folder =>
          let path := os_path_join folder selected_pdf_name in
          {| pdf_folder_path := pdf_folder_path s; pdf_listbox := pdf_listbox s;
             curselection := curselection s; selected_pdf_path := path;
             previewed := Some path;
             chooser_logs := chooser_logs s ++ [InfoSelectedPdf selected_pdf_name] |}
      end
  | None =>
      {| pdf_folder_path := pdf_folder_path s; pdf_listbox := pdf_listbox s;
         curselection := None; selected_pdf_path := [];
         previewed := previewed s; chooser_logs := chooser_logs s |}
  end.

(** The loop of lines 339-342: the index of the last file called
    [DEFAULT_PDF_NAME]. *)
Definition default_pdf_index (pdf_files : list str) : option nat :=
  fold_left (fun acc ip => if str_eqb (snd ip) DEFAULT_PDF_NAME then Some (fst ip) else acc)
            (combine (seq 0 (length pdf_files)) pdf_files) None.

(** Lines 334-346; emptying the list box drops its selection. *)
Definition populate_pdf_listbox (s : Chooser) (folder_path : str) : Chooser :=
  let s0 := {| pdf_folder_path := pdf_folder_path s; pdf_listbox := [];
               curselection := None; selected_pdf_path := selected_pdf_path s;
               previewed := previewed s; chooser_logs := chooser_logs s |} in
  match listdir folder_path with
  | None => chooser_log_add s0 ErrListing
  | Some files =>
      let pdf_files := filter (fun f => endswith (lower f) (lit ".pdf")) files in
      match pdf_files with
      | [] => chooser_log_add s0 WarnNoPdf
      | _ =>
          let sel := match default_pdf_index pdf_files with
                     | Some i => i
                     | None => 0%nat
                     end in
          on_pdf_select
            {| pdf_folder_path := pdf_folder_path s; pdf_listbox := pdf_files;
               curselection := Some sel; selected_pdf_path := selected_pdf_path s;
               previewed := previewed s; chooser_logs := chooser_logs s |}
      end
  end.

(** Lines 325-332; an empty answer is a cancelled dialog. *)
Definition select_folder (s : Chooser) (folder_selected : str) : Chooser :=
  match folder_selected with
  | [] => chooser_log_add s InfoCancelled
  | _ =>
      populate_pdf_listbox
        {| pdf_folder_path := folder_selected; pdf_listbox := pdf_listbox s;
           curselection := curselection s; selected_pdf_path := selected_pdf_path s;
           previewed := previewed s;
           chooser_logs := chooser_logs s ++ [InfoSelectedFolder folder_selected] |}
        folder_selected
  end.
End Choosing.

(** A chooser at start, and a folder with a text file and two documents. *)
Definition new_chooser : Chooser :=
  {| pdf_folder_path := []; pdf_listbox := []; curselection := None;
     selected_pdf_path := []; previewed := None; chooser_logs := [] |}.

Definition two_books (folder : str) : option (list str) :=
  Some [lit "notes.txt"; lit "b.pdf"; DEFAULT_PDF_NAME].

(** ** Mouse wheel (lines 235-242) *)

Inductive os_name := Nt | Posix.

(** The number of units handed to [yview_scroll]; [//] is floor division. *)
Definition _on_mousewheel (os : os_name) (delta num : Z) : Z :=
  match os with
  | Nt => (-1 * (delta / 120))%Z
  | Posix => if (num =? 4)%Z then (-1)%Z else if (num =? 5)%Z then 1%Z else 0%Z
  end.

(** The dataset of the scan of the page with three glyphs. *)
Definition three_glyph_data : list Entry :=
  match snd (run_scan gap_env true three_glyph_doc 0 0 scan0) with
  | Some data => data
  | None => []
  end.

(** *** Readings for the types of the raster annotations *)

Inductive token_kind := KHeading | KCitation | KGlyph | KText.

Definition kind_class (k : vtype) : token_kind :=
  match k with
  | heading_v => KHeading
  | biblio_ref => KCitation
  | potential_symbol | saved_sigil => KGlyph
  | text_block => KText
  end.

(** The type of a token on a page with these headings. *)
Definition token_class {U : UnicodeDB} (headings : list str) (txt : str) : token_kind :=
  if existsb (fun h => contains h txt) headings then KHeading
  else match re_search BIBLIO_RE txt with
       | Some _ => KCitation
       | None => if raster_candidate txt then KGlyph else KText
       end.

(** *** Readings for two runs of a scan *)

(** Two runs, from [a] to [a'] and from [b] to [b'], have tried to write
    files of the same names and stand at the same counter. *)
Definition in_step (a a' b b' : Scan) : Prop :=
  sigil_counter a' = sigil_counter b'
  /\ exists names, attempted a' = attempted a ++ names
                   /\ attempted b' = attempted b ++ names.

(** * Verification *)

(** ** The matching engine *)

Section EngineFacts.
Context {U : UnicodeDB}.
Context {D : Doubles}.
Variable R : Type.

Lemma rep_greedy_sound cl : forall n lo i s (k : nat -> str -> option R) x,
  rep_greedy cl lo n i s k = Some x ->
  exists u v, s = u ++ v /\ (lo <= length u <= n)%nat /\ all_in cl u
              /\ k (i + length u)%nat v = Some x.
Proof.
  induction n as [|n IH]; intros lo i s k x H.
  - exists [], s. destruct lo, s; simpl in H; try discriminate;
      rewrite Nat.add_0_r; repeat split; auto; constructor.
  - assert (Hstop : match lo with O => k i s | S _ => None end = Some x ->
                    exists u v, s = u ++ v /\ (lo <= length u <= S n)%nat /\ all_in cl u
                                /\ k (i + length u)%nat v = Some x).
    { intros E. exists [], s. destruct lo; try discriminate.
      rewrite Nat.add_0_r. repeat split; simpl; auto; try lia. constructor. }
    destruct s as [|c s']; simpl in H; [now apply Hstop|].
    destruct (cls_match cl c) eqn:Hc; [|now apply Hstop].
    destruct (rep_greedy cl (pred lo) n (S i) s' k) as [y|] eqn:E; [|now apply Hstop].
    injection H as ->.
    destruct (IH _ _ _ _ _ E) as (u & v & -> & Hlen & Hall & Hk).
    exists (c :: u), v. simpl. rewrite Nat.add_succ_r.
    repeat split; auto; try lia. constructor; auto.
Qed.

Lemma rep_greedy_complete cl : forall u lo n i v (k : nat -> str -> option R),
  all_in cl u -> (lo <= length u <= n)%nat -> k (i + length u)%nat v <> None ->
  rep_greedy cl lo n i (u ++ v) k <> None.
Proof.
  induction u as [|c u IH]; intros lo n i v k Hall Hlen Hk.
  - simpl in *. rewrite Nat.add_0_r in Hk. assert (lo = 0%nat) as -> by lia.
    destruct n, v; simpl; auto.
    destruct (cls_match cl c); auto.
    destruct (rep_greedy cl 0 n (S i) v k); auto. discriminate.
  - simpl in *. destruct n as [|n]; [lia|]. simpl.
    inversion Hall; subst. rewrite H1.
    rewrite Nat.add_succ_r in Hk.
    specialize (IH (pred lo) n (S i) v k H2).
    destruct (rep_greedy cl (pred lo) n (S i) (u ++ v) k); [discriminate|].
    exfalso. apply IH; auto. lia.
Qed.

Lemma rep_lazy_sound cl : forall n lo i s (k : nat -> str -> option R) x,
  rep_lazy cl lo n i s k = Some x ->
  exists u v, s = u ++ v /\ (lo <= length u <= n)%nat /\ all_in cl u
              /\ k (i + length u)%nat v = Some x
              /\ (forall u' v', s = u' ++ v' -> (lo <= length u' < length u)%nat ->
                                k (i + length u')%nat v' = None).
Proof.
  induction n as [|n IH]; intros lo i s k x H.
  - destruct lo; simpl in H.
    + destruct (k i s) eqn:E; [|destruct s; discriminate].
      exists [], s. rewrite Nat.add_0_r. injection H as ->.
      repeat split; simpl; auto; try lia. constructor.
    + destruct s; discriminate.
  - assert (Hmore : (lo = 0%nat -> k i s = None) ->
             match s with
             | c :: s' => if cls_match cl c then rep_lazy cl (pred lo) n (S i) s' k else None
             | [] => None
             end = Some x ->
             exists u v, s = u ++ v /\ (lo <= length u <= S n)%nat /\ all_in cl u
              /\ k (i + length u)%nat v = Some x
              /\ (forall u' v', s = u' ++ v' -> (lo <= length u' < length u)%nat ->
                                k (i + length u')%nat v' = None)).
    { intros H0 E. destruct s as [|c s']; [discriminate|].
      destruct (cls_match cl c) eqn:Hc; [|discriminate].
      destruct (IH _ _ _ _ _ E) as (u & v & -> & Hlen & Hall & Hk & Hmin).
      exists (c :: u), v. simpl. rewrite Nat.add_succ_r.
      repeat split; auto; try lia. constructor; auto.
      intros u' v' Hs Hl. destruct u' as [|c' u'].
      - simpl in *. rewrite Nat.add_0_r. subst v'. apply H0. lia.
      - simpl in *. injection Hs as -> Hs. rewrite Nat.add_succ_r.
        apply Hmin; auto. lia. }
    destruct lo; simpl in H.
    + destruct (k i s) eqn:E.
      * exists [], s. rewrite Nat.add_0_r. injection H as ->.
        repeat split; simpl; auto; try lia. constructor.
      * apply Hmore; auto.
    + apply Hmore; auto. discriminate.
Qed.

Lemma rep_lazy_complete cl : forall u lo n i v (k : nat -> str -> option R),
  all_in cl u -> (lo <= length u <= n)%nat -> k (i + length u)%nat v <> None ->
  rep_lazy cl lo n i (u ++ v) k <> None.
Proof.
  induction u as [|c u IH]; intros lo n i v k Hall Hlen Hk.
  - simpl in *. rewrite Nat.add_0_r in Hk. assert (lo = 0%nat) as -> by lia.
    destruct n; simpl; destruct (k i v); auto; discriminate.
  - simpl in *. destruct n as [|n]; [lia|].
    inversion Hall; subst. rewrite Nat.add_succ_r in Hk.
    specialize (IH (pred lo) n (S i) v k H2).
    assert (rep_lazy cl (pred lo) n (S i) (u ++ v) k <> None) by (apply IH; auto; lia).
    destruct lo; simpl; rewrite H1; auto.
    destruct (k i (c :: u ++ v)); auto. discriminate.
Qed.
End EngineFacts.

Arguments rep_greedy : simpl never.
Arguments rep_lazy : simpl never.

Section HeadingFacts.
Context {U : UnicodeDB}.
Context {D : Doubles}.

Lemma cls_first c :
  cls_match (cset [CRange (ch "A") (ch "Z"); CRange (ch "0") (ch "9")]) c = heading_first c.
Proof. unfold heading_first, ascii_upper, ascii_digit. cbn. now rewrite orb_false_r. Qed.

Lemma cls_more c :
  cls_match (cset [CRange (ch "A") (ch "Z"); CRange (ch "0") (ch "9"); CSpace;
                   CChar (ch "-"); CChar RSQUO; CChar (ch ",")]) c = heading_more c.
Proof.
  unfold heading_more, ascii_upper, ascii_digit. cbn.
  rewrite orb_false_r, !orb_assoc. reflexivity.
Qed.

Lemma cls_space c : cls_match (cset [CSpace]) c = isspace c.
Proof. cbn. now rewrite orb_false_r. Qed.

Lemma cls_upper c : cls_match (cset [CRange (ch "A") (ch "Z")]) c = ascii_upper c.
Proof. cbn. now rewrite orb_false_r. Qed.

Lemma cls_lower c : cls_match (cset [CRange (ch "a") (ch "z")]) c = ascii_lower c.
Proof. cbn. now rewrite orb_false_r. Qed.

Lemma cls_dot c : cls_match (cset [CChar (ch ".")]) c = (c =? ch ".").
Proof. cbn. now rewrite orb_false_r. Qed.

Lemma all_in_ext cl (f : char -> bool) u :
  (forall c, cls_match cl c = f c) ->
  all_in cl u <-> Forall (fun x => f x = true) u.
Proof.
  intros E. unfold all_in. split; intros H; eapply Forall_impl; try exact H;
    intros a; simpl; rewrite E; auto.
Qed.

Lemma heading_match_unfold s :
  re_match HEADING_CLASS_RE s =
  match s with
  | [] => None
  | c :: s' =>
      if heading_first c then
        rep_lazy (cset [CRange (ch "A") (ch "Z"); CRange (ch "0") (ch "9"); CSpace;
                        CChar (ch "-"); CChar RSQUO; CChar (ch ",")])
                 1 (length s') 1 s' heading_tail
      else None
  end.
Proof. destruct s as [|c s']; [reflexivity|]. rewrite <- cls_first. reflexivity. Qed.

Lemma heading_tag_sound i0 i' s m :
  heading_tag i0 i' s = Some m ->
  exists t lows rest,
    s = (t :: lows ++ [ch "."]) ++ rest /\ ascii_upper t = true
    /\ (1 <= length lows <= 3)%nat /\ Forall (fun x => ascii_lower x = true) lows
    /\ m = {| m_start := 0; m_end := (i' + length (t :: lows ++ [ch "."]))%nat;
              m_groups := [(2%nat, (i', (i' + length (t :: lows ++ [ch "."]))%nat));
                           (1%nat, (0%nat, i0))] |}.
Proof.
  unfold heading_tag. destruct s as [|t s2]; [discriminate|].
  rewrite cls_upper. destruct (ascii_upper t) eqn:Ht; [|discriminate].
  intros H. apply rep_greedy_sound in H.
  destruct H as (lows & v & -> & Hlen & Hall & Hk).
  destruct v as [|c1 rest]; [discriminate|].
  rewrite cls_dot in Hk. destruct (c1 =? ch ".") eqn:Hd; [|discriminate].
  apply N.eqb_eq in Hd. subst c1. injection Hk as <-.
  exists t, lows, rest. repeat split; auto; try lia.
  - simpl. now rewrite <- app_assoc.
  - now apply (all_in_ext _ _ _ cls_lower).
  - simpl. rewrite length_app. simpl.
    replace (i' + S (length lows + 1))%nat with (S (S i' + length lows)) by lia.
    reflexivity.
Qed.

Lemma heading_tag_complete i0 i' t lows rest :
  ascii_upper t = true -> (1 <= length lows <= 3)%nat ->
  Forall (fun x => ascii_lower x = true) lows ->
  heading_tag i0 i' ((t :: lows ++ [ch "."]) ++ rest) <> None.
Proof.
  intros Ht Hlen Hall. unfold heading_tag.
  rewrite <- app_comm_cons. cbv beta iota. rewrite cls_upper, Ht.
  rewrite <- app_assoc. apply rep_greedy_complete; auto.
  - now apply (all_in_ext _ _ _ cls_lower).
  - simpl. discriminate.
Qed.

Lemma heading_tail_sound i0 s m :
  heading_tail i0 s = Some m ->
  exists ws g2 rest,
    s = ws ++ g2 ++ rest /\ ws <> [] /\ Forall (fun x => isspace x = true) ws
    /\ (exists t lows, g2 = t :: lows ++ [ch "."] /\ ascii_upper t = true
          /\ (1 <= length lows <= 3)%nat /\ Forall (fun x => ascii_lower x = true) lows)
    /\ m = {| m_start := 0; m_end := (i0 + length ws + length g2)%nat;
              m_groups := [(2%nat, ((i0 + length ws)%nat, (i0 + length ws + length g2)%nat));
                           (1%nat, (0%nat, i0))] |}.
Proof.
  unfold heading_tail. intros H. apply rep_greedy_sound in H.
  destruct H as (ws & v & -> & Hlen & Hall & Hk).
  apply heading_tag_sound in Hk.
  destruct Hk as (t & lows & rest & -> & Ht & Hl & Hlow & ->).
  exists ws, (t :: lows ++ [ch "."]), rest. repeat split; auto.
  - intros ->. simpl in Hlen. lia.
  - now apply (all_in_ext _ _ _ cls_space).
  - exists t, lows. auto.
Qed.

Lemma heading_tail_complete i0 ws g2 rest :
  ws <> [] -> Forall (fun x => isspace x = true) ws ->
  (exists t lows, g2 = t :: lows ++ [ch "."] /\ ascii_upper t = true
     /\ (1 <= length lows <= 3)%nat /\ Forall (fun x => ascii_lower x = true) lows) ->
  heading_tail i0 (ws ++ g2 ++ rest) <> None.
Proof.
  intros Hne Hws (t & lows & -> & Ht & Hl & Hlow). unfold heading_tail.
  apply rep_greedy_complete.
  - now apply (all_in_ext _ _ _ cls_space).
  - rewrite length_app. destruct ws; [congruence|simpl; lia].
  - now apply heading_tag_complete.
Qed.
End HeadingFacts.

Lemma substr_prefix (a b : str) : substr (a ++ b) 0 (length a) = a.
Proof.
  unfold substr. rewrite Nat.sub_0_r. simpl.
  rewrite firstn_app, Nat.sub_diag, firstn_all. simpl. apply List.app_nil_r.
Qed.

Lemma skipn_exact (a b : str) : skipn (length a) (a ++ b) = b.
Proof. rewrite skipn_app, skipn_all, Nat.sub_diag. reflexivity. Qed.

Lemma substr_mid (a b c : str) :
  substr (a ++ b ++ c) (length a) (length a + length b) = b.
Proof.
  unfold substr. rewrite skipn_exact.
  replace (length a + length b - length a)%nat with (length b) by lia.
  rewrite firstn_app, Nat.sub_diag, firstn_all. simpl. apply List.app_nil_r.
Qed.

Section HeadingRule.
Context {U : UnicodeDB}.
Context {D : Doubles}.

Lemma heading_match_sound s m :
  re_match HEADING_CLASS_RE s = Some m ->
  exists g1 ws g2 rest,
    heading_prefix s g1 ws g2 rest
    /\ group s m 1 = g1 /\ group s m 2 = g2 /\ skipn (m_end m) s = rest
    /\ (forall g1' ws' g2' rest',
           heading_prefix s g1' ws' g2' rest' -> (length g1 <= length g1')%nat).
Proof.
  rewrite heading_match_unfold. destruct s as [|c s']; [discriminate|].
  destruct (heading_first c) eqn:Hc; [|discriminate].
  intros H. apply rep_lazy_sound in H.
  destruct H as (u & v & -> & Hlen & Hall & Hk & Hmin).
  apply heading_tail_sound in Hk.
  destruct Hk as (ws & g2 & rest & -> & Hne & Hws & Htag & ->).
  exists (c :: u), ws, g2, rest. split; [|split; [|split; [|split]]].
  - constructor; auto.
    exists c, u. repeat split; auto.
    + intros ->. simpl in Hlen. lia.
    + now apply (all_in_ext _ _ _ cls_more).
  - unfold group. simpl lookup_group. cbv beta iota.
    change (c :: u ++ ws ++ g2 ++ rest) with ((c :: u) ++ ws ++ g2 ++ rest).
    change (1 + length u)%nat with (length (c :: u)). apply substr_prefix.
  - unfold group. simpl lookup_group. cbv beta iota.
    change (c :: u ++ ws ++ g2 ++ rest) with ((c :: u) ++ ws ++ g2 ++ rest).
    change (1 + length u)%nat with (length (c :: u)).
    rewrite (app_assoc (c :: u) ws), <- length_app. apply substr_mid.
  - cbn [m_end].
    change (c :: u ++ ws ++ g2 ++ rest) with ((c :: u) ++ ws ++ g2 ++ rest).
    change (1 + length u)%nat with (length (c :: u)).
    rewrite !app_assoc, <- !length_app. apply skipn_exact.
  - intros g1' ws' g2' rest' [Hl (c' & run' & -> & Hc' & Hr' & Hall') [Hne' Hws'] Htag'].
    destruct (Nat.le_gt_cases (length (c :: u)) (length (c' :: run'))) as [|Hlt]; auto.
    exfalso. simpl in Hl. injection Hl as -> Hl.
    apply (@heading_tail_complete _ (1 + length run') ws' g2' rest'); auto.
    apply Hmin; auto. destruct run'; [congruence|simpl in *; lia].
Qed.

Lemma heading_match_complete s g1 ws g2 rest :
  heading_prefix s g1 ws g2 rest -> re_match HEADING_CLASS_RE s <> None.
Proof.
  intros [-> (c & run & -> & Hc & Hr & Hall) [Hne Hws] Htag].
  rewrite heading_match_unfold. rewrite <- app_comm_cons. rewrite Hc.
  apply rep_lazy_complete.
  - now apply (all_in_ext _ _ _ cls_more).
  - rewrite length_app. destruct run; [congruence|simpl; lia].
  - now apply heading_tail_complete.
Qed.

Lemma segment_lines_one page st raw :
  segment_lines page st [raw] =
  match strip raw with
  | [] => st
  | line => segment_line page st line
  end.
Proof.
  unfold segment_lines, parsed_lines. simpl.
  destruct (strip raw); reflexivity.
Qed.
End HeadingRule.

(** ** The entry segmenter *)

Section SegmenterFacts.
Context {U : UnicodeDB}.
Context {D : Doubles}.

Lemma no_prefix_of_nil g1 ws g2 rest : ~ heading_prefix [] g1 ws g2 rest.
Proof.
  intros [Hl (c & run & -> & _) _ _]. discriminate.
Qed.

Lemma open_entry_fresh page line m g1 g2 rest :
  group line m 1 = g1 -> group line m 2 = g2 -> skipn (m_end m) line = rest ->
  open_entry page line m = fresh_entry page g1 g2 rest.
Proof.
  intros <- <- <-. unfold open_entry, fresh_entry. f_equal.
  destruct (strip (skipn (m_end m) line)); reflexivity.
Qed.

(** C1 (as the code has it).  A line, once trimmed, opens a new entry
    exactly when it starts with: one uppercase letter or digit; a shortest
    non-empty run of uppercase letters, digits, whitespace, hyphen, comma
    or U+2019 (the ASCII apostrophe is not one of them); whitespace; and a tag
    made of an uppercase letter, one to three lowercase letters and a full
    stop.  The entry's heading is the first group trimmed, its class the
    tag.  Any other line leaves the list of entries alone and is at most
    added to the description of the open entry. *)
Theorem heading_rule (page : Z) (st : list Entry * option OpenEntry) (raw : str) :
  let line := strip raw in
  heading_more RSQUO = true /\ heading_more (ch "'") = false /\
  ((exists g1 ws g2 rest,
       heading_prefix line g1 ws g2 rest
       /\ (forall g1' ws' g2' rest',
              heading_prefix line g1' ws' g2' rest' -> (length g1 <= length g1')%nat)
       /\ segment_lines page st [raw]
          = (close_current (fst st) (snd st), Some (fresh_entry page g1 g2 rest)))
   \/ ((forall g1 ws g2 rest, ~ heading_prefix line g1 ws g2 rest)
       /\ segment_lines page st [raw]
          = (fst st, match line with
                     | [] => snd st
                     | _ => option_map (fun e => add_part e line) (snd st)
                     end))).
Proof.
  intros line. split; [reflexivity|]. split; [reflexivity|].
  rewrite segment_lines_one. subst line. destruct st as [entries cur].
  destruct (strip raw) as [|c l] eqn:E.
  - right. split; [intros; apply no_prefix_of_nil | reflexivity].
  - unfold segment_line.
    destruct (re_match HEADING_CLASS_RE (c :: l)) as [m|] eqn:Em.
    + left. destruct (heading_match_sound _ Em)
        as (g1 & ws & g2 & rest & Hp & H1 & H2 & H3 & Hmin).
      exists g1, ws, g2, rest. split; [exact Hp|]. split; [exact Hmin|].
      cbn [fst snd]. now rewrite (open_entry_fresh page _ _ H1 H2 H3).
    + right. split.
      * intros g1 ws g2 rest Hp. now apply heading_match_complete in Hp.
      * destruct cur; reflexivity.
Qed.
End SegmenterFacts.

(** C1 as stated fails: a heading written with the ASCII apostrophe matches
    the pattern of the specification and opens no entry. *)
Lemma heading_rule_ascii_apostrophe :
  re_match HEADING_CLASS_RE_spec (lit "O'NEIL Sym. An Irish name") <> None
  /\ segment_page 1 [lit "O'NEIL Sym. An Irish name"] = [].
Proof. split; [vm_compute; discriminate | vm_compute; reflexivity]. Qed.

(** ** Geometry of the vector strategy *)

Lemma Qltb_lt (a b : Q) : Qltb a b = true <-> (a < b)%Q.
Proof.
  unfold Qltb. rewrite negb_true_iff. split.
  - intros H. apply Qnot_le_lt. intros Hle. apply Qle_bool_iff in Hle. congruence.
  - intros H. destruct (Qle_bool b a) eqn:E; auto.
    apply Qle_bool_iff in E. exfalso. now apply (Qlt_not_le a b).
Qed.

Lemma save_counter {U : UnicodeDB} env st fitz box h pg :
  sigil_counter (snd (_save_sigil_image env st fitz box h pg)) = sigil_counter st + 1.
Proof.
  unfold _save_sigil_image.
  destruct (get_pixmap env _ fitz box); simpl; auto.
  destruct ((pw =? 0)%Z || (ph =? 0)%Z); simpl; auto.
  destruct (pix_save env _ _); reflexivity.
Qed.

Lemma Qltb_ge (a b : Q) : Qltb a b = false <-> (b <= a)%Q.
Proof.
  unfold Qltb. rewrite negb_false_iff. apply Qle_bool_iff.
Qed.

(** [max(0, d)] against a bound that is not negative. *)
Lemma Qmax0_above (h d : Q) :
  (0 <= h)%Q -> Qltb h (Qmax0 d) = true <-> (h < d)%Q.
Proof.
  intros Hh. unfold Qmax0. destruct (Qltb 0 d) eqn:E.
  - apply Qltb_lt.
  - apply Qltb_ge in E. rewrite Qltb_lt. split; intros H; exfalso.
    + apply (Qlt_not_le _ _ H Hh).
    + apply (Qlt_not_le h d H). now apply Qle_trans with 0%Q.
Qed.

Lemma Qred_inject_Z (z : Z) : Qred (inject_Z z) = inject_Z z.
Proof.
  unfold Qred, inject_Z.
  pose proof (Z.ggcd_gcd z 1) as Hg.
  pose proof (Z.ggcd_correct_divisors z 1) as Hd.
  destruct (Z.ggcd z 1) as [g [aa bb]]. cbn [fst snd] in *.
  rewrite Z.gcd_1_r in Hg. subst g. destruct Hd as [Ha Hb].
  rewrite Z.mul_1_l in Ha, Hb. subst aa bb. reflexivity.
Qed.

(** The arithmetic of the examples is exact on the integers. *)
Lemma exact_doubles_on_integers : exact_on_integers.
Proof.
  intros q z Hq _. cbn [fl exact_doubles].
  rewrite (Qred_complete q (inject_Z z) Hq). apply Qred_inject_Z.
Qed.

Section VectorGeometry.
Context {U : UnicodeDB}.
Context {D : Doubles}.
Variable env : Renderer.

Lemma pad_box c : rect_tuple (pad (char_rect c)) = padded_box c.
Proof. reflexivity. Qed.

Lemma rejects_spec p c :
  (0 <= fl (width p / 2))%Q ->
  rejects p (pad (char_rect c)) = true <-> out_of_bounds p (padded_box c).
Proof.
  intros Hw. unfold rejects, out_of_bounds, padded_box, rect_width, rect_height.
  unfold pad, char_rect, padding. cbn [rx0 ry0 rx1 ry1].
  rewrite !orb_true_iff, (Qmax0_above _ Hw).
  rewrite (@Qmax0_above 50 _) by discriminate.
  rewrite !Qltb_lt. tauto.
Qed.

Lemma plumber_char_candidate p fitz sc e ves c :
  vector_candidate (text c) = true ->
  plumber_char env p fitz (sc, Some e, ves) c =
  let padded := pad {| rx0 := x0 c; ry0 := top c; rx1 := x1 c; ry1 := bottom c |} in
  if rejects p padded then (sc, Some e, ves)
  else store_glyph env p fitz sc e ves c (rect_tuple padded).
Proof.
  intros Hc. unfold plumber_char, store_glyph. rewrite Hc. cbv zeta.
  destruct (rejects p _); [reflexivity|].
  destruct (_save_sigil_image _ _ _ _ _ _) as [[img|] sc']; reflexivity.
Qed.

Lemma plumber_char_closed p fitz sc ves c :
  plumber_char env p fitz (sc, None, ves) c = (sc, None, ves).
Proof.
  unfold plumber_char. now destruct (vector_candidate (text c)).
Qed.

Lemma store_glyph_counter p fitz sc e ves c box :
  sigil_counter (fst (fst (store_glyph env p fitz sc e ves c box))) = sigil_counter sc + 1.
Proof.
  unfold store_glyph.
  pose proof (save_counter env sc fitz box (oe_heading e) (pp_number p)) as H.
  destruct (_save_sigil_image _ _ _ _ _ _) as [[img|] sc']; simpl in *; exact H.
Qed.

(** C5 (as the code has it).  A candidate character met while no entry
    is open is dropped whatever its box.  While an entry is open, its
    box is padded by 1 on each side, each of the four operations being
    one on doubles, and on a page whose half width is not negative the
    candidate leaves no trace at all (no save attempt, no file, no
    metadata, no annotation) exactly when the padded box sticks out of
    the page, or is wider than half the page, or higher than 50, width
    and height being the differences of its sides in doubles; otherwise
    the crop of the padded box is requested from the store.  Where the
    integers up to 2^53 are exact, a character with box (10,10,12,12) on
    a 500 by 700 page is accepted with box (9,9,13,13); a padded height
    of 60 is rejected. *)
Theorem vector_geometry (p : PlumberPage) (fitz_page : Z) (sc : Scan)
        (cur : option OpenEntry) (ves : list VisualElement) (c : pobj) :
  vector_candidate (text c) = true ->
  (0 <= fl (width p / 2))%Q ->
  let box := (fl (x0 c - 1), fl (top c - 1), fl (x1 c + 1), fl (bottom c + 1))%Q in
  let st := (sc, cur, ves) in
  match cur with
  | None => plumber_char env p fitz_page st c = st
  | Some e =>
      (plumber_char env p fitz_page st c = st <-> out_of_bounds p box)
      /\ (~ out_of_bounds p box ->
          plumber_char env p fitz_page st c
          = store_glyph env p fitz_page sc e ves c box)
      /\ (exact_on_integers ->
          obj_box c = (10, 10, 12, 12)%Q -> width p = 500%Q -> height p = 700%Q ->
          plumber_char env p fitz_page st c
          = store_glyph env p fitz_page sc e ves c (9, 9, 13, 13)%Q)
      /\ (fl (fl (bottom c + 1) - fl (top c - 1)) == 60 ->
          plumber_char env p fitz_page st c = st
          /\ written (fst (fst (plumber_char env p fitz_page st c))) = written sc
          /\ snd (fst (plumber_char env p fitz_page st c)) = Some e)
  end.
Proof.
  intros Hc Hw box st. subst st.
  destruct cur as [e|]; [|apply plumber_char_closed].
  pose proof (plumber_char_candidate p fitz_page sc e ves c Hc) as E.
  cbv zeta in E. fold (char_rect c) in E. rewrite pad_box in E.
  fold box in E. change (padded_box c) with box in E.
  pose proof (rejects_spec p c Hw) as R. change (padded_box c) with box in R.
  set (st := (sc, Some e, ves)) in *.
  assert (Hiff : plumber_char env p fitz_page st c = st <-> out_of_bounds p box).
  { rewrite E, <- R.
    destruct (rejects p (pad (char_rect c))).
    - split; auto.
    - split; [|discriminate]. intros H. exfalso.
      pose proof (store_glyph_counter p fitz_page sc e ves c box) as Hn.
      rewrite H in Hn. simpl in Hn. lia. }
  split; [exact Hiff|]. split; [|split].
  - intros Hn. rewrite E.
    destruct (rejects p (pad (char_rect c))) eqn:Rj; auto.
    exfalso. apply Hn. now apply R.
  - intros Hex Hb Hpw Hph.
    unfold obj_box in Hb. injection Hb as Hx0 Ht Hx1 Hbt.
    assert (Hbox : box = (9, 9, 13, 13)%Q).
    { unfold box. rewrite Hx0, Ht, Hx1, Hbt.
      rewrite (Hex (10 - 1)%Q 9%Z), (Hex (12 + 1)%Q 13%Z);
        try reflexivity; apply Z.leb_le; reflexivity. }
    rewrite <- Hbox. rewrite E.
    destruct (rejects p (pad (char_rect c))) eqn:Rj; [exfalso|reflexivity].
    assert (Ho : out_of_bounds p box) by (now apply R).
    unfold out_of_bounds in Ho. rewrite Hbox, Hpw, Hph in Ho.
    rewrite (Hex (500 / 2)%Q 250%Z), (Hex (13 - 9)%Q 4%Z) in Ho;
      try reflexivity; try (apply Z.leb_le; reflexivity).
    destruct Ho as [H|[H|[H|[H|[H|H]]]]]; vm_compute in H; discriminate H.
  - intros H60.
    assert (Hr : plumber_char env p fitz_page st c = st).
    { apply Hiff. unfold out_of_bounds, box. do 5 right. rewrite H60. reflexivity. }
    rewrite Hr. auto.
Qed.
End VectorGeometry.

(** ** Structure of the two strategies *)

Lemma with_sigils_nil e : with_sigils [] e = e.
Proof. destruct e. unfold with_sigils. simpl. now rewrite List.app_nil_r. Qed.

Lemma with_sigils_app ms1 ms2 e :
  with_sigils ms2 (with_sigils ms1 e) = with_sigils (ms1 ++ ms2) e.
Proof. unfold with_sigils. simpl. now rewrite app_assoc. Qed.

Lemma add_sigils_nil e : add_sigils [] e = e.
Proof. destruct e. unfold add_sigils. simpl. now rewrite List.app_nil_r. Qed.

Lemma add_sigils_app ms1 ms2 e :
  add_sigils ms2 (add_sigils ms1 e) = add_sigils (ms1 ++ ms2) e.
Proof. unfold add_sigils. simpl. now rewrite app_assoc. Qed.

Lemma on_last_snoc ms l e : on_last ms (l ++ [e]) = l ++ [add_sigils ms e].
Proof. unfold on_last. rewrite rev_app_distr. simpl. now rewrite rev_involutive. Qed.

Lemma on_last_nil ms : on_last ms [] = [].
Proof. reflexivity. Qed.

Lemma on_last_none l : on_last [] l = l.
Proof.
  destruct l as [|x l] using rev_ind; [reflexivity|].
  now rewrite on_last_snoc, add_sigils_nil.
Qed.

Lemma on_last_app ms1 ms2 l : on_last ms2 (on_last ms1 l) = on_last (ms1 ++ ms2) l.
Proof.
  destruct l as [|x l] using rev_ind; [reflexivity|].
  now rewrite !on_last_snoc, add_sigils_app.
Qed.

Lemma last_entry_snoc l e : last_entry (l ++ [e]) = Some e.
Proof. unfold last_entry. now rewrite rev_app_distr. Qed.

Lemma map_core_on_last ms l : map core (on_last ms l) = map core l.
Proof.
  destruct l as [|x l] using rev_ind; [reflexivity|].
  rewrite on_last_snoc, !map_app. reflexivity.
Qed.

Section SaveFacts.
Context {U : UnicodeDB}.
Context {D : Doubles}.
Variable env : Renderer.

Lemma save_written st fitz box h pg :
  written (snd (_save_sigil_image env st fitz box h pg))
  = written st ++ match fst (_save_sigil_image env st fitz box h pg) with
                  | Some path => [path]
                  | None => []
                  end.
Proof.
  unfold _save_sigil_image.
  destruct (get_pixmap env _ fitz box); simpl; [now rewrite List.app_nil_r|].
  destruct ((pw =? 0)%Z || (ph =? 0)%Z); simpl; [now rewrite List.app_nil_r|].
  destruct (pix_save env _ _); simpl; [reflexivity|now rewrite List.app_nil_r].
Qed.
End SaveFacts.

Section VectorStructure.
Context {U : UnicodeDB}.
Context {D : Doubles}.
Variable env : Renderer.

Lemma segment_lines_cons page st l ls :
  segment_lines page st (l :: ls) = segment_lines page (segment_lines page st [l]) ls.
Proof.
  unfold segment_lines, parsed_lines. simpl.
  destruct (strip l); reflexivity.
Qed.

Lemma segment_lines_nil page st : segment_lines page st [] = st.
Proof. reflexivity. Qed.

Lemma plumber_line_segment p st l :
  vproj (plumber_line p st l) = segment_lines (pp_number p) (vproj st) [l].
Proof.
  rewrite segment_lines_one. destruct st as [[entries ves] cur].
  unfold plumber_line, vproj. cbn [fst snd].
  destruct (strip l) as [|c s]; [reflexivity|].
  destruct (segment_line (pp_number p) (entries, cur) (c :: s)); reflexivity.
Qed.

Lemma plumber_lines_segment p ls : forall st,
  vproj (fold_left (plumber_line p) ls st) = segment_lines (pp_number p) (vproj st) ls.
Proof.
  induction ls as [|l ls IH]; intros st; [reflexivity|].
  cbn [fold_left]. now rewrite IH, plumber_line_segment, <- segment_lines_cons.
Qed.

(** A closed entry list is never non-empty while no entry is open. *)
Lemma segment_line_open page st line :
  (snd st = None -> fst st = []) ->
  snd (segment_line page st line) = None -> fst (segment_line page st line) = [].
Proof.
  destruct st as [entries cur]. unfold segment_line.
  destruct (re_match HEADING_CLASS_RE line); [discriminate|].
  destruct cur; simpl; [discriminate|auto].
Qed.

Lemma segment_lines_open page ls : forall st,
  (snd st = None -> fst st = []) ->
  snd (segment_lines page st ls) = None -> fst (segment_lines page st ls) = [].
Proof.
  unfold segment_lines. induction (parsed_lines ls) as [|l tl IH]; intros st H; [exact H|].
  simpl. apply IH. now apply segment_line_open.
Qed.

Lemma finalize_with_sigils ms e : finalize (with_sigils ms e) = add_sigils ms (finalize e).
Proof. reflexivity. Qed.

(** One character: the open entry gains at most one metadata record, the
    one whose crop was written. *)
Lemma plumber_char_step p fitz sc cur ves c :
  exists ms sc' ves',
    plumber_char env p fitz (sc, cur, ves) c = (sc', option_map (with_sigils ms) cur, ves')
    /\ written sc' = written sc ++ map image_path ms
    /\ attached_to Direct (pp_number p) (option_map oe_heading cur) ms
    /\ (cur = None -> sc' = sc).
Proof.
  assert (Hsame : exists ms sc' ves',
             (sc, cur, ves) = (sc', option_map (with_sigils ms) cur, ves')
             /\ written sc' = written sc ++ map image_path ms
             /\ attached_to Direct (pp_number p) (option_map oe_heading cur) ms
             /\ (cur = None -> sc' = sc)).
  { exists [], sc, ves. repeat split; auto.
    - destruct cur; simpl; [now rewrite with_sigils_nil|reflexivity].
    - simpl. now rewrite List.app_nil_r.
    - constructor. }
  unfold plumber_char. destruct (vector_candidate (text c)); [|exact Hsame].
  destruct cur as [e|]; [|exact Hsame].
  destruct (rejects p _); [exact Hsame|].
  pose proof (save_written env sc fitz
                (rect_tuple (pad {| rx0 := x0 c; ry0 := top c; rx1 := x1 c; ry1 := bottom c |}))
                (oe_heading e) (pp_number p)) as Hw.
  destruct (_save_sigil_image _ _ _ _ _ _) as [[path|] sc']; simpl in Hw.
  - eexists [_], sc', _. repeat split; eauto; try discriminate.
    constructor; [|constructor]. simpl. auto.
  - exists [], sc', (ves ++ [mkve (obj_box c) potential_symbol (text c)]).
    repeat split; auto; try discriminate.
    + simpl. now rewrite with_sigils_nil.
    + constructor.
Qed.

Lemma attached_to_app meth page owner ms1 ms2 :
  attached_to meth page owner ms1 -> attached_to meth page owner ms2 ->
  attached_to meth page owner (ms1 ++ ms2).
Proof. unfold attached_to. intros. apply Forall_app. auto. Qed.

Lemma plumber_char_loop p fitz cs : forall sc cur ves,
  exists ms sc' ves',
    fold_left (plumber_char env p fitz) cs (sc, cur, ves)
    = (sc', option_map (with_sigils ms) cur, ves')
    /\ written sc' = written sc ++ map image_path ms
    /\ attached_to Direct (pp_number p) (option_map oe_heading cur) ms
    /\ (cur = None -> sc' = sc).
Proof.
  induction cs as [|c cs IH]; intros sc cur ves.
  - exists [], sc, ves. repeat split; auto.
    + destruct cur; simpl; [now rewrite with_sigils_nil|reflexivity].
    + simpl. now rewrite List.app_nil_r.
    + constructor.
  - destruct (plumber_char_step p fitz sc cur ves c)
      as (ms1 & sc1 & ves1 & E1 & W1 & A1 & N1).
    destruct (IH sc1 (option_map (with_sigils ms1) cur) ves1)
      as (ms2 & sc2 & ves2 & E2 & W2 & A2 & N2).
    exists (ms1 ++ ms2), sc2, ves2. cbn [fold_left]. rewrite E1, E2.
    repeat split.
    + destruct cur; simpl; [now rewrite with_sigils_app|reflexivity].
    + now rewrite W2, W1, map_app, app_assoc.
    + apply attached_to_app; auto.
      destruct cur; exact A2.
    + intros ->. rewrite N2, N1; auto.
Qed.

(** The entries of a page under the vector strategy: those of the
    segmenter, with every metadata record of the page on the last one. *)
Lemma vector_entries st p fitz :
  let out := _extract_elements_from_plumber_page env st p fitz in
  let segmented := segment_page (pp_number p) (split_on 10 (page_text p)) in
  exists ms,
    fst (fst out) = on_last ms segmented
    /\ written (snd out) = written st ++ map image_path ms
    /\ attached_to Direct (pp_number p) (option_map heading (last_entry segmented)) ms
    /\ (segmented = [] -> snd out = st).
Proof.
  intros out segmented. subst out.
  unfold _extract_elements_from_plumber_page.
  destruct (page_text p) as [|c0 txt] eqn:Etxt.
  - exists []. subst segmented. repeat split; simpl; auto.
    + now rewrite List.app_nil_r.
    + constructor.
  - pose proof (plumber_lines_segment p (split_on 10 (c0 :: txt)) ([], [], None)) as Hseg.
    destruct (fold_left (plumber_line p) _ _) as [[entries ves] cur] eqn:Efold.
    unfold vproj in Hseg. cbn [fst snd] in Hseg.
    destruct (plumber_char_loop p fitz (chars p) st cur ves)
      as (ms & st' & ves' & E & W & A & N).
    rewrite E. cbn [fst snd].
    assert (Hsp : segmented = close_current entries cur).
    { subst segmented. unfold segment_page. now rewrite <- Hseg. }
    assert (Hopen : cur = None -> entries = []).
    { intros Hc.
      pose proof (segment_lines_open (pp_number p) (split_on 10 (c0 :: txt)) ([], None)) as Ho.
      rewrite <- Hseg in Ho. apply Ho; auto. }
    exists ms. rewrite Hsp. destruct cur as [e|]; simpl.
    + repeat split; auto.
      * now rewrite on_last_snoc, finalize_with_sigils.
      * now rewrite last_entry_snoc.
      * intros Hn. destruct entries; discriminate.
    + rewrite (Hopen eq_refl). repeat split; auto.
Qed.
End VectorStructure.

Section RasterStructure.
Context {U : UnicodeDB}.
Context {D : Doubles}.
Variable env : Renderer.

Lemma segment_line_page page st line :
  on_page page (fst st) ->
  (forall e, snd st = Some e -> oe_page e = page) ->
  on_page page (fst (segment_line page st line))
  /\ (forall e, snd (segment_line page st line) = Some e -> oe_page e = page).
Proof.
  destruct st as [entries cur]. simpl. intros He Hc. unfold segment_line.
  destruct (re_match HEADING_CLASS_RE line).
  - simpl. split.
    + destruct cur as [e|]; simpl; auto. apply Forall_app. split; auto.
      constructor; [|constructor]. simpl. auto.
    + intros e [= <-]. reflexivity.
  - destruct cur as [e|]; simpl; split; auto.
    intros e' [= <-]. simpl. auto.
Qed.

Lemma segment_page_on_page page ls : on_page page (segment_page page ls).
Proof.
  unfold segment_page, segment_lines.
  assert (H : forall l st,
             on_page page (fst st) ->
             (forall e, snd st = Some e -> oe_page e = page) ->
             on_page page (fst (fold_left (segment_line page) l st))
             /\ (forall e, snd (fold_left (segment_line page) l st) = Some e -> oe_page e = page)).
  { induction l as [|x l IH]; intros st H1 H2; [auto|].
    simpl. destruct (@segment_line_page page st x H1 H2). apply IH; auto. }
  destruct (H (parsed_lines ls) ([], None)) as [H1 H2]; [constructor|discriminate|].
  destruct (fold_left _ _ _) as [entries cur]. simpl in *.
  destruct cur as [e|]; simpl; auto.
  apply Forall_app. split; auto. constructor; [|constructor]. simpl. auto.
Qed.

Lemma on_page_on_last page ms l : on_page page l -> on_page page (on_last ms l).
Proof.
  destruct l as [|x l] using rev_ind; [auto|].
  rewrite on_last_snoc. unfold on_page. rewrite !Forall_app.
  intros [H1 H2]. split; auto. inversion H2; subst. constructor; auto.
Qed.

Lemma last_heading_on_last ms l :
  option_map heading (last_entry (on_last ms l)) = option_map heading (last_entry l).
Proof.
  destruct l as [|x l] using rev_ind; [reflexivity|].
  now rewrite on_last_snoc, !last_entry_snoc.
Qed.

Lemma active_entry_last page l : on_page page l -> active_entry page l = last_entry l.
Proof.
  destruct l as [|x l] using rev_ind; [reflexivity|].
  unfold on_page. rewrite Forall_app. intros [_ H]. inversion H; subst.
  unfold active_entry, last_entry. rewrite rev_app_distr. simpl.
  now rewrite Z.eqb_refl.
Qed.

Lemma attach_last page m l e :
  page_number e = page -> attach page m (l ++ [e]) = on_last [m] (l ++ [e]).
Proof.
  intros H. unfold attach. rewrite rev_app_distr. simpl. rewrite H, Z.eqb_refl.
  simpl. now rewrite rev_involutive, on_last_snoc.
Qed.

Lemma ocr_row_step number sc entries ves row :
  on_page (number + 1) entries ->
  exists ms sc' ves',
    ocr_row env number (sc, entries, ves) row = (sc', on_last ms entries, ves')
    /\ written sc' = written sc ++ map image_path ms
    /\ attached_to Ocr (number + 1) (option_map heading (last_entry entries)) ms
    /\ (entries = [] -> sc' = sc).
Proof.
  intros Hpage.
  assert (Hsame : forall ves' : list VisualElement, exists ms sc' ves'',
             (sc, entries, ves') = (sc', on_last ms entries, ves'')
             /\ written sc' = written sc ++ map image_path ms
             /\ attached_to Ocr (number + 1) (option_map heading (last_entry entries)) ms
             /\ (entries = [] -> sc' = sc)).
  { intros ves'. exists [], sc, ves'. repeat split; auto.
    - now rewrite on_last_none.
    - simpl. now rewrite List.app_nil_r.
    - constructor. }
  unfold ocr_row. destruct (o_text row); [|apply Hsame].
  destruct (row_text row) as [|c0 txt]; [apply Hsame|].
  destruct (existsb _ _); [apply Hsame|].
  destruct (re_search BIBLIO_RE (c0 :: txt)); [apply Hsame|].
  destruct (raster_candidate (c0 :: txt)); [|apply Hsame].
  rewrite (@active_entry_last _ _ Hpage).
  destruct entries as [|x l _] using rev_ind; [apply Hsame|].
  rewrite last_entry_snoc.
  unfold on_page in Hpage. rewrite Forall_app in Hpage. destruct Hpage as [_ Hx].
  inversion Hx; subst.
  match goal with
  | |- context [_save_sigil_image env sc number ?b ?h ?pg] =>
      pose proof (save_written env sc number b h pg) as Hw;
      destruct (_save_sigil_image env sc number b h pg) as [[path|] sc']
  end; simpl in Hw.
  - rewrite attach_last by auto.
    eexists [_], sc', _. repeat split; eauto.
    + constructor; [|constructor]. simpl. auto.
    + intros Hn. destruct l; discriminate.
  - exists [], sc'. eexists. repeat split; eauto.
    + now rewrite on_last_none.
    + constructor.
    + intros Hn. destruct l; discriminate.
Qed.

Lemma ocr_row_loop number rows : forall sc entries ves,
  on_page (number + 1) entries ->
  exists ms sc' ves',
    fold_left (ocr_row env number) rows (sc, entries, ves) = (sc', on_last ms entries, ves')
    /\ written sc' = written sc ++ map image_path ms
    /\ attached_to Ocr (number + 1) (option_map heading (last_entry entries)) ms
    /\ (entries = [] -> sc' = sc).
Proof.
  induction rows as [|row rows IH]; intros sc entries ves Hpage.
  - exists [], sc, ves. repeat split; auto.
    + now rewrite on_last_none.
    + simpl. now rewrite List.app_nil_r.
    + constructor.
  - destruct (@ocr_row_step number sc entries ves row Hpage)
      as (ms1 & sc1 & ves1 & E1 & W1 & A1 & N1).
    destruct (IH sc1 (on_last ms1 entries) ves1 (@on_page_on_last _ ms1 _ Hpage))
      as (ms2 & sc2 & ves2 & E2 & W2 & A2 & N2).
    exists (ms1 ++ ms2), sc2, ves2. cbn [fold_left]. rewrite E1, E2.
    repeat split.
    + now rewrite on_last_app.
    + now rewrite W2, W1, map_app, app_assoc.
    + apply attached_to_app; auto. now rewrite last_heading_on_last in A2.
    + intros ->. rewrite N2, N1; auto.
Qed.

(** The entries of a page under the raster strategy: those of the
    segmenter, with every metadata record of the page on the last one. *)
Lemma raster_entries st number data :
  let out := _extract_elements_with_ocr env st number (Some data) in
  let segmented :=
    segment_page (number + 1)
      (ocr_lines (filter (fun r => Qltb (-1) (conf r)) data)) in
  exists ms,
    fst (fst out) = on_last ms segmented
    /\ written (snd out) = written st ++ map image_path ms
    /\ attached_to Ocr (number + 1) (option_map heading (last_entry segmented)) ms
    /\ (segmented = [] -> snd out = st).
Proof.
  intros out segmented. subst out. unfold _extract_elements_with_ocr.
  fold segmented.
  destruct (@ocr_row_loop number (filter (fun r => Qltb (-1) (conf r)) data)
              st segmented [] (segment_page_on_page (number + 1) _))
    as (ms & st' & ves' & E & W & A & N).
  fold segmented in E, A, N. rewrite E. exists ms. cbn [fst snd]. auto.
Qed.
End RasterStructure.

Section FreshEntries.
Context {U : UnicodeDB}.
Context {D : Doubles}.

Lemma segment_line_fresh page st line :
no_sigils (fst st) ->
(forall e, snd st = Some e -> oe_sigils e = []) ->
no_sigils (fst (segment_line page st line))
/\ (forall e, snd (segment_line page st line) = Some e -> oe_sigils e = []).
Proof.
destruct st as [entries cur]. simpl. intros He Hc. unfold segment_line.
destruct (re_match HEADING_CLASS_RE line).
- simpl. split.
  + destruct cur as [e|]; simpl; auto. apply Forall_app. split; auto.
    constructor; [|constructor]. simpl. auto.
  + intros e [= <-]. reflexivity.
- destruct cur as [e|]; simpl; split; auto.
  intros e' [= <-]. simpl. auto.
Qed.

(** The segmenter alone leaves every sigil list empty. *)
Lemma segment_page_fresh page ls : no_sigils (segment_page page ls).
Proof.
unfold segment_page, segment_lines.
assert (H : forall l st,
           no_sigils (fst st) ->
           (forall e, snd st = Some e -> oe_sigils e = []) ->
           no_sigils (fst (fold_left (segment_line page) l st))
           /\ (forall e, snd (fold_left (segment_line page) l st) = Some e
                         -> oe_sigils e = [])).
{ induction l as [|x l IH]; intros st H1 H2; [auto|].
  simpl. destruct (@segment_line_fresh page st x H1 H2). apply IH; auto. }
destruct (H (parsed_lines ls) ([], None)) as [H1 H2]; [constructor|discriminate|].
destruct (fold_left _ _ _) as [entries cur]. simpl in *.
destruct cur as [e|]; simpl; auto.
apply Forall_app. split; auto. constructor; [|constructor]. simpl. auto.
Qed.

(** A match of the bibliography pattern is never empty, so the iteration
  over its matches always moves on. *)
Lemma biblio_match_advances i s m :
match_at BIBLIO_RE i s = Some m -> m_start m = i /\ (i < m_end m)%nat.
Proof.
unfold match_at, BIBLIO_RE, biblio_name. cbn [run].
destruct s as [|c s]; [discriminate|].
destruct (cls_match (cset [CRange (ch "A") (ch "Z")]) c); [|discriminate].
intros H.
match type of H with
| match ?a with Some x => Some x | None => ?b end = _ =>
    destruct a as [m1|] eqn:E1; [injection H as ->|rename H into E2]
end.
- apply rep_lazy_sound in E1. destruct E1 as (u & v & _ & _ & _ & Hk & _).
  destruct v as [|c1 v]; [discriminate|].
  destruct (cls_match (cset [CSpace]) c1); [|discriminate].
  apply rep_greedy_sound in Hk. destruct Hk as (u2 & v2 & _ & _ & _ & Hk).
  injection Hk as <-. simpl. split; [reflexivity|lia].
- apply rep_lazy_sound in E2. destruct E2 as (u & v & _ & _ & _ & Hk & _).
  destruct v as [|c1 v]; [discriminate|].
  destruct (cls_match (cset [CSpace]) c1); [|discriminate].
  apply rep_greedy_sound in Hk. destruct Hk as (u2 & v2 & _ & _ & _ & Hk).
  destruct v2 as [|c2 v2]; [discriminate|].
  destruct (cls_match (cset [CChar (ch "C")]) c2); [|discriminate].
  injection Hk as <-. simpl. split; [reflexivity|lia].
Qed.
End FreshEntries.

(** ** Descriptions *)

Section Blocks.
Context {U : UnicodeDB}.
Context {D : Doubles}.
Variable page : Z.

Lemma closed_block_more done h body l :
  closed_block done h body -> closed_block (done ++ [l]) h body.
Proof.
  intros (pre & post & -> & Hh & Hb & h2 & post' & -> & H2).
  exists pre, ((h2 :: post') ++ [l]). repeat split; auto.
  - now rewrite <- !app_assoc, <- !app_comm_cons, <- app_assoc.
  - exists h2, (post' ++ [l]). auto.
Qed.

Lemma is_heading_some h m : re_match HEADING_CLASS_RE h = Some m -> is_heading h = true.
Proof. unfold is_heading. now intros ->. Qed.

Lemma is_heading_none h : re_match HEADING_CLASS_RE h = None -> is_heading h = false.
Proof. unfold is_heading. now intros ->. Qed.

Lemma finalize_open_block done c l :
  open_block page done c -> is_heading l = true ->
  exists h body, closed_block (done ++ [l]) h body /\ entry_of_block page h body (finalize c).
Proof.
  intros (pre & h & m & body & -> & Hm & Hb & H1 & H2 & Hp & Hd) Hl.
  exists h, body. split.
  - exists pre, [l]. repeat split; eauto using is_heading_some.
    now rewrite <- app_assoc, <- app_comm_cons.
  - exists m. unfold finalize. simpl. rewrite Hd. auto 10.
Qed.

Lemma seg_inv_step done st l :
  seg_inv page done st -> seg_inv page (done ++ [l]) (segment_line page st l).
Proof.
  destruct st as [entries cur]. intros [He Hc]. simpl in He, Hc.
  unfold segment_line. destruct (re_match HEADING_CLASS_RE l) as [m|] eqn:Em.
  - split; simpl.
    + intros e Hin. destruct cur as [c|]; simpl in Hin.
      * apply in_app_or in Hin. destruct Hin as [Hin|[<-|[]]].
        -- destruct (He e Hin) as (h & body & Hcl & Hsh).
           exists h, body. split; auto using closed_block_more.
        -- apply finalize_open_block; eauto using is_heading_some.
      * destruct (He e Hin) as (h & body & Hcl & Hsh).
        exists h, body. split; auto using closed_block_more.
    + intros c [= <-]. exists done, l, m, []. rewrite List.app_nil_r.
      repeat split; auto. unfold open_entry, trailing. simpl.
      destruct (strip (skipn (m_end m) l)); reflexivity.
  - destruct cur as [c|]; split; simpl; try discriminate.
    + intros e Hin. destruct (He e Hin) as (h & body & Hcl & Hsh).
      exists h, body. split; auto using closed_block_more.
    + intros c' [= <-].
      destruct (Hc c eq_refl) as (pre & h & m & body & -> & Hm & Hb & H1 & H2 & Hp & Hd).
      exists pre, h, m, (body ++ [l]). simpl. rewrite Hd.
      repeat split; auto.
      * now rewrite <- app_assoc, <- app_comm_cons.
      * apply Forall_app. split; auto. constructor; auto using is_heading_none.
      * now rewrite app_assoc.
    + intros e Hin. destruct (He e Hin) as (h & body & Hcl & Hsh).
      exists h, body. split; auto using closed_block_more.
Qed.

Lemma seg_inv_fold ls : forall done st,
  seg_inv page done st -> seg_inv page (done ++ ls) (fold_left (segment_line page) ls st).
Proof.
  induction ls as [|l ls IH]; intros done st H.
  - now rewrite List.app_nil_r.
  - simpl. replace (done ++ l :: ls) with ((done ++ [l]) ++ ls)
      by now rewrite <- app_assoc.
    apply IH. now apply seg_inv_step.
Qed.

(** Every entry the segmenter emits is the entry of one heading line and of
    the lines that follow it up to the next heading line or the end. *)
Lemma segment_page_blocks raw e :
  In e (segment_page page raw) ->
  exists h body, block (parsed_lines raw) h body /\ entry_of_block page h body e.
Proof.
  unfold segment_page, segment_lines.
  assert (H0 : seg_inv page [] ([], None)) by (split; simpl; [tauto|discriminate]).
  apply (seg_inv_fold (parsed_lines raw)) in H0. simpl in H0.
  destruct (fold_left _ _ _) as [entries cur]. destruct H0 as [He Hc]. simpl in *.
  intros Hin. destruct cur as [c|]; simpl in Hin.
  - apply in_app_or in Hin. destruct Hin as [Hin|[<-|[]]].
    + destruct (He e Hin) as (h & body & (pre & post & E & Hh & Hb & h2 & post' & -> & H2) & Hsh).
      exists h, body. split; auto. exists pre, (h2 :: post'). auto.
    + destruct (Hc c eq_refl) as (pre & h & m & body & E & Hm & Hb & H1 & H2 & Hp & Hd).
      exists h, body. split.
      * exists pre, []. rewrite List.app_nil_r. eauto using is_heading_some.
      * exists m. unfold finalize. simpl. rewrite Hd. auto 10.
  - destruct (He e Hin) as (h & body & (pre & post & E & Hh & Hb & h2 & post' & -> & H2) & Hsh).
    exists h, body. split; auto. exists pre, (h2 :: post'). auto.
Qed.

Lemma entry_of_block_add_sigils ms h body e :
  entry_of_block page h body e -> entry_of_block page h body (add_sigils ms e).
Proof. intros (m & H). exists m. exact H. Qed.

Lemma in_on_last ms l e :
  In e (on_last ms l) -> exists e0, In e0 l /\ (e = e0 \/ e = add_sigils ms e0).
Proof.
  destruct l as [|x l] using rev_ind; [intros []|].
  rewrite on_last_snoc. intros Hin. apply in_app_or in Hin.
  destruct Hin as [Hin|[<-|[]]].
  - exists e. split; auto. apply in_or_app. auto.
  - exists x. split; auto. apply in_or_app. right. now left.
Qed.

Lemma on_last_blocks ms raw e :
  In e (on_last ms (segment_page page raw)) ->
  exists h body, block (parsed_lines raw) h body /\ entry_of_block page h body e.
Proof.
  intros Hin. apply in_on_last in Hin. destruct Hin as (e0 & Hin & [->| ->]).
  - now apply segment_page_blocks.
  - destruct (segment_page_blocks raw e0 Hin) as (h & body & Hb & Hs).
    exists h, body. split; auto.
Qed.
End Blocks.

(** ** Entries of a page: the claims *)

Section PageClaims.
Context {U : UnicodeDB}.
Context {D : Doubles}.
Variable env : Renderer.

(** C2 (as the code has it).  Under either strategy the metadata records
    created on a page all go, in detection order, to the last entry of the
    page: the entry still open after the line loop in the vector strategy,
    the most recently finalized entry of the page in the raster strategy.
    The other entries have no record.  Each record carries that entry's
    heading and stands for one crop written to disk.  The position of the token on the page plays no part.
    A page without any entry keeps no glyph: nothing is saved, no record
    is created. *)
Theorem glyph_attachment (st : Scan) :
  (forall (p : PlumberPage) (fitz_page : Z),
      let out := _extract_elements_from_plumber_page env st p fitz_page in
      let segmented := segment_page (pp_number p) (split_on 10 (page_text p)) in
      exists ms,
        fst (fst out) = on_last ms segmented
        /\ written (snd out) = written st ++ map image_path ms
        /\ no_sigils segmented
        /\ attached_to Direct (pp_number p)
                       (option_map heading (last_entry segmented)) ms
        /\ (segmented = [] -> snd out = st))
  /\ (forall (number : Z) (data : list OcrRow),
      let out := _extract_elements_with_ocr env st number (Some data) in
      let segmented :=
        segment_page (number + 1)
          (ocr_lines (filter (fun r => Qltb (-1) (conf r)) data)) in
      exists ms,
        fst (fst out) = on_last ms segmented
        /\ written (snd out) = written st ++ map image_path ms
        /\ no_sigils segmented
        /\ attached_to Ocr (number + 1)
                       (option_map heading (last_entry segmented)) ms
        /\ (segmented = [] -> snd out = st)).
Proof.
  split; intros.
  - destruct (vector_entries env st p fitz_page) as (ms & E & W & A & N).
    exists ms. repeat split; auto. apply segment_page_fresh.
  - destruct (raster_entries env st number data) as (ms & E & W & A & N).
    exists ms. repeat split; auto. apply segment_page_fresh.
Qed.

(** C7.  The single line about ABRACADABRA yields exactly one entry, with
    that heading, class Sym., the rest of the line as description and the
    one reference Agrippa 1533: from the segmenter alone, and from the
    vector strategy on a page whose text is that line. *)
Theorem abracadabra_entry (st : Scan) (page fitz_page : Z)
        (cs ls ws : list pobj) (w h : Q) :
  let p := {| chars := cs; page_text := abracadabra; lines := ls; words := ws;
              width := w; height := h; pp_number := page |} in
  segment_page page [abracadabra]
  = [ {| heading := lit "ABRACADABRA"; class := lit "Sym."; sigils_metadata := [];
         description := lit "A mystical word of power. Agrippa 1533.";
         references_raw := [lit "Agrippa 1533"]; page_number := page |} ]
  /\ map core (fst (fst (_extract_elements_from_plumber_page env st p fitz_page)))
     = [ (lit "ABRACADABRA", lit "Sym.",
          lit "A mystical word of power. Agrippa 1533.",
          [lit "Agrippa 1533"], page) ].
Proof.
  intros p. split; [vm_compute; reflexivity|].
  destruct (vector_entries env st p fitz_page) as (ms & E & _).
  rewrite E, map_core_on_last. vm_compute. reflexivity.
Qed.

(** C8.  The three lines FOO, second line, BAR yield two entries in order,
    with descriptions [first line second line] and [third line], on the
    page's number; and under both strategies every entry returned is the
    entry of one heading line and the lines after it up to the next
    heading line or the end of the page: its description is the text after
    the tag followed by those lines, joined with single spaces and
    trimmed. *)
Theorem description_of_entry (st : Scan) :
  (forall page : Z,
      map core (segment_page page foo_bar_lines)
      = [ (lit "FOO", lit "Abc.", lit "first line second line", [], page);
          (lit "BAR", lit "Def.", lit "third line", [], page) ])
  /\ (forall (fitz_page page : Z) (cs ls ws : list pobj) (w h : Q),
      map core (fst (fst (_extract_elements_from_plumber_page env st
                            {| chars := cs; page_text := join [10] foo_bar_lines;
                               lines := ls; words := ws; width := w; height := h;
                               pp_number := page |} fitz_page)))
      = [ (lit "FOO", lit "Abc.", lit "first line second line", [], page);
          (lit "BAR", lit "Def.", lit "third line", [], page) ])
  /\ (forall (page : Z) (raw : list str) (e : Entry),
      In e (segment_page page raw) ->
      exists h body, block (parsed_lines raw) h body /\ entry_of_block page h body e)
  /\ (forall (p : PlumberPage) (fitz_page : Z) (e : Entry),
      In e (fst (fst (_extract_elements_from_plumber_page env st p fitz_page))) ->
      exists h body,
        block (parsed_lines (split_on 10 (page_text p))) h body
        /\ entry_of_block (pp_number p) h body e)
  /\ (forall (number : Z) (data : list OcrRow) (e : Entry),
      In e (fst (fst (_extract_elements_with_ocr env st number (Some data)))) ->
      exists h body,
        block (parsed_lines (ocr_lines (filter (fun r => Qltb (-1) (conf r)) data))) h body
        /\ entry_of_block (number + 1) h body e).
Proof.
  split; [intros; vm_compute; reflexivity|]. split; [|split; [|split]].
  - intros.
    match goal with
    | |- context [_extract_elements_from_plumber_page env st ?p ?f] =>
        destruct (vector_entries env st p f) as (ms & E & _)
    end.
    rewrite E, map_core_on_last. vm_compute. reflexivity.
  - intros page raw e. apply segment_page_blocks.
  - intros p f e Hin. destruct (vector_entries env st p f) as (ms & E & _).
    rewrite E in Hin. now apply on_last_blocks in Hin.
  - intros number data e Hin. destruct (raster_entries env st number data) as (ms & E & _).
    rewrite E in Hin. now apply on_last_blocks in Hin.
Qed.
End PageClaims.

(** C2 as stated fails.  The glyph + is read on the first printed line, where
    FOO is the current entry; its metadata ends up on BAR. *)
Lemma glyph_not_positional :
  map (fun e => (heading e, map source_text (sigils_metadata e)))
      (fst (fst (_extract_elements_with_ocr demo_env scan0 0 (Some two_entry_rows))))
  = [(lit "FOO", []); (lit "BAR", [lit "+"])]
  /\ current_at 0 two_entry_rows 2 = Some (lit "FOO").
Proof. split; vm_compute; reflexivity. Qed.

(** C9 at its failing input: the raster strategy returns both annotations of
    two tokens that have the same box. *)
Lemma raster_keeps_duplicates :
  map (fun ve => (rect ve, text_snippet ve))
      (snd (fst (_extract_elements_with_ocr demo_env scan0 0 (Some same_box_rows))))
  = [((5, 5, 20, 10)%Q, lit "alpha"); ((5, 5, 20, 10)%Q, lit "beta")].
Proof. vm_compute. reflexivity. Qed.

(** ** The sigil store *)

Lemma uint_of_digits_inv d : uint_of_digits (digits_of_uint d) = d.
Proof. induction d; simpl; rewrite ?IHd; reflexivity. Qed.

Lemma digits_are_digits d : Forall (fun c => ascii_digit c = true) (digits_of_uint d).
Proof. induction d; simpl; constructor; auto. Qed.

Lemma take_while_app f a x b :
  Forall (fun c => f c = true) a -> f x = false -> take_while f (a ++ x :: b) = a.
Proof.
  intros Ha Hx. induction Ha as [|c a Hc _ IH]; simpl.
  - now rewrite Hx.
  - now rewrite Hc, IH.
Qed.

Section StoreFacts.
Context {U : UnicodeDB}.
Context {D : Doubles}.
Variable env : Renderer.

Lemma filename_id_of h p n : filename_id (img_filename_of h p n) = Some n.
Proof.
  unfold filename_id, img_filename_of.
  rewrite !app_assoc, rev_app_distr. cbn [rev lit list_ascii_of_string map app].
  rewrite rev_app_distr.
  change (N_of_ascii "g") with 103. change (N_of_ascii "n") with 110.
  change (N_of_ascii "p") with 112. change (N_of_ascii ".") with 46.
  cbn [app]. rewrite rev_app_distr. cbn [rev lit list_ascii_of_string map app].
  change (N_of_ascii "d") with 100.
  rewrite <- !app_assoc. cbn [app].
  rewrite take_while_app.
  - rewrite rev_involutive. unfold str_of_N. rewrite uint_of_digits_inv.
    now rewrite DecimalN.Unsigned.of_to.
  - apply Forall_rev. apply digits_are_digits.
  - reflexivity.
Qed.

Lemma path_id_of h p n :
  path_id (path_join (os_sep env) OUTPUT_IMAGE_DIR (img_filename_of h p n)) = Some n.
Proof.
  unfold path_id, path_join.
  change (S (length OUTPUT_IMAGE_DIR)) with (length (OUTPUT_IMAGE_DIR ++ [os_sep env])).
  replace (OUTPUT_IMAGE_DIR ++ os_sep env :: img_filename_of h p n)
    with ((OUTPUT_IMAGE_DIR ++ [os_sep env]) ++ img_filename_of h p n)
    by now rewrite <- app_assoc.
  rewrite skipn_exact. apply filename_id_of.
Qed.

Lemma names_from_app l1 : forall c l2,
  names_from c (l1 ++ l2) = names_from c l1 ++ names_from (c + N.of_nat (length l1)) l2.
Proof.
  induction l1 as [|k l1 IH]; intros c l2; simpl.
  - now rewrite N.add_0_r.
  - rewrite IH. do 3 f_equal. lia.
Qed.

Lemma paths_from_app l1 : forall c l2,
  paths_from env c (l1 ++ l2)
  = paths_from env c l1 ++ paths_from env (c + N.of_nat (length l1)) l2.
Proof.
  induction l1 as [|k l1 IH]; intros c l2; simpl.
  - now rewrite N.add_0_r.
  - rewrite IH, <- app_assoc. do 3 f_equal. lia.
Qed.

Lemma advances_refl st : advances env st st [].
Proof. unfold advances. simpl. rewrite N.add_0_r, !List.app_nil_r. auto. Qed.

Lemma advances_trans a b c l1 l2 :
  advances env a b l1 -> advances env b c l2 -> advances env a c (l1 ++ l2).
Proof.
  intros (C1 & A1 & W1) (C2 & A2 & W2). unfold advances.
  rewrite C2, A2, W2, C1, A1, W1, names_from_app, paths_from_app, length_app.
  rewrite <- !app_assoc. repeat split; auto. lia.
Qed.

Lemma progresses_refl st : progresses env st st.
Proof. exists []. apply advances_refl. Qed.

Lemma progresses_trans a b c :
  progresses env a b -> progresses env b c -> progresses env a c.
Proof. intros [l1 H1] [l2 H2]. exists (l1 ++ l2). eapply advances_trans; eauto. Qed.

Lemma progresses_log st l : progresses env st (log_add st l).
Proof. exists []. unfold advances. simpl. rewrite N.add_0_r, !List.app_nil_r. auto. Qed.

Lemma save_advances st fitz box h pg :
  advances env st (snd (_save_sigil_image env st fitz box h pg))
    [{| sc_heading := h; sc_page := pg;
        sc_saved := match fst (_save_sigil_image env st fitz box h pg) with
                    | Some _ => true | None => false end |}].
Proof.
  unfold _save_sigil_image, advances.
  destruct (get_pixmap env _ fitz box); simpl.
  - rewrite List.app_nil_r. auto.
  - destruct ((pw =? 0)%Z || (ph =? 0)%Z); simpl; [rewrite List.app_nil_r; auto|].
    destruct (pix_save env _ _); simpl; [auto|rewrite List.app_nil_r; auto].
Qed.

Lemma save_progresses st fitz box h pg :
  progresses env st (snd (_save_sigil_image env st fitz box h pg)).
Proof. eexists. apply save_advances. Qed.

Lemma plumber_char_progresses p fitz st c :
  progresses env (fst (fst st)) (fst (fst (plumber_char env p fitz st c))).
Proof.
  destruct st as [[sc cur] ves]. unfold plumber_char.
  destruct (vector_candidate (text c)); [|apply progresses_refl].
  destruct cur as [e|]; [|apply progresses_refl].
  destruct (rejects p _); [apply progresses_refl|].
  match goal with
  | |- context [_save_sigil_image env sc fitz ?b ?h ?pg] =>
      pose proof (save_progresses sc fitz b h pg) as Hs;
      destruct (_save_sigil_image env sc fitz b h pg) as [[path|] sc']
  end; exact Hs.
Qed.

Lemma ocr_row_progresses number st row :
  progresses env (fst (fst st)) (fst (fst (ocr_row env number st row))).
Proof.
  destruct st as [[sc entries] ves]. unfold ocr_row.
  destruct (o_text row); [|apply progresses_refl].
  destruct (row_text row) as [|c0 txt]; [apply progresses_refl|].
  destruct (existsb _ _); [apply progresses_refl|].
  destruct (re_search BIBLIO_RE (c0 :: txt)); [apply progresses_refl|].
  destruct (raster_candidate (c0 :: txt)); [|apply progresses_refl].
  destruct (active_entry _ entries); [|apply progresses_refl].
  match goal with
  | |- context [_save_sigil_image env sc number ?b ?h ?pg] =>
      pose proof (save_progresses sc number b h pg) as Hs;
      destruct (_save_sigil_image env sc number b h pg) as [[path|] sc']
  end; exact Hs.
Qed.

Lemma fold_progresses (A S : Type) (f : S -> A -> S) (get : S -> Scan) :
  (forall s a, progresses env (get s) (get (f s a))) ->
  forall l s, progresses env (get s) (get (fold_left f l s)).
Proof.
  intros Hf. induction l as [|a l IH]; intros s; simpl.
  - apply progresses_refl.
  - eapply progresses_trans; [apply Hf|apply IH].
Qed.

Lemma vector_progresses st p fitz :
  progresses env st (snd (_extract_elements_from_plumber_page env st p fitz)).
Proof.
  unfold _extract_elements_from_plumber_page.
  destruct (page_text p); [apply progresses_refl|].
  destruct (fold_left (plumber_line p) _ _) as [[entries ves] cur].
  pose proof (fold_progresses (plumber_char env p fitz) (fun s => fst (fst s))
                (plumber_char_progresses p fitz) (chars p) (st, cur, ves)) as H.
  destruct (fold_left (plumber_char env p fitz) _ _) as [[st' cur'] ves'].
  exact H.
Qed.

Lemma raster_progresses st number ocr_data :
  progresses env st (snd (_extract_elements_with_ocr env st number ocr_data)).
Proof.
  unfold _extract_elements_with_ocr. destruct ocr_data as [data|].
  - match goal with
    | |- context [fold_left (ocr_row env number) ?rows ?s0] =>
        pose proof (fold_progresses (ocr_row env number) (fun s => fst (fst s))
                      (ocr_row_progresses number) rows s0) as H;
        destruct (fold_left (ocr_row env number) rows s0) as [[st' e'] ves']
    end.
    exact H.
  - apply progresses_log.
Qed.

Lemma scan_page_progresses use_ocr acc ip :
  progresses env (fst acc) (fst (scan_page env use_ocr acc ip)).
Proof.
  destruct acc as [st data], ip as [idx pg]. unfold scan_page, extract_page.
  destruct use_ocr.
  - pose proof (raster_progresses st idx (ocr pg)) as H.
    destruct (_extract_elements_with_ocr _ _ _ _) as [[e v] st']. exact H.
  - pose proof (vector_progresses st (plumber pg) idx) as H.
    destruct (_extract_elements_from_plumber_page _ _ _ _) as [[e v] st']. exact H.
Qed.

Lemma worker_progresses use_ocr doc s e st :
  progresses env st (fst (scan_pdf_worker env use_ocr doc s e st)).
Proof.
  unfold scan_pdf_worker.
  destruct (negb _); [apply progresses_log|].
  destruct (_ <? _)%Z; [apply progresses_log|].
  pose proof (fold_progresses (scan_page env use_ocr) fst
                (scan_page_progresses use_ocr)
                (page_range doc s (Z.min e (Z.of_nat (length doc) - 1))) (st, [])) as H.
  destruct (fold_left _ _ _) as [st' data]. simpl in *.
  eapply progresses_trans; [exact H|apply progresses_log].
Qed.
End StoreFacts.

Lemma ids_from_bounds n : forall c, Forall (fun i => c < i) (ids_from c n).
Proof.
  induction n as [|n IH]; intros c; simpl; constructor; [lia|].
  eapply Forall_impl; [|apply IH]. simpl. intros; lia.
Qed.

Lemma ids_from_sorted n : forall c, StronglySorted N.lt (ids_from c n).
Proof.
  induction n as [|n IH]; intros c; simpl; constructor; auto.
  apply ids_from_bounds.
Qed.

Lemma saved_ids_bounds calls : forall c, Forall (fun i => c < i) (saved_ids c calls).
Proof.
  induction calls as [|k calls IH]; intros c; simpl; [constructor|].
  apply Forall_app. split.
  - destruct (sc_saved k); constructor; [lia|constructor].
  - eapply Forall_impl; [|apply IH]. simpl. intros; lia.
Qed.

Lemma saved_ids_sorted calls : forall c, StronglySorted N.lt (saved_ids c calls).
Proof.
  induction calls as [|k calls IH]; intros c; simpl; [constructor|].
  destruct (sc_saved k); simpl; auto.
  constructor; auto. apply saved_ids_bounds.
Qed.

Lemma sorted_nodup (l : list N) : StronglySorted N.lt l -> NoDup l.
Proof.
  induction 1 as [|a l Hs IH Ha]; constructor; auto.
  intros Hin. rewrite Forall_forall in Ha. specialize (Ha a Hin). lia.
Qed.

Lemma nodup_map_some (l : list N) : NoDup l -> NoDup (map Some l).
Proof.
  induction 1 as [|a l Hn _ IH]; simpl; constructor; auto.
  intros Hin. apply in_map_iff in Hin. destruct Hin as (b & [= ->] & Hb). auto.
Qed.

Section SigilIds.
Context {U : UnicodeDB}.
Context {D : Doubles}.
Variable env : Renderer.

Lemma ids_of_names calls : forall c,
  map filename_id (names_from c calls) = map Some (ids_from c (length calls)).
Proof.
  induction calls as [|k calls IH]; intros c; simpl; [reflexivity|].
  now rewrite filename_id_of, IH.
Qed.

Lemma ids_of_paths calls : forall c,
  map path_id (paths_from env c calls) = map Some (saved_ids c calls).
Proof.
  induction calls as [|k calls IH]; intros c; simpl; [reflexivity|].
  rewrite !map_app, IH. destruct (sc_saved k); simpl; [|reflexivity].
  now rewrite path_id_of.
Qed.

Lemma paths_nodup calls c : NoDup (paths_from env c calls).
Proof.
  apply (NoDup_map_inv path_id). rewrite ids_of_paths.
  apply nodup_map_some, sorted_nodup, saved_ids_sorted.
Qed.

(** C10.  Every call of the save operation adds exactly one to the counter,
    whatever it returns.  Over a scan, the id in the generated file names
    runs through 1, 2, ..., one per save attempt; the files written by the
    scan have strictly increasing ids, hence distinct names; and the ids of
    the files written may skip values, as in the scan of a page with three
    glyphs whose second crop is empty. *)
Theorem sigil_ids :
  (forall (st : Scan) (fitz_page : Z) (box : bbox) (h : str) (pg : Z),
      sigil_counter (snd (_save_sigil_image env st fitz_page box h pg))
      = sigil_counter st + 1)
  /\ (forall (use_ocr : bool) (doc : list PageInput) (s e : Z) (st0 : Scan),
      let st' := fst (run_scan env use_ocr doc s e st0) in
      exists (n : nat) (new : list str) (kept : list N),
        sigil_counter st' = N.of_nat n
        /\ map filename_id (attempted st') = map Some (ids_from 0 n)
        /\ StronglySorted N.lt (ids_from 0 n)
        /\ written st' = written st0 ++ new
        /\ map path_id new = map Some kept
        /\ StronglySorted N.lt kept
        /\ NoDup new)
  /\ map path_id (written (fst (run_scan gap_env true three_glyph_doc 0 0 scan0)))
     = [Some 1; Some 3].
Proof.
  split; [apply save_counter|]. split; [|vm_compute; reflexivity].
  intros use_ocr doc s e st0 st'. subst st'. unfold run_scan.
  destruct (worker_progresses env use_ocr doc s e (start_scan_thread st0))
    as (calls & C & A & W).
  simpl in C, A, W.
  exists (length calls), (paths_from env 0 calls), (saved_ids 0 calls).
  rewrite C, A, W. repeat split.
  - apply ids_of_names.
  - apply ids_from_sorted.
  - apply ids_of_paths.
  - apply saved_ids_sorted.
  - apply paths_nodup.
Qed.
End SigilIds.

(** ** The candidate rules *)

Lemma lstrip_head s c r : lstrip s = c :: r -> isspace c = false.
Proof.
  induction s as [|x s IH]; simpl; [discriminate|].
  destruct (isspace x) eqn:E; auto. intros [= <- <-]. exact E.
Qed.

Lemma strip_last t u c : strip t = u ++ [c] -> isspace c = false.
Proof.
  unfold strip, rstrip. intros H.
  apply (f_equal (@rev char)) in H. rewrite rev_involutive, rev_app_distr in H.
  simpl in H. now apply lstrip_head in H.
Qed.

Section Candidates.
Context {U : UnicodeDB}.
Context {D : Doubles}.

Lemma cls_symbol c : cls_match (cnot symbol_excluded) c = symbol_char c.
Proof.
  unfold cls_match, symbol_char, symbol_excluded, raster_punctuation, cnot.
  cbn [negated items existsb citem_match xorb].
  destruct (isspace c), (isalnum_c c || (c =? 95)); reflexivity.
Qed.

Lemma raster_candidate_iff txt :
  raster_candidate txt = true <->
  exists u v, txt = u ++ v /\ (1 <= length u <= 5)%nat
              /\ Forall (fun c => symbol_char c = true) u
              /\ (v = [] \/ v = [10]).
Proof.
  unfold raster_candidate, re_match, match_at, POTENTIAL_SYMBOL_RE_OCR.
  cbn [run Nat.eqb]. split.
  - destruct (rep_greedy _ _ _ _ _ _) as [m|] eqn:E; [intros _|discriminate].
    apply rep_greedy_sound in E. destruct E as (u & v & -> & Hlen & Hall & Hk).
    exists u, v. repeat split; try lia.
    + now apply (all_in_ext _ _ _ cls_symbol).
    + destruct v as [|c [|c' v]]; auto; [|discriminate].
      destruct (c =? 10) eqn:Ec; [|discriminate].
      apply N.eqb_eq in Ec. subst. auto.
  - intros (u & v & -> & Hlen & Hall & Hv).
    destruct (rep_greedy _ _ _ _ _ _) as [m|] eqn:E; [reflexivity|].
    exfalso. revert E. apply rep_greedy_complete; auto.
    + now apply (all_in_ext _ _ _ cls_symbol).
    + destruct Hv as [-> | ->]; discriminate.
Qed.

Lemma vector_candidate_iff s :
  vector_candidate s = true <->
  exists c, s = [c] /\ isalnum_c c = false /\ isspace c = false
            /\ ~ In c vector_punctuation.
Proof.
  unfold vector_candidate. split.
  - destruct s as [|c [|c' s]]; try discriminate.
    cbn [length Nat.eqb andb str_isalnum str_isspace forallb].
    rewrite !andb_true_r, !andb_true_iff, !negb_true_iff.
    intros [[Ha Hp] Hs]. exists c. repeat split; auto.
    intros Hin. revert Hp. unfold vector_punctuation, raster_punctuation in Hin.
    cbn in Hin.
    repeat (destruct Hin as [<-|Hin]; [vm_compute; discriminate|]).
    destruct Hin.
  - intros (c & -> & Ha & Hs & Hp).
    cbn [length Nat.eqb andb str_isalnum str_isspace forallb].
    rewrite Ha, Hs. cbn [andb negb].
    rewrite andb_true_r, negb_true_iff.
    unfold vector_punctuation, raster_punctuation in Hp. cbn in Hp.
    unfold COMMON_PUNCTUATION. cbn.
    repeat match goal with
           | |- context [c =? ?k] =>
               let E := fresh in
               destruct (c =? k) eqn:E;
               [apply N.eqb_eq in E; subst; exfalso; apply Hp; tauto|]
           end.
    reflexivity.
Qed.

(** C6 (as the code has it).  The raster rule accepts a trimmed token
    exactly when it has one to five characters, none of them whitespace, a
    word character (alphanumeric or underscore) or one of the twelve
    punctuation characters; hyphen and slash are therefore raster
    candidates.  The vector rule accepts a single character that is not
    alphanumeric, not whitespace and not one of fourteen punctuation
    characters, which include hyphen and slash: neither is a vector
    candidate. *)
Theorem glyph_candidates :
  (forall t : str,
      let txt := strip t in
      raster_candidate txt = true <->
      (1 <= length txt <= 5)%nat /\ Forall (fun c => symbol_char c = true) txt)
  /\ raster_candidate (lit "-") = true /\ raster_candidate (lit "/") = true
  /\ raster_candidate (lit "_") = false
  /\ (forall s : str,
      vector_candidate s = true <->
      exists c, s = [c] /\ isalnum_c c = false /\ isspace c = false
                /\ ~ In c vector_punctuation)
  /\ vector_candidate (lit "-") = false /\ vector_candidate (lit "/") = false.
Proof.
  split; [|repeat split; try reflexivity; apply vector_candidate_iff].
  intros t txt. rewrite raster_candidate_iff. split.
  - intros (u & v & E & Hlen & Hall & [-> | ->]).
    + rewrite List.app_nil_r in E. subst u. auto.
    + subst txt. apply strip_last in E. discriminate.
  - intros [Hlen Hall]. exists txt, []. rewrite List.app_nil_r. auto.
Qed.
End Candidates.

(** C6 as stated fails: hyphen and slash are not vector candidates, and the
    underscore, though neither alphanumeric, blank nor punctuation, is not a
    raster candidate. *)
Lemma hyphen_slash_not_vector :
  vector_candidate (lit "-") = false /\ vector_candidate (lit "/") = false
  /\ raster_candidate (lit "_") = false.
Proof. repeat split; reflexivity. Qed.

(** ** The drawn-sigil search *)

Lemma insert_match_perm m l : Permutation (insert_match m l) (m :: l).
Proof.
  induction l as [|x l IH]; simpl; [reflexivity|].
  destruct (distance m <=? distance x); [reflexivity|].
  rewrite IH. apply perm_swap.
Qed.

Lemma sort_matches_perm l : Permutation (sort_matches l) l.
Proof.
  induction l as [|x l IH]; simpl; [reflexivity|].
  rewrite insert_match_perm. now constructor.
Qed.

Lemma insert_match_sorted m l :
  StronglySorted by_distance l -> StronglySorted by_distance (insert_match m l).
Proof.
  induction 1 as [|x l Hs IH Hx]; simpl.
  - constructor; constructor.
  - destruct (distance m <=? distance x) eqn:E.
    + apply N.leb_le in E. constructor; [now constructor|].
      constructor; [exact E|].
      eapply Forall_impl; [|exact Hx]. unfold by_distance. intros; lia.
    + apply N.leb_gt in E. constructor; auto.
      eapply Permutation_Forall; [symmetry; apply insert_match_perm|].
      constructor; auto. unfold by_distance. lia.
Qed.

Lemma sort_matches_sorted l : StronglySorted by_distance (sort_matches l).
Proof.
  induction l as [|x l IH]; simpl; [constructor|]. now apply insert_match_sorted.
Qed.

Lemma insert_match_stable d m l :
  at_distance d (insert_match m l) = at_distance d (m :: l).
Proof.
  induction l as [|x l IH]; [reflexivity|].
  simpl insert_match. destruct (distance m <=? distance x) eqn:E; [reflexivity|].
  apply N.leb_gt in E. unfold at_distance in *. simpl in *. rewrite IH.
  destruct (distance m =? d) eqn:Em, (distance x =? d) eqn:Ex; try reflexivity.
  apply N.eqb_eq in Em, Ex. lia.
Qed.

Lemma sort_matches_stable d l : at_distance d (sort_matches l) = at_distance d l.
Proof.
  induction l as [|x l IH]; [reflexivity|].
  simpl sort_matches. rewrite insert_match_stable.
  unfold at_distance in *. simpl. now rewrite IH.
Qed.

Lemma bump_same c n : bump c [(n, c)] = [(n + 1, c)].
Proof.
  simpl. destruct c as [[r g] b]. unfold rgb_eqb. now rewrite !N.eqb_refl.
Qed.

Lemma fold_bump_repeat c n : forall k,
  fold_left (fun acc x => bump x acc) (repeat c n) [(k, c)] = [(k + N.of_nat n, c)].
Proof.
  induction n as [|n IH]; intros k.
  - simpl. now rewrite N.add_0_r.
  - cbn [repeat fold_left]. rewrite bump_same, IH. do 2 f_equal. lia.
Qed.

Lemma getcolors_one_colour c n :
  getcolors 1 {| pixels := repeat c (S n) |} = Some [(N.of_nat (S n), c)].
Proof.
  unfold getcolors. cbn [pixels repeat fold_left bump].
  rewrite fold_bump_repeat. cbn [length Nat.leb].
  do 3 f_equal. lia.
Qed.

(** The check of line 654 raises on every canvas of a single colour. *)
Lemma empty_canvas_one_colour c n :
  empty_canvas {| pixels := repeat c (S n) |} = Raises.
Proof.
  unfold empty_canvas. now rewrite getcolors_one_colour.
Qed.

Lemma empty_canvas_blank : empty_canvas blank_canvas = Raises.
Proof.
  unfold blank_canvas.
  destruct (N.to_nat (DRAW_CANVAS_WIDTH * DRAW_CANVAS_HEIGHT)) as [|n] eqn:E.
  - apply (f_equal N.of_nat) in E. rewrite N2Nat.id in E. discriminate.
  - apply empty_canvas_one_colour.
Qed.

(** The check never answers that the canvas is empty. *)
Lemma empty_canvas_never_holds drawn : empty_canvas drawn <> IsTrue.
Proof.
  unfold empty_canvas.
  destruct (getcolors 1 drawn) as [[|[count colour] l]|]; discriminate.
Qed.

Lemma empty_canvas_colourful drawn :
  getcolors 1 drawn = None -> empty_canvas drawn = IsFalse.
Proof.
  unfold empty_canvas. now intros ->.
Qed.

Section SearchFacts.
Variable senv : SearchEnv.

Lemma try_sigil_one h e ms lg hs sm :
  try_sigil senv h e (ms, lg, hs) sm
  = (ms ++ candidate_of senv h (e, sm), lg ++ warning_of senv (e, sm),
     hs ++ opened_of senv (e, sm)).
Proof.
  unfold try_sigil, candidate_of, warning_of, opened_of, usable. cbn [fst snd].
  destruct (image_path sm) as [|c p]; [now rewrite !List.app_nil_r|].
  destruct (path_exists senv (c :: p)); [|now rewrite !List.app_nil_r].
  destruct (phash_file senv (c :: p)); now rewrite !List.app_nil_r.
Qed.

Lemma try_entry_all h e sms : forall ms lg hs,
  fold_left (try_sigil senv h e) sms (ms, lg, hs)
  = (ms ++ flat_map (candidate_of senv h) (map (pair e) sms),
     lg ++ flat_map (warning_of senv) (map (pair e) sms),
     hs ++ flat_map (opened_of senv) (map (pair e) sms)).
Proof.
  induction sms as [|sm sms IH]; intros ms lg hs.
  - simpl. now rewrite !List.app_nil_r.
  - cbn [fold_left map flat_map]. rewrite try_sigil_one, IH.
    now rewrite <- !app_assoc.
Qed.

Lemma collect_all h data : forall ms lg hs,
  collect senv h data (ms, lg, hs)
  = (ms ++ candidates senv h data, lg ++ warnings senv data, hs ++ opened senv data).
Proof.
  unfold collect, candidates, warnings, opened, corpus.
  induction data as [|e data IH]; intros ms lg hs.
  - simpl. now rewrite !List.app_nil_r.
  - cbn [fold_left flat_map]. unfold try_entry at 2.
    rewrite try_entry_all, IH, !flat_map_app. now rewrite <- !app_assoc.
Qed.

Lemma load_step q :
  scanned_data_for_query
    (match scanned_data_for_query q with
     | [] => load_scanned_data_for_query senv q
     | _ => q
     end) = loaded senv q.
Proof.
  unfold loaded, load_scanned_data_for_query.
  destruct (scanned_data_for_query q) eqn:E; [|exact E].
  destruct (stored_dataset senv); simpl; auto.
Qed.

(** C3 (as the code has it).  For a drawing that shows two colours at
    least and that can be hashed: when no dataset is in memory and none
    can be loaded, or the dataset is an empty list, the search stops with
    the error that the data is not loaded.  Otherwise it collects one
    match per sigil of the dataset whose image file exists and can be
    hashed, sorts them by ascending distance, equal distances keeping the
    order of the dataset, and returns the first ten at most; an image
    that is missing is passed over without a word, an image that exists
    and cannot be hashed is passed over with a warning, and neither stops
    the search; a dataset without any sigil gives the empty list. *)
Theorem similarity_search (q : Query) (drawn : Image) (h : N) :
  getcolors 1 drawn = None ->
  phash_drawing senv drawn = Some h ->
  let out := search_drawn_sigil_action senv q drawn in
  let data := loaded senv q in
  let found := candidates senv h data in
  let ranked := sort_matches found in
  (data = [] /\ fst out = NotLoaded)
  \/ (data <> []
      /\ fst out = TopMatches (firstn 10 ranked)
      /\ (length (firstn 10 ranked) <= 10)%nat
      /\ Permutation ranked found
      /\ StronglySorted by_distance ranked
      /\ (forall d, at_distance d ranked = at_distance d found)
      /\ (exists lg0, qlog (snd out) = lg0 ++ warnings senv data)
      /\ hashed (snd out) = hashed q ++ HashDrawing :: opened senv data
      /\ (corpus data = [] -> fst out = TopMatches [])).
Proof.
  intros Hcolours Hhash. cbv zeta. unfold search_drawn_sigil_action.
  pose proof (load_step q) as Hl.
  set (q1 := match scanned_data_for_query q with
             | [] => load_scanned_data_for_query senv q
             | _ => q
             end) in *.
  assert (Hh : hashed q1 = hashed q).
  { subst q1. destruct (scanned_data_for_query q); auto.
    unfold load_scanned_data_for_query. destruct (stored_dataset senv); auto. }
  rewrite Hl. destruct (loaded senv q) as [|e data']; [left; auto|right].
  rewrite (empty_canvas_colourful drawn Hcolours), Hhash, collect_all.
  cbn [fst snd qlog hashed app]. rewrite Hh.
  split; [discriminate|]. split; [reflexivity|].
  split; [apply firstn_le_length|]. split; [apply sort_matches_perm|].
  split; [apply sort_matches_sorted|]. split; [intros; apply sort_matches_stable|].
  split; [eexists; reflexivity|]. split; [now rewrite <- app_assoc|].
  intros Hc. unfold candidates. now rewrite Hc.
Qed.

(** C4.  With the untouched canvas, the search never hashes anything,
    neither the drawing nor an image of the corpus, but it never answers
    that nothing is drawn either.  When no dataset is in memory and none
    can be loaded (or the dataset is an empty list) it answers, before
    looking at the canvas, that the data is not loaded; with a dataset at
    hand the canvas check of line 654 raises, and the handler is left
    with no answer at all. *)
Theorem blank_canvas_raises (q : Query) :
  let out := search_drawn_sigil_action senv q blank_canvas in
  hashed (snd out) = hashed q
  /\ fst out <> EmptyCanvas
  /\ ((loaded senv q = [] /\ fst out = NotLoaded)
      \/ (loaded senv q <> [] /\ fst out = Raised))
  /\ (scanned_data_for_query q <> [] -> fst out = Raised /\ snd out = q).
Proof.
  intros out. subst out. unfold search_drawn_sigil_action.
  pose proof (load_step q) as Hl.
  set (q1 := match scanned_data_for_query q with
             | [] => load_scanned_data_for_query senv q
             | _ => q
             end) in *.
  assert (Hh : hashed q1 = hashed q).
  { subst q1. destruct (scanned_data_for_query q); auto.
    unfold load_scanned_data_for_query. destruct (stored_dataset senv); auto. }
  rewrite Hl, empty_canvas_blank.
  destruct (loaded senv q) as [|e data'] eqn:Ed; cbn [fst snd]; rewrite Hh.
  - split; [reflexivity|]. split; [discriminate|]. split; [left; auto|].
    intros Hq. exfalso. unfold loaded in Ed.
    destruct (scanned_data_for_query q); [congruence|discriminate].
  - split; [reflexivity|]. split; [discriminate|].
    split; [right; split; [discriminate|reflexivity]|].
    intros Hq. split; [reflexivity|]. subst q1.
    destruct (scanned_data_for_query q); [congruence|reflexivity].
Qed.
End SearchFacts.

(** C3 as stated fails twice: a dataset that is an empty list gives the error
    that the data is not loaded, not an empty result; and a sigil whose image
    is missing is passed over without any warning. *)
Lemma empty_dataset_is_an_error :
  fst (search_drawn_sigil_action empty_dataset_disk query0 dotted_canvas) = NotLoaded
  /\ fst (search_drawn_sigil_action missing_image_disk query0 dotted_canvas) = TopMatches []
  /\ qlog (snd (search_drawn_sigil_action missing_image_disk query0 dotted_canvas))
     = [InfoLoaded 1].
Proof. repeat split; vm_compute; reflexivity. Qed.

(** The untouched canvas against a dataset of two sigils: the check raises. *)
Lemma blank_canvas_with_data :
  fst (search_drawn_sigil_action two_image_disk query0 blank_canvas) = Raised.
Proof. vm_compute. reflexivity. Qed.

(** ** Annotations of the vector strategy *)

Lemma Qeq_bool_sym (a b : Q) : Qeq_bool a b = Qeq_bool b a.
Proof.
  destruct (Qeq_bool a b) eqn:E1, (Qeq_bool b a) eqn:E2; auto.
  - apply Qeq_bool_iff in E1. symmetry in E1. apply Qeq_bool_iff in E1. congruence.
  - apply Qeq_bool_iff in E2. symmetry in E2. apply Qeq_bool_iff in E2. congruence.
Qed.

Lemma bbox_eqb_sym (a b : bbox) : bbox_eqb a b = bbox_eqb b a.
Proof.
  destruct a as [[[a0 a1] a2] a3], b as [[[b0 b1] b2] b3]. simpl.
  now rewrite (Qeq_bool_sym a0), (Qeq_bool_sym a1), (Qeq_bool_sym a2), (Qeq_bool_sym a3).
Qed.

Lemma dedupe_unique l : forall seen,
  Forall (fun v => existsb (bbox_eqb (rect v)) seen = false) (dedupe seen l)
  /\ ForallOrdPairs distinct_boxes (dedupe seen l).
Proof.
  induction l as [|v l IH]; intros seen; simpl.
  - split; constructor.
  - destruct (existsb (bbox_eqb (rect v)) seen) eqn:E; [apply IH|].
    destruct (IH (rect v :: seen)) as [H1 H2]. split.
    + constructor; auto. eapply Forall_impl; [|exact H1].
      simpl. intros w Hw. apply orb_false_iff in Hw. tauto.
    + constructor; auto. eapply Forall_impl; [|exact H1].
      simpl. intros w Hw. apply orb_false_iff in Hw. destruct Hw as [Hw _].
      unfold distinct_boxes. now rewrite bbox_eqb_sym.
Qed.

Lemma dedupe_keeps_first a v b : forall seen,
  existsb (bbox_eqb (rect v)) seen = false ->
  Forall (fun w => bbox_eqb (rect v) (rect w) = false) a ->
  In v (dedupe seen (a ++ v :: b)).
Proof.
  induction a as [|w a IH]; intros seen Hs Ha; simpl.
  - rewrite Hs. now left.
  - inversion Ha; subst.
    destruct (existsb (bbox_eqb (rect w)) seen); [now apply IH|].
    right. apply IH; auto. simpl. rewrite H1. exact Hs.
Qed.

(** The vector strategy does return annotations with pairwise different
    boxes, the first of each box being the one kept. *)
Lemma vector_annotations_unique {U : UnicodeDB} {D : Doubles} env st p fitz_page :
  ForallOrdPairs distinct_boxes
    (snd (fst (_extract_elements_from_plumber_page env st p fitz_page))).
Proof.
  unfold _extract_elements_from_plumber_page.
  destruct (page_text p); [constructor|].
  destruct (fold_left (plumber_line p) _ _) as [[entries ves] cur].
  destruct (fold_left (plumber_char env p fitz_page) _ _) as [[st' cur'] ves'].
  apply dedupe_unique.
Qed.

(** ** Instances *)

Lemma vector_geometry_witness :
  vector_candidate (text demo_char) = true
  /\ (0 <= fl (width demo_page / 2))%Q
  /\ plumber_char demo_env demo_page 0 (scan0, Some demo_entry, []) demo_char
     = store_glyph demo_env demo_page 0 scan0 demo_entry [] demo_char (9, 9, 13, 13)%Q.
Proof.
  assert (Hw : (0 <= fl (width demo_page / 2))%Q) by (vm_compute; discriminate).
  split; [reflexivity|]. split; [exact Hw|].
  apply (vector_geometry demo_env demo_page 0 scan0 (Some demo_entry) [] demo_char
           eq_refl Hw);
    [exact exact_doubles_on_integers|reflexivity..].
Defined.

(** C5 as stated fails: while no entry is open a candidate is dropped
    though its padded box is acceptable. *)
Lemma candidate_without_entry :
  vector_candidate (text demo_char) = true
  /\ padded_box demo_char = (9, 9, 13, 13)%Q
  /\ ~ out_of_bounds demo_page (padded_box demo_char)
  /\ plumber_char demo_env demo_page 0 (scan0, None, []) demo_char = (scan0, None, []).
Proof.
  split; [reflexivity|]. split; [reflexivity|]. split; [|reflexivity].
  intros [H|[H|[H|[H|[H|H]]]]]; vm_compute in H; discriminate H.
Qed.

Lemma similarity_search_witness :
  getcolors 1 dotted_canvas = None
  /\ phash_drawing two_image_disk dotted_canvas = Some 0
  /\ exists a b,
      fst (search_drawn_sigil_action two_image_disk query0 dotted_canvas)
      = TopMatches [a; b]
      /\ distance a = 1 /\ distance b = 2.
Proof.
  split; [reflexivity|]. split; [reflexivity|].
  destruct (similarity_search two_image_disk query0 dotted_canvas eq_refl eq_refl)
    as [[H _]|(_ & H & _)].
  - discriminate H.
  - rewrite H. eexists; eexists. split; [reflexivity|]. split; reflexivity.
Defined.

(** * Further properties *)

(** ** One entry per heading line *)

Section EntryCount.
Context {U : UnicodeDB}.
Context {D : Doubles}.
Variable env : Renderer.

Lemma titles_close entries cur :
  titles (close_current entries cur)
  = titles entries ++ match cur with
                      | Some c => [(oe_heading c, oe_class c)]
                      | None => []
                      end.
Proof.
  unfold titles. destruct cur; simpl; [|now rewrite List.app_nil_r].
  now rewrite map_app.
Qed.

Lemma titles_fold page ls : forall entries cur,
  titles (let '(es, c) := fold_left (segment_line page) ls (entries, cur) in
          close_current es c)
  = titles (close_current entries cur) ++ map announced (filter is_heading ls).
Proof.
  induction ls as [|l ls IH]; intros entries cur.
  - simpl. now rewrite List.app_nil_r.
  - cbn [fold_left filter]. unfold segment_line at 2.
    destruct (re_match HEADING_CLASS_RE l) as [m|] eqn:Em.
    + assert (Ha : announced l = (strip (group l m 1), strip (group l m 2)))
        by (unfold announced; now rewrite Em).
      rewrite (is_heading_some _ Em), IH. cbn [map]. rewrite Ha.
      rewrite (titles_close (close_current entries cur)).
      cbn [oe_heading oe_class open_entry]. now rewrite <- app_assoc.
    + rewrite (is_heading_none _ Em).
      destruct cur as [c|]; rewrite IH; rewrite !titles_close; reflexivity.
Qed.

Lemma titles_on_last ms l : titles (on_last ms l) = titles l.
Proof.
  unfold titles. destruct l as [|x l] using rev_ind; [reflexivity|].
  rewrite on_last_snoc, !map_app. reflexivity.
Qed.

(** X1.  The entries of a page are, in order, one per heading line: their
    headings and classes are those the heading lines announce, whatever
    lies between them; this holds for the segmenter and for the output of
    both strategies. *)
Theorem one_entry_per_heading_line (st : Scan) :
  (forall (page : Z) (raw : list str),
      titles (segment_page page raw)
      = map announced (filter is_heading (parsed_lines raw)))
  /\ (forall (p : PlumberPage) (fitz_page : Z),
      titles (fst (fst (_extract_elements_from_plumber_page env st p fitz_page)))
      = map announced (filter is_heading (parsed_lines (split_on 10 (page_text p)))))
  /\ (forall (number : Z) (data : list OcrRow),
      titles (fst (fst (_extract_elements_with_ocr env st number (Some data))))
      = map announced
          (filter is_heading
             (parsed_lines (ocr_lines (filter (fun r => Qltb (-1) (conf r)) data))))).
Proof.
  assert (H : forall page raw,
             titles (segment_page page raw)
             = map announced (filter is_heading (parsed_lines raw))).
  { intros page raw. unfold segment_page, segment_lines.
    apply (titles_fold page (parsed_lines raw) [] None). }
  split; [exact H|]. split.
  - intros p f. destruct (vector_entries env st p f) as (ms & E & _).
    now rewrite E, titles_on_last.
  - intros number data. destruct (raster_entries env st number data) as (ms & E & _).
    now rewrite E, titles_on_last.
Qed.
End EntryCount.

(** ** Text outside any entry; shape of headings and tags *)

Lemma lstrip_snoc a c : isspace c = false -> lstrip (a ++ [c]) = lstrip a ++ [c].
Proof.
  intros Hc. induction a as [|x a IH]; simpl; [now rewrite Hc|].
  destruct (isspace x); auto.
Qed.

Lemma rstrip_cons c s : isspace c = false -> rstrip (c :: s) = c :: rstrip s.
Proof.
  intros Hc. unfold rstrip. simpl. rewrite lstrip_snoc by auto.
  now rewrite rev_app_distr.
Qed.

Lemma rstrip_snoc a c : isspace c = false -> rstrip (a ++ [c]) = a ++ [c].
Proof.
  intros Hc. unfold rstrip. rewrite rev_app_distr. simpl. rewrite Hc.
  simpl. now rewrite rev_involutive.
Qed.

Lemma lstrip_forall (P : char -> Prop) s : Forall P s -> Forall P (lstrip s).
Proof.
  induction 1 as [|x s Hx Hs IH]; simpl; [constructor|].
  destruct (isspace x); auto.
Qed.

Lemma rstrip_forall (P : char -> Prop) s : Forall P s -> Forall P (rstrip s).
Proof.
  intros H. unfold rstrip. apply Forall_rev, lstrip_forall, Forall_rev, H.
Qed.

Lemma strip_cons c s : isspace c = false -> strip (c :: s) = c :: rstrip s.
Proof. intros Hc. unfold strip. simpl. rewrite Hc. now apply rstrip_cons. Qed.

Lemma in_range_spec lo hi c : in_range lo hi c = true <-> lo <= c <= hi.
Proof. unfold in_range. rewrite andb_true_iff, !N.leb_le. tauto. Qed.

Lemma isspace_spec c :
  isspace c = true ->
  9 <= c <= 13 \/ 28 <= c <= 32 \/ c = 133 \/ c = 160 \/ c = 5760
  \/ 8192 <= c <= 8202 \/ c = 8232 \/ c = 8233 \/ c = 8239 \/ c = 8287 \/ c = 12288.
Proof.
  unfold isspace. rewrite !orb_true_iff, !in_range_spec, !N.eqb_eq. tauto.
Qed.

Lemma upper_not_space c : ascii_upper c = true -> isspace c = false.
Proof.
  unfold ascii_upper. rewrite in_range_spec. intros H.
  apply not_true_is_false. intros Hs. apply isspace_spec in Hs. lia.
Qed.

Lemma first_not_space c : heading_first c = true -> isspace c = false.
Proof.
  unfold heading_first, ascii_upper, ascii_digit.
  rewrite orb_true_iff, !in_range_spec. intros H.
  apply not_true_is_false. intros Hs. apply isspace_spec in Hs. lia.
Qed.

Section Titles.
Context {U : UnicodeDB}.
Context {D : Doubles}.
Variable env : Renderer.

Lemma parsed_lines_app a b : parsed_lines (a ++ b) = parsed_lines a ++ parsed_lines b.
Proof. unfold parsed_lines. now rewrite map_app, filter_app. Qed.

Lemma orphans_fold page ls :
  Forall (fun l => is_heading l = false) ls ->
  fold_left (segment_line page) ls ([], None) = ([], None).
Proof.
  induction 1 as [|l ls Hl _ IH]; [reflexivity|].
  cbn [fold_left]. unfold segment_line at 2. unfold is_heading in Hl.
  destruct (re_match HEADING_CLASS_RE l); [discriminate|exact IH].
Qed.

Lemma orphans_dropped page pre rest :
  Forall (fun l => is_heading (strip l) = false) pre ->
  segment_page page (pre ++ rest) = segment_page page rest.
Proof.
  intros H. unfold segment_page, segment_lines.
  rewrite parsed_lines_app, fold_left_app, orphans_fold; [reflexivity|].
  unfold parsed_lines. apply Forall_forall. intros l Hl.
  apply filter_In in Hl. destruct Hl as [Hl _]. apply in_map_iff in Hl.
  destruct Hl as (l0 & <- & Hl0). rewrite Forall_forall in H. now apply H.
Qed.

(** X2.  Lines that come before the first heading line of a page belong to
    no entry and are dropped, whatever they say: the segmenter returns the
    same entries without them, and so does a page under either strategy,
    glyph records apart (they are attached once the lines are segmented,
    and are not looked at here). *)
Theorem text_before_first_heading_is_dropped (pre rest : list str) :
  Forall (fun l => is_heading (strip l) = false) pre ->
  (forall page, segment_page page (pre ++ rest) = segment_page page rest)
  /\ (forall (st st' : Scan) (p p' : PlumberPage) (fitz_page fitz_page' : Z),
        pp_number p = pp_number p' ->
        split_on 10 (page_text p) = pre ++ rest ->
        split_on 10 (page_text p') = rest ->
        map core (fst (fst (_extract_elements_from_plumber_page env st p fitz_page)))
        = map core (fst (fst (_extract_elements_from_plumber_page env st' p' fitz_page'))))
  /\ (forall (st st' : Scan) (number : Z) (data data' : list OcrRow),
        ocr_lines (filter (fun r => Qltb (-1) (conf r)) data) = pre ++ rest ->
        ocr_lines (filter (fun r => Qltb (-1) (conf r)) data') = rest ->
        map core (fst (fst (_extract_elements_with_ocr env st number (Some data))))
        = map core (fst (fst (_extract_elements_with_ocr env st' number (Some data'))))).
Proof.
  intros H. split; [|split].
  - intros page. now apply orphans_dropped.
  - intros st st' p p' f f' Hn Hp Hp'.
    destruct (vector_entries env st p f) as (ms & E & _).
    destruct (vector_entries env st' p' f') as (ms' & E' & _).
    rewrite E, E', !map_core_on_last, Hp, Hp', Hn. f_equal.
    now apply orphans_dropped.
  - intros st st' n d d' Hd Hd'.
    destruct (raster_entries env st n d) as (ms & E & _).
    destruct (raster_entries env st' n d') as (ms' & E' & _).
    rewrite E, E', !map_core_on_last, Hd, Hd'. f_equal.
    now apply orphans_dropped.
Qed.

Lemma block_well_titled page h body e :
  entry_of_block page h body e -> well_titled page e.
Proof.
  intros (m & Hm & Hh & Hc & Hp & _).
  destruct (heading_match_sound _ Hm)
    as (g1 & ws & g2 & rest & [_ (c & run & -> & Hc1 & _ & Hrun) _ (t & lows & -> & Ht & Hl & Hlow)]
        & H1 & H2 & _).
  rewrite H1 in Hh. rewrite H2 in Hc. repeat split; auto.
  - exists c, (rstrip run). rewrite Hh, strip_cons by now apply first_not_space.
    repeat split; auto.
    + now apply rstrip_forall.
    + intros u x E. rewrite <- strip_cons in E by now apply first_not_space.
      now apply strip_last in E.
  - exists t, lows. rewrite Hc, strip_cons by now apply upper_not_space.
    rewrite rstrip_snoc by reflexivity. auto.
Qed.

(** X3.  Every entry returned for a page, by the segmenter or by either
    strategy, has a non-empty heading that starts with an uppercase letter
    or a digit, contains only characters of the heading class and does not
    end with whitespace; its class is an uppercase letter, one to three
    lowercase letters and a full stop; it carries the page's number. *)
Theorem entries_are_well_titled (st : Scan) :
  (forall (page : Z) (raw : list str) (e : Entry),
      In e (segment_page page raw) -> well_titled page e)
  /\ (forall (p : PlumberPage) (fitz_page : Z) (e : Entry),
      In e (fst (fst (_extract_elements_from_plumber_page env st p fitz_page))) ->
      well_titled (pp_number p) e)
  /\ (forall (number : Z) (data : list OcrRow) (e : Entry),
      In e (fst (fst (_extract_elements_with_ocr env st number (Some data)))) ->
      well_titled (number + 1) e).
Proof.
  split; [|split].
  - intros page raw e Hin.
    destruct (segment_page_blocks page raw e Hin) as (h & body & _ & Hb).
    eapply block_well_titled; eauto.
  - intros p f e Hin. destruct (vector_entries env st p f) as (ms & E & _).
    rewrite E in Hin. apply on_last_blocks in Hin.
    destruct Hin as (h & body & _ & Hb). eapply block_well_titled; eauto.
  - intros n d e Hin. destruct (raster_entries env st n d) as (ms & E & _).
    rewrite E in Hin. apply on_last_blocks in Hin.
    destruct Hin as (h & body & _ & Hb). eapply block_well_titled; eauto.
Qed.
End Titles.

Lemma text_before_first_heading_is_dropped_witness :
  Forall (fun l => is_heading (strip l) = false) orphan_lines
  /\ segment_page 1 (orphan_lines ++ foo_bar_lines) = segment_page 1 foo_bar_lines.
Proof.
  assert (H : Forall (fun l => is_heading (strip l) = false) orphan_lines)
    by (repeat constructor).
  split; [exact H|].
  exact (proj1 (@text_before_first_heading_is_dropped ascii_db exact_doubles demo_env
                  orphan_lines foo_bar_lines H) 1%Z).
Defined.

(** ** References *)

Lemma str_eqb_eq a : forall b, str_eqb a b = true <-> a = b.
Proof.
  induction a as [|x a IH]; intros [|y b]; simpl; split; try discriminate; auto.
  - rewrite andb_true_iff, N.eqb_eq, IH. intros [-> ->]. reflexivity.
  - intros [= -> ->]. rewrite N.eqb_refl. now apply IH.
Qed.

Lemma str_ltb_irrefl a : str_ltb a a = false.
Proof.
  induction a as [|x a IH]; simpl; auto.
  now rewrite N.ltb_irrefl, N.eqb_refl, IH.
Qed.

Lemma str_ltb_trans a : forall b c,
  str_ltb a b = true -> str_ltb b c = true -> str_ltb a c = true.
Proof.
  induction a as [|x a IH]; intros [|y b] [|z c]; simpl; try discriminate; auto.
  rewrite !orb_true_iff, !andb_true_iff, !N.ltb_lt, !N.eqb_eq.
  intros [H1|[-> H1]] [H2|[-> H2]]; try (left; lia).
  right. split; auto. eapply IH; eauto.
Qed.

Lemma str_ltb_total a : forall b,
  str_ltb a b = false -> str_eqb a b = false -> str_ltb b a = true.
Proof.
  induction a as [|x a IH]; intros [|y b]; simpl; try discriminate; auto.
  intros H1 H2. apply orb_false_iff in H1. destruct H1 as [Hlt Hand].
  destruct (x =? y) eqn:Exy.
  - apply N.eqb_eq in Exy. subst. simpl in *.
    rewrite N.ltb_irrefl, N.eqb_refl. simpl. now apply IH.
  - apply N.eqb_neq in Exy. apply N.ltb_ge in Hlt.
    assert (H : (y <? x) = true) by (apply N.ltb_lt; lia).
    now rewrite H.
Qed.

Lemma insert_sorted_in x y l : In x (insert_sorted y l) <-> x = y \/ In x l.
Proof.
  induction l as [|z l IH]; simpl; [intuition congruence|].
  destruct (str_ltb y z); simpl; [intuition congruence|].
  destruct (str_eqb y z) eqn:E; simpl.
  - apply str_eqb_eq in E. subst. intuition congruence.
  - rewrite IH. intuition congruence.
Qed.

Lemma sorted_set_in x l : In x (sorted_set l) <-> In x l.
Proof.
  induction l as [|y l IH]; simpl; [tauto|].
  rewrite insert_sorted_in, IH. intuition congruence.
Qed.

Lemma insert_sorted_sorted y l :
  StronglySorted str_lt l -> StronglySorted str_lt (insert_sorted y l).
Proof.
  induction 1 as [|z l Hs IH Hz]; simpl.
  - constructor; constructor.
  - destruct (str_ltb y z) eqn:E1.
    + constructor; [now constructor|]. constructor; [exact E1|].
      eapply Forall_impl; [|exact Hz]. intros a Ha. eapply str_ltb_trans; eauto.
    + destruct (str_eqb y z) eqn:E2; [now constructor|].
      constructor; auto. apply Forall_forall. intros a Ha.
      apply insert_sorted_in in Ha. destruct Ha as [->|Ha].
      * now apply str_ltb_total.
      * rewrite Forall_forall in Hz. now apply Hz.
Qed.

Lemma sorted_set_sorted l : StronglySorted str_lt (sorted_set l).
Proof.
  induction l as [|y l IH]; simpl; [constructor|]. now apply insert_sorted_sorted.
Qed.

Lemma str_sorted_nodup l : StronglySorted str_lt l -> NoDup l.
Proof.
  induction 1 as [|a l Hs IH Ha]; constructor; auto.
  intros Hin. rewrite Forall_forall in Ha. specialize (Ha a Hin).
  unfold str_lt in Ha. now rewrite str_ltb_irrefl in Ha.
Qed.

Section References.
Context {U : UnicodeDB}.
Context {D : Doubles}.
Variable env : Renderer.

Lemma extract_references_well d :
  StronglySorted str_lt (extract_references d)
  /\ NoDup (extract_references d)
  /\ (forall r, In r (extract_references d) <-> In r (citations d)).
Proof.
  unfold extract_references. split; [apply sorted_set_sorted|]. split.
  - apply str_sorted_nodup, sorted_set_sorted.
  - intros r. apply sorted_set_in.
Qed.

Lemma block_well_referenced page h body e :
  entry_of_block page h body e -> well_referenced e.
Proof.
  intros (m & _ & _ & _ & _ & _ & Hr). unfold well_referenced. rewrite Hr.
  apply extract_references_well.
Qed.

(** X4.  The references of every entry returned for a page are in strictly
    increasing code point order, hence without repetition, and they are
    exactly the trimmed matches of the bibliography pattern in the entry's
    final description. *)
Theorem references_are_a_sorted_set (st : Scan) :
  (forall (page : Z) (raw : list str) (e : Entry),
      In e (segment_page page raw) -> well_referenced e)
  /\ (forall (p : PlumberPage) (fitz_page : Z) (e : Entry),
      In e (fst (fst (_extract_elements_from_plumber_page env st p fitz_page))) ->
      well_referenced e)
  /\ (forall (number : Z) (data : list OcrRow) (e : Entry),
      In e (fst (fst (_extract_elements_with_ocr env st number (Some data)))) ->
      well_referenced e).
Proof.
  split; [|split].
  - intros page raw e Hin.
    destruct (segment_page_blocks page raw e Hin) as (h & body & _ & Hb).
    eapply block_well_referenced; eauto.
  - intros p f e Hin. destruct (vector_entries env st p f) as (ms & E & _).
    rewrite E in Hin. apply on_last_blocks in Hin.
    destruct Hin as (h & body & _ & Hb). eapply block_well_referenced; eauto.
  - intros n d e Hin. destruct (raster_entries env st n d) as (ms & E & _).
    rewrite E in Hin. apply on_last_blocks in Hin.
    destruct Hin as (h & body & _ & Hb). eapply block_well_referenced; eauto.
Qed.
End References.

Section Citations.
Context {U : UnicodeDB}.
Context {D : Doubles}.
Variable env : Renderer.

Lemma cls_name c :
  cls_match (cset [CRange (ch "A") (ch "Z"); CRange (ch "a") (ch "z"); CSpace]) c
  = name_char c.
Proof.
  unfold name_char, ascii_upper, ascii_lower. cbn.
  now rewrite orb_false_r, orb_assoc.
Qed.

Lemma cls_digit c : cls_match (cset [CDigit]) c = isdecimal_c c.
Proof. cbn. now rewrite orb_false_r. Qed.

Lemma cls_capital_c c : cls_match (cset [CChar (ch "C")]) c = (c =? ch "C").
Proof. cbn. now rewrite orb_false_r. Qed.

Lemma biblio_match_sound i s m :
  match_at BIBLIO_RE i s = Some m ->
  exists txt rest, s = txt ++ rest /\ m_start m = i
                   /\ m_end m = (i + length txt)%nat /\ citation_shaped txt.
Proof.
  unfold match_at, BIBLIO_RE, biblio_name. cbn [run].
  destruct s as [|c s]; [discriminate|].
  rewrite cls_upper. destruct (ascii_upper c) eqn:Hc; [|discriminate].
  intros H.
  match type of H with
  | match ?a with Some x => Some x | None => ?b end = _ =>
      destruct a as [m1|] eqn:E1; [injection H as ->|rename H into E2]
  end.
  - apply rep_lazy_sound in E1. destruct E1 as (u & v & -> & Hlen & Hall & Hk & _).
    destruct v as [|c1 v]; [discriminate|].
    rewrite cls_space in Hk. destruct (isspace c1) eqn:Hs; [|discriminate].
    apply rep_greedy_sound in Hk. destruct Hk as (u2 & v2 & -> & Hlen2 & Hall2 & Hk).
    injection Hk as <-. exists (c :: u ++ c1 :: u2), v2. cbn [m_start m_end].
    split; [cbn [app]; repeat (rewrite <- app_assoc; cbn [app]); reflexivity|]. split; [reflexivity|].
    split; [simpl; rewrite length_app; simpl; lia|].
    exists c, u, c1, u2. repeat split; auto.
    + intros ->. simpl in Hlen. lia.
    + now apply (all_in_ext _ _ _ cls_name).
    + left. split; [lia|]. now apply (all_in_ext _ _ _ cls_digit).
  - apply rep_lazy_sound in E2. destruct E2 as (u & v & -> & Hlen & Hall & Hk & _).
    destruct v as [|c1 v]; [discriminate|].
    rewrite cls_space in Hk. destruct (isspace c1) eqn:Hs; [|discriminate].
    apply rep_greedy_sound in Hk. destruct Hk as (u2 & v2 & -> & Hlen2 & Hall2 & Hk).
    destruct v2 as [|c2 v2]; [discriminate|].
    rewrite cls_capital_c in Hk. destruct (c2 =? ch "C") eqn:Hcc; [|discriminate].
    apply N.eqb_eq in Hcc. subst c2.
    injection Hk as <-. exists (c :: u ++ c1 :: u2 ++ [ch "C"]), v2. cbn [m_start m_end].
    split; [cbn [app]; repeat (rewrite <- app_assoc; cbn [app]); reflexivity|]. split; [reflexivity|].
    split; [simpl; rewrite !length_app; simpl; rewrite length_app; simpl; lia|].
    exists c, u, c1, (u2 ++ [ch "C"]). repeat split; auto.
    + intros ->. simpl in Hlen. lia.
    + now apply (all_in_ext _ _ _ cls_name).
    + right. exists u2. repeat split; try lia.
      now apply (all_in_ext _ _ _ cls_digit).
Qed.

Lemma search_from_sound r s : forall i m,
  search_from r i s = Some m ->
  exists k, match_at r (i + k) (skipn k s) = Some m.
Proof.
  induction s as [|c s IH]; intros i m; simpl.
  - destruct (match_at r i []) eqn:E; [|discriminate].
    intros [= <-]. exists 0%nat. now rewrite Nat.add_0_r.
  - destruct (match_at r i (c :: s)) eqn:E.
    + intros [= <-]. exists 0%nat. now rewrite Nat.add_0_r.
    + intros H. apply IH in H. destruct H as [k H]. exists (S k).
      now rewrite Nat.add_succ_r.
Qed.

Lemma decimal_not_space c :
  digits_not_blank -> isdecimal_c c = true -> isspace c = false.
Proof.
  intros H. unfold isdecimal_c. destruct (c <? 128); [|apply H].
  unfold ascii_digit. rewrite in_range_spec. intros Hd.
  apply not_true_is_false. intros Hs. apply isspace_spec in Hs. lia.
Qed.

Lemma snoc_of_nonempty (A : Type) (l : list A) :
  l <> [] -> exists l' x, l = l' ++ [x].
Proof.
  destruct l as [|a l] using rev_ind; [congruence|]. intros _. eauto.
Qed.

Lemma citation_is_trimmed r :
  digits_not_blank -> citation_shaped r -> strip r = r.
Proof.
  intros Hd (c & name & sp & num & -> & Hc & _ & _ & _ & Hnum).
  rewrite strip_cons by now apply upper_not_space. f_equal.
  assert (Hl : exists num' x, num = num' ++ [x] /\ isspace x = false).
  { destruct Hnum as [[Hlen Hall]|(ds & -> & _ & _)].
    - destruct (@snoc_of_nonempty _ num) as (num' & x & ->).
      { intros ->. discriminate. }
      exists num', x. split; auto. apply decimal_not_space; auto.
      apply Forall_app in Hall. destruct Hall as [_ Hx]. now inversion Hx.
    - exists ds, (ch "C"). auto. }
  destruct Hl as (num' & x & -> & Hx).
  replace (name ++ sp :: num' ++ [x]) with ((name ++ sp :: num') ++ [x])
    by now rewrite <- app_assoc.
  now apply rstrip_snoc.
Qed.

Lemma finditer_sound d fuel : forall i m,
  In m (finditer_from fuel BIBLIO_RE i (skipn i d)) ->
  exists pre txt post, d = pre ++ txt ++ post /\ length pre = m_start m
                       /\ m_end m = (m_start m + length txt)%nat
                       /\ citation_shaped txt.
Proof.
  induction fuel as [|fuel IH]; intros i m; [intros []|].
  cbn [finditer_from].
  destruct (search_from BIBLIO_RE i (skipn i d)) as [m0|] eqn:E; [|intros []].
  apply search_from_sound in E. destruct E as [k E].
  rewrite skipn_skipn in E.
  destruct (biblio_match_sound _ _ E) as (txt & rest & Hs & Hst & Hen & Hshape).
  assert (Hne : txt <> []).
  { destruct Hshape as (c & name & sp & num & -> & _). discriminate. }
  assert (Hlen : (length (firstn (i + k) d) = i + k)%nat).
  { apply firstn_length_le.
    destruct (Nat.le_gt_cases (i + k) (length d)) as [|Hgt]; auto.
    rewrite Nat.add_comm in Hs. rewrite skipn_all2 in Hs by lia.
    destruct txt; [congruence|discriminate]. }
  intros [<-|Hin].
  - exists (firstn (i + k) d), txt, rest.
    rewrite <- Hs, (Nat.add_comm k i), firstn_skipn. repeat split; auto.
    + now rewrite Hst.
    + now rewrite Hst.
  - assert (Hj : (if Nat.eqb (m_end m0) (m_start m0) then S (m_end m0) else m_end m0)
                 = m_end m0).
    { destruct (Nat.eqb_spec (m_end m0) (m_start m0)) as [He|]; auto.
      exfalso. destruct txt; [congruence|]. simpl in Hen. lia. }
    rewrite Hj, skipn_skipn in Hin.
    replace (m_end m0 - i + i)%nat with (m_end m0) in Hin by lia.
    now apply IH in Hin.
Qed.

Lemma citations_sound d r :
  digits_not_blank -> In r (citations d) ->
  citation_shaped r /\ exists pre post, d = pre ++ r ++ post.
Proof.
  intros Hd Hin. unfold citations, finditer in Hin.
  apply in_map_iff in Hin. destruct Hin as (m & <- & Hin).
  apply (finditer_sound d (S (length d)) 0) in Hin.
  destruct Hin as (pre & txt & post & Hs & Hst & Hen & Hshape).
  assert (Hg : group0 d m = txt).
  { unfold group0. rewrite Hen, <- Hst. rewrite Hs at 1. apply substr_mid. }
  rewrite Hg, citation_is_trimmed by auto. split; auto. eauto.
Qed.

Lemma block_cites_its_text page h body e :
  digits_not_blank -> entry_of_block page h body e -> cites_its_text e.
Proof.
  intros Hd (m & _ & _ & _ & _ & _ & Hr) r Hin.
  rewrite Hr in Hin. apply extract_references_well in Hin.
  now apply citations_sound.
Qed.

(** X5.  Provided the Unicode table counts no whitespace character as a
    decimal digit, every reference of every entry returned for a page
    stands verbatim in the entry's description, and reads: an uppercase
    letter, letters and blanks, one blank, then four digits, or one or two
    digits and a capital C. *)
Theorem references_are_citations_of_the_text (st : Scan) :
  digits_not_blank ->
  (forall (page : Z) (raw : list str) (e : Entry),
      In e (segment_page page raw) -> cites_its_text e)
  /\ (forall (p : PlumberPage) (fitz_page : Z) (e : Entry),
      In e (fst (fst (_extract_elements_from_plumber_page env st p fitz_page))) ->
      cites_its_text e)
  /\ (forall (number : Z) (data : list OcrRow) (e : Entry),
      In e (fst (fst (_extract_elements_with_ocr env st number (Some data)))) ->
      cites_its_text e).
Proof.
  intros Hd. split; [|split].
  - intros page raw e Hin.
    destruct (segment_page_blocks page raw e Hin) as (h & body & _ & Hb).
    eapply block_cites_its_text; eauto.
  - intros p f e Hin. destruct (vector_entries env st p f) as (ms & E & _).
    rewrite E in Hin. apply on_last_blocks in Hin.
    destruct Hin as (h & body & _ & Hb). eapply block_cites_its_text; eauto.
  - intros n d e Hin. destruct (raster_entries env st n d) as (ms & E & _).
    rewrite E in Hin. apply on_last_blocks in Hin.
    destruct Hin as (h & body & _ & Hb). eapply block_cites_its_text; eauto.
Qed.
End Citations.

Lemma references_are_citations_of_the_text_witness :
  @digits_not_blank ascii_db
  /\ forall e, In e (segment_page 7 [abracadabra]) -> cites_its_text e.
Proof.
  assert (H : @digits_not_blank ascii_db) by (intros c Hc; discriminate Hc).
  split; [exact H|].
  intros e. apply (references_are_citations_of_the_text demo_env scan0 H).
Defined.

(** ** File names of the store *)

Section FileNames.
Context {U : UnicodeDB}.
Context {D : Doubles}.
Variable env : Renderer.

Lemma sub_class_safe s :
  Forall (fun c => filename_safe c = true) (sub_class unclean (ch "_") s).
Proof.
  unfold sub_class. apply Forall_forall. intros c Hin.
  apply in_map_iff in Hin. destruct Hin as (x & <- & _).
  destruct (cls_match unclean x) eqn:E; [reflexivity|].
  unfold cls_match, unclean, cnot in E.
  cbn [negated items existsb citem_match] in E.
  unfold filename_safe.
  change (ch "-") with 45 in *. change (ch ".") with 46 in *.
  change (ch " ") with 32 in *. change (ch "_") with 95 in *.
  destruct (isalnum_c x); [reflexivity|].
  destruct (x =? 95); [reflexivity|].
  destruct (x =? 45); [reflexivity|].
  destruct (x =? 46); [reflexivity|].
  destruct (x =? 32); [reflexivity|].
  discriminate E.
Qed.

Lemma digit_safe c : ascii_digit c = true -> filename_safe c = true.
Proof.
  intros H. unfold filename_safe, isalnum_c, ascii_alnum. rewrite H.
  unfold ascii_digit in H. apply in_range_spec in H.
  assert (Hc : (c <? 128) = true) by (apply N.ltb_lt; lia).
  now rewrite Hc.
Qed.

Lemma str_of_N_safe n : Forall (fun c => filename_safe c = true) (str_of_N n).
Proof.
  unfold str_of_N. eapply Forall_impl; [|apply digits_are_digits].
  apply digit_safe.
Qed.

Lemma str_of_Z_safe z : Forall (fun c => filename_safe c = true) (str_of_Z z).
Proof.
  destruct z; simpl; try apply str_of_N_safe.
  constructor; [reflexivity|apply str_of_N_safe].
Qed.

Lemma forallb_Forall_true (A : Type) (f : A -> bool) l :
  forallb f l = true -> Forall (fun c => f c = true) l.
Proof. intros H. apply Forall_forall. now apply forallb_forall. Qed.

Lemma img_filename_safe h p n :
  Forall (fun c => filename_safe c = true) (img_filename_of h p n).
Proof.
  unfold img_filename_of.
  apply Forall_app; split; [now apply forallb_Forall_true|].
  apply Forall_app; split; [apply sub_class_safe|].
  apply Forall_app; split; [now apply forallb_Forall_true|].
  apply Forall_app; split; [apply str_of_Z_safe|].
  apply Forall_app; split; [now apply forallb_Forall_true|].
  apply Forall_app; split; [apply str_of_N_safe|].
  now apply forallb_Forall_true.
Qed.

Lemma paths_from_shape calls : forall c path,
  In path (paths_from env c calls) ->
  exists h p n, path = OUTPUT_IMAGE_DIR ++ os_sep env :: img_filename_of h p n.
Proof.
  induction calls as [|k calls IH]; intros c path; cbn [paths_from];
    [intros []|].
  intros Hin. apply in_app_or in Hin. destruct Hin as [Hin|Hin].
  - destruct (sc_saved k); [|destruct Hin].
    destruct Hin as [<-|[]]. unfold path_join. eauto.
  - eapply IH; eauto.
Qed.

(** X6.  A sigil file name is made of alphanumeric characters, underscore,
    hyphen, dot and space only, and the part taken from the heading has
    the length of the heading, 30 at most.  So no name holds a slash or a
    backslash, and every file written by a scan lies directly in the output
    directory. *)
Theorem sigil_files_stay_in_the_output_directory :
  (forall (h : str) (p : Z) (n : N),
      Forall (fun c => filename_safe c = true) (img_filename_of h p n)
      /\ ~ In (ch "/") (img_filename_of h p n)
      /\ ~ In 92 (img_filename_of h p n)
      /\ length (sub_class unclean (ch "_") (firstn 30 h)) = Nat.min 30 (length h))
  /\ (forall (use_ocr : bool) (doc : list PageInput) (s e : Z) (st0 : Scan),
      exists new,
        written (fst (run_scan env use_ocr doc s e st0)) = written st0 ++ new
        /\ forall path, In path new ->
             exists name, path = OUTPUT_IMAGE_DIR ++ os_sep env :: name
                          /\ Forall (fun c => filename_safe c = true) name).
Proof.
  split.
  - intros h p n. pose proof (img_filename_safe h p n) as H.
    rewrite Forall_forall in H. repeat split.
    + now apply Forall_forall.
    + intros Hin. apply H in Hin. discriminate Hin.
    + intros Hin. apply H in Hin. discriminate Hin.
    + unfold sub_class. now rewrite length_map, length_firstn.
  - intros use_ocr doc s e st0. unfold run_scan.
    destruct (worker_progresses env use_ocr doc s e (start_scan_thread st0))
      as (calls & _ & _ & W).
    exists (paths_from env 0 calls). split; [exact W|].
    intros path Hin. apply paths_from_shape in Hin.
    destruct Hin as (h & p & n & ->). eexists. split; [reflexivity|].
    apply img_filename_safe.
Qed.
End FileNames.

(** ** Where the metadata records come from *)

Lemma Qmax0_ge (d : Q) : (d <= Qmax0 d)%Q.
Proof.
  unfold Qmax0. destruct (Qltb 0 d) eqn:E; [apply Qle_refl|now apply Qltb_ge].
Qed.

Section Provenance.
Context {U : UnicodeDB}.
Context {D : Doubles}.
Variable env : Renderer.

Lemma accepted_within p c :
  rejects p (pad (char_rect c)) = false -> within_limits p (padded_box c).
Proof.
  unfold rejects, within_limits, padded_box, rect_width, rect_height.
  unfold pad, char_rect, padding. cbn [rx0 ry0 rx1 ry1].
  rewrite !orb_false_iff.
  intros [[[[[H1 H2] H3] H4] H5] H6].
  apply Qltb_ge in H1, H2, H3, H4, H5, H6.
  repeat split; auto.
  - eapply Qle_trans; [apply Qmax0_ge|exact H5].
  - eapply Qle_trans; [apply Qmax0_ge|exact H6].
Qed.

Lemma plumber_char_records p fitz st c :
  In c (chars p) ->
  Forall (vector_record p) (sigils_of (snd (fst st))) ->
  Forall (vector_record p) (sigils_of (snd (fst (plumber_char env p fitz st c)))).
Proof.
  intros Hin H. destruct st as [[sc cur] ves]. unfold plumber_char.
  destruct (vector_candidate (text c)) eqn:Hc; [|exact H].
  destruct cur as [e|]; [|exact H].
  fold (char_rect c).
  destruct (rejects p _) eqn:R; [exact H|].
  destruct (_save_sigil_image _ _ _ _ _ _) as [[path|] sc']; [|exact H].
  cbn [fst snd sigils_of add_sigil_open oe_sigils] in *.
  apply Forall_app. split; [exact H|]. constructor; [|constructor].
  exists c. split; [exact Hin|]. split; [exact Hc|].
  split; [reflexivity|]. split; [reflexivity|]. now apply accepted_within.
Qed.

Lemma plumber_chars_records p fitz cs : forall st,
  incl cs (chars p) ->
  Forall (vector_record p) (sigils_of (snd (fst st))) ->
  Forall (vector_record p)
         (sigils_of (snd (fst (fold_left (plumber_char env p fitz) cs st)))).
Proof.
  induction cs as [|c cs IH]; intros st Hi H; [exact H|].
  cbn [fold_left]. apply IH.
  - intros x Hx. apply Hi. now right.
  - apply plumber_char_records; auto. apply Hi. now left.
Qed.

Lemma segment_lines_fresh page ls : forall st,
  no_sigils (fst st) ->
  (forall e, snd st = Some e -> oe_sigils e = []) ->
  no_sigils (fst (segment_lines page st ls))
  /\ (forall e, snd (segment_lines page st ls) = Some e -> oe_sigils e = []).
Proof.
  unfold segment_lines.
  induction (parsed_lines ls) as [|x l IH]; intros st H1 H2; [auto|].
  cbn [fold_left]. destruct (@segment_line_fresh _ page st x H1 H2). apply IH; auto.
Qed.

Lemma in_attach page m l e :
  In e (attach page m l) -> In e l \/ exists e0, In e0 l /\ e = add_sigil e0 m.
Proof.
  unfold attach. intros Hin. apply in_rev in Hin.
  assert (H : forall r, In e (attach_rev page m r) ->
                        In e r \/ exists e0, In e0 r /\ e = add_sigil e0 m).
  { induction r as [|x r IH]; cbn [attach_rev]; [intros []|].
    destruct (page_number x =? page)%Z.
    - intros [<-|Hr]; [right; exists x; split; [now left|reflexivity]|left; now right].
    - intros [<-|Hr]; [left; now left|].
      destruct (IH Hr) as [Hl|(e0 & He0 & ->)]; [left; now right|].
      right. exists e0. split; [now right|reflexivity]. }
  destruct (H _ Hin) as [Hl|(e0 & He0 & ->)].
  - left. now apply in_rev.
  - right. exists e0. split; [now apply in_rev|reflexivity].
Qed.

Lemma ocr_row_records data number st row :
  In row data -> (-1 < conf row)%Q ->
  records_ok (raster_record data) (snd (fst st)) ->
  records_ok (raster_record data) (snd (fst (ocr_row env number st row))).
Proof.
  intros Hin Hconf H. destruct st as [[sc entries] ves]. unfold ocr_row.
  destruct (o_text row) as [t|] eqn:Et; [|exact H].
  unfold row_text. rewrite Et.
  destruct (strip t) as [|c0 txt] eqn:Es; [exact H|].
  destruct (existsb _ _); [exact H|].
  destruct (re_search BIBLIO_RE (c0 :: txt)) eqn:Eb; [exact H|].
  destruct (raster_candidate (c0 :: txt)) eqn:Ec; [|exact H].
  destruct (active_entry _ _) as [a|]; [|exact H].
  destruct (_save_sigil_image _ _ _ _ _ _) as [[path|] sc']; [|exact H].
  cbn [fst snd] in *. intros e m He Hm.
  apply in_attach in He. destruct He as [He|(e0 & He0 & ->)]; [eauto|].
  cbn [add_sigil sigils_metadata] in Hm. apply in_app_or in Hm.
  destruct Hm as [Hm|[<-|[]]]; [eauto|].
  exists row, t. rewrite Es. repeat split; auto.
Qed.

Lemma ocr_rows_records data number rows : forall st,
  incl rows (filter (fun r => Qltb (-1) (conf r)) data) ->
  records_ok (raster_record data) (snd (fst st)) ->
  records_ok (raster_record data)
             (snd (fst (fold_left (ocr_row env number) rows st))).
Proof.
  induction rows as [|r rows IH]; intros st Hi H; [exact H|].
  cbn [fold_left]. apply IH.
  - intros x Hx. apply Hi. now right.
  - assert (Hr : In r (filter (fun r => Qltb (-1) (conf r)) data))
      by (apply Hi; now left).
    apply filter_In in Hr. destruct Hr as [Hr Hc].
    apply ocr_row_records; auto. now apply Qltb_lt.
Qed.

(** X7.  Every metadata record found in the entries a page returns stems
    from the page.  Under the vector strategy its source text is a
    one-character candidate of the page and its box is the box of that
    character padded by 1 on each side, each of the four operations
    being one on doubles; the box lies within the page, and its width
    and its height, taken in doubles, are at most half the page width,
    taken in doubles too, and 50.  Under the raster strategy it is the
    pixel box, divided by the zoom, of a token of confidence above -1
    that passes the symbol pattern and holds no citation. *)
Theorem records_stem_from_the_page (st : Scan) :
  (forall (p : PlumberPage) (fitz_page : Z) (e : Entry) (m : SigilMetadata),
      In e (fst (fst (_extract_elements_from_plumber_page env st p fitz_page))) ->
      In m (sigils_metadata e) -> vector_record p m)
  /\ (forall (number : Z) (data : list OcrRow) (e : Entry) (m : SigilMetadata),
      In e (fst (fst (_extract_elements_with_ocr env st number (Some data)))) ->
      In m (sigils_metadata e) -> raster_record data m).
Proof.
  split.
  - intros p fitz e m. unfold _extract_elements_from_plumber_page.
    destruct (page_text p) as [|c0 txt] eqn:Etxt; [intros []|].
    pose proof (plumber_lines_segment p (split_on 10 (c0 :: txt)) ([], [], None)) as Hseg.
    destruct (fold_left (plumber_line p) _ _) as [[entries ves] cur] eqn:Efold.
    unfold vproj in Hseg. cbn [fst snd] in Hseg.
    destruct (@segment_lines_fresh (pp_number p) (split_on 10 (c0 :: txt)) ([], None))
      as [F1 F2]; [constructor|discriminate|].
    rewrite <- Hseg in F1, F2. cbn [fst snd] in F1, F2.
    pose proof (@plumber_chars_records p fitz (chars p) (st, cur, ves)
                  (incl_refl _)) as Hrec.
    cbn [fst snd] in Hrec.
    destruct (fold_left (plumber_char env p fitz) _ _) as [[st' cur'] ves'].
    cbn [fst snd] in *.
    assert (Hc : Forall (vector_record p) (sigils_of cur')).
    { apply Hrec. destruct cur as [e0|]; simpl; [|constructor].
      rewrite (F2 e0 eq_refl). constructor. }
    intros He Hm. unfold close_current in He.
    assert (Hold : In e entries -> vector_record p m).
    { intros Hin. unfold no_sigils in F1. rewrite Forall_forall in F1.
      rewrite (F1 e Hin) in Hm. destruct Hm. }
    destruct cur' as [e'|]; [|auto].
    apply in_app_or in He. destruct He as [He|[<-|[]]]; [auto|].
    simpl in Hc, Hm. rewrite Forall_forall in Hc. auto.
  - intros number data e m. unfold _extract_elements_with_ocr.
    pose proof (@ocr_rows_records data number
                  (filter (fun r => Qltb (-1) (conf r)) data)
                  (st, segment_page (number + 1)
                         (ocr_lines (filter (fun r => Qltb (-1) (conf r)) data)), [])
                  (incl_refl _)) as Hrec.
    cbn [fst snd] in Hrec.
    destruct (fold_left (ocr_row env number) _ _) as [[st' entries'] ves'].
    cbn [fst snd] in *. apply Hrec.
    intros e1 m1 He1 Hm1.
    pose proof (segment_page_fresh (number + 1)
                  (ocr_lines (filter (fun r => Qltb (-1) (conf r)) data))) as F.
    unfold no_sigils in F. rewrite Forall_forall in F.
    rewrite (F e1 He1) in Hm1. destruct Hm1.
Qed.
End Provenance.

(** ** Annotations of the vector strategy *)

Lemma Qeq_bool_trans (a b c : Q) :
  Qeq_bool a b = true -> Qeq_bool b c = true -> Qeq_bool a c = true.
Proof.
  rewrite !Qeq_bool_iff. intros H1 H2. now rewrite H1.
Qed.

Lemma bbox_eqb_refl (a : bbox) : bbox_eqb a a = true.
Proof.
  destruct a as [[[a0 a1] a2] a3]. simpl.
  rewrite !andb_true_iff, !Qeq_bool_iff. repeat split; reflexivity.
Qed.

Lemma bbox_eqb_trans (a b c : bbox) :
  bbox_eqb a b = true -> bbox_eqb b c = true -> bbox_eqb a c = true.
Proof.
  destruct a as [[[a0 a1] a2] a3], b as [[[b0 b1] b2] b3], c as [[[c0 c1] c2] c3].
  simpl. rewrite !andb_true_iff.
  intros [[[A0 A1] A2] A3] [[[B0 B1] B2] B3].
  repeat split; eapply Qeq_bool_trans; eauto.
Qed.

Lemma seen_trans (r s : bbox) (seen : list bbox) :
  bbox_eqb r s = true ->
  existsb (bbox_eqb s) seen = true -> existsb (bbox_eqb r) seen = true.
Proof.
  intros Hrs H. apply existsb_exists in H. destruct H as (x & Hx & Hsx).
  apply existsb_exists. exists x. split; auto. eapply bbox_eqb_trans; eauto.
Qed.

Lemma shadowed_app l1 : forall l2 seen,
  shadowed seen (l1 ++ l2)
  <-> shadowed seen l1 /\ shadowed (rev (map rect l1) ++ seen) l2.
Proof.
  induction l1 as [|v l1 IH]; intros l2 seen; cbn [app shadowed map rev].
  - tauto.
  - rewrite IH, <- app_assoc. cbn [app]. tauto.
Qed.

Lemma shadowed_plain l : forall seen,
  Forall (fun v => vkind v <> heading_v) l -> shadowed seen l.
Proof.
  induction l as [|v l IH]; intros seen H; cbn [shadowed]; [exact I|].
  inversion H; subst. split; [tauto|auto].
Qed.

Lemma shadowed_snoc_plain l1 l2 seen :
  shadowed seen l1 -> Forall (fun v => vkind v <> heading_v) l2 ->
  shadowed seen (l1 ++ l2).
Proof.
  intros H1 H2. apply shadowed_app. split; [exact H1|now apply shadowed_plain].
Qed.

(** What the loop of lines 561-564 keeps of a shadowed list holds no
    heading annotation. *)
Lemma dedupe_shadowed l : forall seen seen',
  (forall r, existsb (bbox_eqb r) seen = true -> existsb (bbox_eqb r) seen' = true) ->
  shadowed seen l ->
  Forall (fun v => vkind v <> heading_v) (dedupe seen' l).
Proof.
  induction l as [|v l IH]; intros seen seen' Hcov Hsh; cbn [dedupe]; [constructor|].
  cbn [shadowed] in Hsh. destruct Hsh as [Hv Hl].
  destruct (existsb (bbox_eqb (rect v)) seen') eqn:E.
  - apply (IH (rect v :: seen)); auto.
    intros r. cbn [existsb]. rewrite orb_true_iff. intros [Hr|Hr]; [|auto].
    eapply seen_trans; eauto.
  - constructor.
    + intros Hk. apply Hv, Hcov in Hk. congruence.
    + apply (IH (rect v :: seen)); auto.
      intros r. cbn [existsb]. rewrite !orb_true_iff. intros [Hr|Hr]; auto.
Qed.

Section VectorAnnotations.
Context {U : UnicodeDB}.
Context {D : Doubles}.
Variable env : Renderer.

Lemma plumber_line_shadowed p st l :
  shadowed [] (snd (fst st)) -> shadowed [] (snd (fst (plumber_line p st l))).
Proof.
  destruct st as [[entries ves] cur]. cbn [fst snd]. intros H.
  unfold plumber_line. destruct (strip l) as [|c s]; [exact H|].
  destruct (segment_line _ _ _) as [entries' cur']. cbn [fst snd].
  destruct (line_bbox p (c :: s)) as [b|].
  - destruct (re_match HEADING_CLASS_RE (c :: s)) as [m|].
    + apply shadowed_app. split.
      * apply shadowed_snoc_plain; [exact H|].
        constructor; [discriminate|constructor].
      * rewrite map_app, rev_app_distr. cbn [map rev app shadowed mkve rect existsb].
        rewrite bbox_eqb_refl. auto.
    + rewrite List.app_nil_r. apply shadowed_snoc_plain; [exact H|].
      constructor; [discriminate|constructor].
  - destruct (re_match HEADING_CLASS_RE (c :: s)); now rewrite !List.app_nil_r.
Qed.

Lemma plumber_lines_shadowed p ls : forall st,
  shadowed [] (snd (fst st)) ->
  shadowed [] (snd (fst (fold_left (plumber_line p) ls st))).
Proof.
  induction ls as [|l ls IH]; intros st H; [exact H|].
  cbn [fold_left]. apply IH. now apply plumber_line_shadowed.
Qed.

Lemma plumber_char_shadowed p fitz st c :
  shadowed [] (snd st) -> shadowed [] (snd (plumber_char env p fitz st c)).
Proof.
  destruct st as [[sc cur] ves]. cbn [snd]. intros H. unfold plumber_char.
  destruct (vector_candidate (text c)); [|exact H].
  destruct cur as [e|]; [|exact H].
  destruct (rejects p _); [exact H|].
  destruct (_save_sigil_image _ _ _ _ _ _) as [[path|] sc']; cbn [snd];
    (apply shadowed_snoc_plain; [exact H|constructor; [discriminate|constructor]]).
Qed.

Lemma plumber_chars_shadowed p fitz cs : forall st,
  shadowed [] (snd st) ->
  shadowed [] (snd (fold_left (plumber_char env p fitz) cs st)).
Proof.
  induction cs as [|c cs IH]; intros st H; [exact H|].
  cbn [fold_left]. apply IH. now apply plumber_char_shadowed.
Qed.

Lemma biblio_words_plain p :
  Forall (fun v => vkind v <> heading_v) (biblio_words p).
Proof.
  unfold biblio_words. apply Forall_forall. intros v Hv.
  apply in_map_iff in Hv. destruct Hv as (w & <- & _). discriminate.
Qed.

(** X8.  The vector strategy never returns a heading annotation: the one
    line 539 appends has the box of the text-block annotation appended
    just before it for the same line, so the loop of lines 561-564 drops
    it.  Every annotation returned is a text block, a citation or a
    glyph. *)
Theorem vector_headings_are_never_outlined (st : Scan) (p : PlumberPage)
        (fitz_page : Z) :
  Forall (fun v => vkind v <> heading_v)
         (snd (fst (_extract_elements_from_plumber_page env st p fitz_page))).
Proof.
  unfold _extract_elements_from_plumber_page.
  destruct (page_text p) as [|c0 txt]; [constructor|].
  pose proof (@plumber_lines_shadowed p (split_on 10 (c0 :: txt)) ([], [], None) I) as H1.
  destruct (fold_left (plumber_line p) _ _) as [[entries ves] cur].
  cbn [fst snd] in H1.
  pose proof (@plumber_chars_shadowed p fitz_page (chars p) (st, cur, ves) H1) as H2.
  destruct (fold_left (plumber_char env p fitz_page) _ _) as [[st' cur'] ves'].
  cbn [fst snd] in *.
  apply (@dedupe_shadowed _ [] []); [auto|].
  apply shadowed_snoc_plain; [exact H2|apply biblio_words_plain].
Qed.
End VectorAnnotations.

(** ** Lines of the raster strategy *)

Lemma join_snoc (sep : str) (l : list str) (t : str) :
  l <> [] -> join sep (l ++ [t]) = join sep l ++ sep ++ t.
Proof.
  induction l as [|x l IH]; [congruence|]. intros _.
  destruct l as [|y l]; [reflexivity|].
  change (join sep ((x :: y :: l) ++ [t])) with (x ++ sep ++ join sep ((y :: l) ++ [t])).
  rewrite IH by discriminate.
  change (join sep (x :: y :: l)) with (x ++ sep ++ join sep (y :: l)).
  now rewrite <- !app_assoc.
Qed.

Lemma join_snoc_ext (sep : str) (l : list str) (y z : str) :
  join sep (l ++ [y ++ z]) = join sep (l ++ [y]) ++ z.
Proof.
  induction l as [|x l IH]; [reflexivity|].
  destruct l as [|x' l]; cbn [app join] in *.
  - now rewrite <- !app_assoc.
  - rewrite IH. now rewrite <- !app_assoc.
Qed.

Lemma flush_words_app acc acc' cur :
  flush_words (acc ++ acc') cur = acc ++ flush_words acc' cur.
Proof. unfold flush_words. destruct cur; [reflexivity|now rewrite app_assoc]. Qed.

Section RasterLines.
Context {U : UnicodeDB}.
Context {D : Doubles}.

(** The accumulated lines only ever grow at the end. *)
Lemma ocr_group_prefix rows : forall acc cur kb kl,
  fold_left ocr_group rows (acc, cur, kb, kl)
  = let '(a, c, b, l) := fold_left ocr_group rows ([], cur, kb, kl) in
    (acc ++ a, c, b, l).
Proof.
  induction rows as [|r rows IH]; intros acc cur kb kl.
  - cbn [fold_left]. now rewrite List.app_nil_r.
  - cbn [fold_left]. unfold ocr_group at 2 4.
    destruct (negb (block_num r =? kb)%Z || negb (line_num r =? kl)%Z).
    + rewrite (IH (flush_words acc cur)), (IH (flush_words [] cur)).
      destruct (fold_left ocr_group rows _) as [[[a c] b] l].
      rewrite <- (List.app_nil_r acc) at 1.
      now rewrite flush_words_app, <- app_assoc.
    + apply IH.
Qed.

Lemma ocr_group_first r rows :
  fold_left ocr_group (r :: rows) ([], [], (-1)%Z, (-1)%Z)
  = fold_left ocr_group rows ([], [row_text r], block_num r, line_num r).
Proof.
  cbn [fold_left]. unfold ocr_group at 2.
  destruct (negb _ || negb _); reflexivity.
Qed.

(** After a row, the words of the current line are not empty and the
    numbers remembered are those of the row. *)
Lemma ocr_group_last a r : forall st,
  exists acc cur,
    fold_left ocr_group (a ++ [r]) st = (acc, cur, block_num r, line_num r)
    /\ cur <> [].
Proof.
  induction a as [|x a IH]; intros [[[acc cur] kb] kl].
  - cbn [app fold_left]. unfold ocr_group.
    destruct (negb _ || negb _); eexists _, _; split; try reflexivity.
    + discriminate.
    + destruct cur; discriminate.
  - cbn [app fold_left]. apply IH.
Qed.

Lemma ocr_group_same rows : forall acc cur kb kl,
  Forall (fun x => block_num x = kb /\ line_num x = kl) rows ->
  fold_left ocr_group rows (acc, cur, kb, kl)
  = (acc, cur ++ map row_text rows, kb, kl).
Proof.
  induction rows as [|r rows IH]; intros acc cur kb kl H.
  - cbn [fold_left map]. now rewrite List.app_nil_r.
  - inversion H as [|? ? [Hb Hl] Hrest]; subst.
    cbn [fold_left map]. unfold ocr_group at 2.
    rewrite !Z.eqb_refl. cbn [negb orb].
    rewrite IH by exact Hrest. now rewrite <- app_assoc.
Qed.

Lemma ocr_words rows : forall acc cur kb kl ws,
  join (lit " ") (flush_words acc cur) = join (lit " ") ws ->
  (cur = [] -> acc = [] /\ ws = []) ->
  (cur <> [] -> ws <> []) ->
  let '(acc', cur', _, _) := fold_left ocr_group rows (acc, cur, kb, kl) in
  join (lit " ") (flush_words acc' cur') = join (lit " ") (ws ++ map row_text rows).
Proof.
  induction rows as [|r rows IH]; intros acc cur kb kl ws Hj He Hn.
  - cbn [fold_left map]. now rewrite List.app_nil_r.
  - cbn [fold_left map]. unfold ocr_group at 2.
    replace (ws ++ row_text r :: map row_text rows)
      with ((ws ++ [row_text r]) ++ map row_text rows)
      by (now rewrite <- app_assoc).
    destruct (negb _ || negb _).
    + apply IH.
      * cbn [flush_words]. destruct cur as [|w cur].
        -- destruct (He eq_refl) as [-> ->]. reflexivity.
        -- assert (Hw : ws <> []) by (apply Hn; discriminate).
           rewrite !join_snoc; auto.
           ++ now rewrite Hj.
           ++ cbn [flush_words]. destruct acc; discriminate.
      * discriminate.
      * intros _. destruct ws; discriminate.
    + apply IH.
      * destruct cur as [|w cur].
        -- destruct (He eq_refl) as [-> ->]. reflexivity.
        -- assert (Hw : ws <> []) by (apply Hn; discriminate).
           assert (Hf : flush_words acc ((w :: cur) ++ [row_text r])
                        = acc ++ [join (lit " ") ((w :: cur) ++ [row_text r])])
             by reflexivity.
           rewrite Hf, (join_snoc (lit " ") (l := w :: cur)) by discriminate.
           rewrite join_snoc_ext, (join_snoc (lit " ") (l := ws)) by exact Hw.
           cbn [flush_words] in Hj. now rewrite Hj.
      * intros E. destruct cur; discriminate.
      * intros _. destruct ws; discriminate.
Qed.

(** X9.  The lines the raster strategy parses hold every token of the
    table, in order, separated by single blanks: joined by a blank they
    read as the tokens joined by a blank.  A line ends exactly between two
    consecutive rows that differ in block or line number: rows that agree
    on both form one line, and the lines of a table cut at such a
    difference are those of the two parts. *)
Theorem ocr_lines_keep_every_token :
  (forall rows : list OcrRow,
      join (lit " ") (ocr_lines rows) = join (lit " ") (map row_text rows))
  /\ (forall (r : OcrRow) (rows : list OcrRow),
      Forall (fun x => block_num x = block_num r /\ line_num x = line_num r) rows ->
      ocr_lines (r :: rows) = [join (lit " ") (map row_text (r :: rows))])
  /\ (forall (a b : list OcrRow) (r1 r2 : OcrRow),
      block_num r1 <> block_num r2 \/ line_num r1 <> line_num r2 ->
      ocr_lines (a ++ r1 :: r2 :: b) = ocr_lines (a ++ [r1]) ++ ocr_lines (r2 :: b)).
Proof.
  split; [|split].
  - intros rows. unfold ocr_lines.
    pose proof (@ocr_words rows [] [] (-1)%Z (-1)%Z [] eq_refl) as H.
    destruct (fold_left ocr_group rows _) as [[[acc cur] kb] kl].
    apply H; [auto|congruence].
  - intros r rows H. unfold ocr_lines.
    rewrite ocr_group_first, ocr_group_same by exact H. reflexivity.
  - intros a b r1 r2 Hd. unfold ocr_lines.
    replace (a ++ r1 :: r2 :: b) with ((a ++ [r1]) ++ r2 :: b)
      by (now rewrite <- app_assoc).
    rewrite fold_left_app, ocr_group_first.
    destruct (ocr_group_last a r1 ([], [], (-1)%Z, (-1)%Z)) as (acc & cur & E & Hc).
    rewrite E. cbn [fold_left]. unfold ocr_group at 2.
    assert (Hb : negb (block_num r2 =? block_num r1)%Z
                 || negb (line_num r2 =? line_num r1)%Z = true).
    { apply orb_true_iff. rewrite !negb_true_iff, !Z.eqb_neq.
      destruct Hd; [left|right]; congruence. }
    rewrite Hb, ocr_group_prefix.
    destruct (fold_left ocr_group b _) as [[[a' c'] kb'] kl'].
    now rewrite flush_words_app.
Qed.
End RasterLines.

(** ** Annotations of the raster strategy *)

Lemma records_on_last ms l :
  l <> [] -> records (on_last ms l) = records l ++ ms.
Proof.
  destruct l as [|x l _] using rev_ind; [congruence|]. intros _.
  rewrite on_last_snoc. unfold records. rewrite !flat_map_app.
  cbn [flat_map add_sigils sigils_metadata]. now rewrite !List.app_nil_r, app_assoc.
Qed.

Lemma records_fresh l : no_sigils l -> records l = [].
Proof.
  unfold no_sigils, records. induction 1 as [|e l He _ IH]; [reflexivity|].
  cbn [flat_map]. now rewrite He, IH.
Qed.

Section RasterAnnotations.
Context {U : UnicodeDB}.
Context {D : Doubles}.
Variable env : Renderer.

(** What one row adds: at most one annotation, and a record exactly when
    the annotation is that of a saved sigil. *)
Lemma ocr_row_trace number sc entries ves row :
  on_page (number + 1) entries ->
  exists ms sc' ves1,
    ocr_row env number (sc, entries, ves) row = (sc', on_last ms entries, ves ++ ves1)
    /\ (entries = [] -> ms = [])
    /\ map (fun v => (rect v, text_snippet v, wh v)) ves1
       = map (fun r => (pixel_box r, row_text r, Some (o_width r, o_height r)))
             (filter readable [row])
    /\ map (fun m => (source_text m, bounding_box_pdf_coords m)) ms
       = map (fun v => (text_snippet v, to_page (overlay_rect v)))
             (filter (fun v => is_saved (vkind v)) ves1).
Proof.
  intros Hpage.
  assert (Hskip : readable row = false -> exists ms sc' ves1,
             (sc, entries, ves) = (sc', on_last ms entries, ves ++ ves1)
             /\ (entries = [] -> ms = [])
             /\ map (fun v => (rect v, text_snippet v, wh v)) ves1
                = map (fun r => (pixel_box r, row_text r, Some (o_width r, o_height r)))
                      (filter readable [row])
             /\ map (fun m => (source_text m, bounding_box_pdf_coords m)) ms
                = map (fun v => (text_snippet v, to_page (overlay_rect v)))
                      (filter (fun v => is_saved (vkind v)) ves1)).
  { intros Hr. exists [], sc, []. cbn [filter]. rewrite Hr.
    rewrite on_last_none, List.app_nil_r. auto. }
  assert (Hplain : forall (k : vtype) (sc' : Scan), readable row = true -> is_saved k = false ->
             exists ms sc'' ves1,
               (sc', entries, ves ++ [ocr_ve row k (row_text row)])
               = (sc'', on_last ms entries, ves ++ ves1)
               /\ (entries = [] -> ms = [])
               /\ map (fun v => (rect v, text_snippet v, wh v)) ves1
                  = map (fun r => (pixel_box r, row_text r, Some (o_width r, o_height r)))
                        (filter readable [row])
               /\ map (fun m => (source_text m, bounding_box_pdf_coords m)) ms
                  = map (fun v => (text_snippet v, to_page (overlay_rect v)))
                        (filter (fun v => is_saved (vkind v)) ves1)).
  { intros k sc' Hr Hk. exists [], sc', [ocr_ve row k (row_text row)].
    cbn [filter map ocr_ve vkind]. rewrite Hr, Hk, on_last_none. auto. }
  unfold ocr_row.
  destruct (o_text row) as [t|] eqn:Eo;
    [|apply Hskip; unfold readable; now rewrite Eo].
  destruct (row_text row) as [|c0 txt] eqn:Et;
    [apply Hskip; unfold readable; now rewrite Eo, Et|].
  assert (Hr : readable row = true) by (unfold readable; now rewrite Eo, Et).
  clear Hskip. specialize (fun k sc' => Hplain k sc' Hr).
  destruct (existsb _ _); [now apply Hplain|].
  destruct (re_search BIBLIO_RE (c0 :: txt)); [now apply Hplain|].
  destruct (raster_candidate (c0 :: txt)); [|now apply Hplain].
  rewrite (@active_entry_last _ _ Hpage).
  destruct entries as [|x l _] using rev_ind; [now apply Hplain|].
  rewrite last_entry_snoc.
  unfold on_page in Hpage. rewrite Forall_app in Hpage. destruct Hpage as [_ Hx].
  inversion Hx; subst.
  destruct (_save_sigil_image _ _ _ _ _ _) as [[path|] sc']; [|now apply Hplain].
  rewrite attach_last by auto.
  eexists [_], sc', [_]. split; [reflexivity|]. split.
  - intros Hn. destruct l; discriminate.
  - cbn [filter]. rewrite Hr. cbn [map ocr_ve rect text_snippet wh vkind is_saved filter].
    rewrite Et. split; reflexivity.
Qed.

Lemma ocr_rows_trace number rows : forall sc entries ves,
  on_page (number + 1) entries ->
  exists ms sc' ves1,
    fold_left (ocr_row env number) rows (sc, entries, ves)
    = (sc', on_last ms entries, ves ++ ves1)
    /\ (entries = [] -> ms = [])
    /\ map (fun v => (rect v, text_snippet v, wh v)) ves1
       = map (fun r => (pixel_box r, row_text r, Some (o_width r, o_height r)))
             (filter readable rows)
    /\ map (fun m => (source_text m, bounding_box_pdf_coords m)) ms
       = map (fun v => (text_snippet v, to_page (overlay_rect v)))
             (filter (fun v => is_saved (vkind v)) ves1).
Proof.
  induction rows as [|row rows IH]; intros sc entries ves Hpage.
  - exists [], sc, []. cbn [fold_left filter map].
    now rewrite on_last_none, List.app_nil_r.
  - destruct (@ocr_row_trace number sc entries ves row Hpage)
      as (ms1 & sc1 & v1 & E1 & N1 & A1 & R1).
    destruct (IH sc1 (on_last ms1 entries) (ves ++ v1) (@on_page_on_last _ ms1 _ Hpage))
      as (ms2 & sc2 & v2 & E2 & N2 & A2 & R2).
    exists (ms1 ++ ms2), sc2, (v1 ++ v2). cbn [fold_left]. rewrite E1, E2.
    rewrite on_last_app, <- app_assoc. split; [reflexivity|]. split; [|split].
    + intros ->. rewrite N1 by reflexivity. rewrite N2; [reflexivity|].
      rewrite N1 by reflexivity. reflexivity.
    + change (row :: rows) with ([row] ++ rows).
      now rewrite filter_app, !map_app, A1, A2.
    + now rewrite filter_app, !map_app, R1, R2.
Qed.

(** X10.  The raster strategy returns one annotation for every row of
    confidence above -1 whose text is present and not blank, in the order
    of the table, with the row's pixel box and trimmed text; it never
    removes one.  The records of the page are, in order, those of the
    annotations marked as saved sigils: same text, and as box the
    rectangle drawn for the annotation, divided by the zoom. *)
Theorem raster_annotations_follow_the_table (st : Scan) (number : Z)
        (data : list OcrRow) :
  let out := _extract_elements_with_ocr env st number (Some data) in
  map (fun v => (rect v, text_snippet v, wh v)) (snd (fst out))
  = map (fun r => (pixel_box r, row_text r, Some (o_width r, o_height r)))
        (filter readable (filter (fun r => Qltb (-1) (conf r)) data))
  /\ map (fun m => (source_text m, bounding_box_pdf_coords m)) (records (fst (fst out)))
     = map (fun v => (text_snippet v, to_page (overlay_rect v)))
           (filter (fun v => is_saved (vkind v)) (snd (fst out))).
Proof.
  intros out. subst out. unfold _extract_elements_with_ocr.
  set (rows := filter (fun r => Qltb (-1) (conf r)) data).
  set (segmented := segment_page (number + 1) (ocr_lines rows)).
  destruct (@ocr_rows_trace number rows st segmented []
              (segment_page_on_page (number + 1) _))
    as (ms & st' & ves1 & E & N & A & R).
  rewrite E. cbn [fst snd app]. split; [exact A|].
  rewrite <- R. destruct segmented as [|e0 l] eqn:Es.
  - rewrite N by reflexivity. reflexivity.
  - rewrite records_on_last by discriminate.
    rewrite records_fresh; [reflexivity|].
    rewrite <- Es. apply segment_page_fresh.
Qed.
End RasterAnnotations.

(** ** Records of the vector strategy on the rendered page *)

Lemma dedupe_incl l : forall seen v, In v (dedupe seen l) -> In v l.
Proof.
  induction l as [|x l IH]; intros seen v; cbn [dedupe]; [auto|].
  destruct (existsb _ seen).
  - intros H. right. eauto.
  - intros [<-|H]; [now left|right; eauto].
Qed.

(** The loop of lines 561-564 keeps an annotation at every box. *)
Lemma dedupe_covers l : forall seen v,
  In v l ->
  existsb (bbox_eqb (rect v)) seen = true
  \/ exists w, In w (dedupe seen l) /\ bbox_eqb (rect v) (rect w) = true.
Proof.
  induction l as [|x l IH]; intros seen v; [intros []|].
  cbn [dedupe]. intros [<-|Hin].
  - destruct (existsb (bbox_eqb (rect x)) seen) eqn:E; [now left|].
    right. exists x. split; [now left|apply bbox_eqb_refl].
  - destruct (existsb (bbox_eqb (rect x)) seen) eqn:E.
    + apply IH; auto.
    + destruct (IH (rect x :: seen) v Hin) as [H|(w & Hw & Hvw)].
      * cbn [existsb] in H. apply orb_true_iff in H. destruct H as [H|H]; [|now left].
        right. exists x. split; [now left|exact H].
      * right. exists w. split; [now right|exact Hvw].
Qed.

Lemma Qeq_bool_scale (a b z : Q) :
  Qeq_bool a b = true -> Qeq_bool (a * z) (b * z) = true.
Proof. rewrite !Qeq_bool_iff. intros H. now rewrite H. Qed.

Section VectorOverlay.
Context {U : UnicodeDB}.
Context {D : Doubles}.
Variable env : Renderer.

Lemma outlined_more cs ms ves ves' :
  outlined cs ms ves -> outlined cs ms (ves ++ ves').
Proof.
  intros H m Hm. destruct (H m Hm) as (c & v & Hc & Hcut & Hv & E).
  exists c, v. repeat split; try assumption; try apply Hcut.
  apply in_or_app; now left.
Qed.

Lemma plumber_char_outlined p fitz st c :
  In c (chars p) ->
  outlined (chars p) (sigils_of (snd (fst st))) (snd st) ->
  outlined (chars p) (sigils_of (snd (fst (plumber_char env p fitz st c))))
           (snd (plumber_char env p fitz st c)).
Proof.
  destruct st as [[sc cur] ves]. cbn [fst snd]. intros Hin H. unfold plumber_char.
  destruct (vector_candidate (text c)); [|exact H].
  destruct cur as [e|]; [|exact H].
  fold (char_rect c).
  destruct (rejects p _); [exact H|].
  destruct (_save_sigil_image _ _ _ _ _ _) as [[path|] sc']; cbn [fst snd].
  - cbn [sigils_of add_sigil_open oe_sigils] in *.
    intros m Hm. apply in_app_or in Hm. destruct Hm as [Hm|[<-|[]]].
    + now apply (@outlined_more (chars p) (oe_sigils e) ves _ H).
    + exists c. eexists. split; [exact Hin|]. split; [split; reflexivity|].
      split; [apply in_or_app; right; now left|].
      cbn [mkve rect]. apply bbox_eqb_refl.
  - now apply outlined_more.
Qed.

Lemma plumber_chars_outlined p fitz cs : forall st,
  incl cs (chars p) ->
  outlined (chars p) (sigils_of (snd (fst st))) (snd st) ->
  outlined (chars p)
           (sigils_of (snd (fst (fold_left (plumber_char env p fitz) cs st))))
           (snd (fold_left (plumber_char env p fitz) cs st)).
Proof.
  induction cs as [|c cs IH]; intros st Hi H; [exact H|].
  cbn [fold_left]. apply IH.
  - intros x Hx. apply Hi. now right.
  - apply plumber_char_outlined; [apply Hi; now left|exact H].
Qed.

Lemma plumber_line_plain p st l :
  Forall (fun v => wh v = None) (snd (fst st)) ->
  Forall (fun v => wh v = None) (snd (fst (plumber_line p st l))).
Proof.
  destruct st as [[entries ves] cur]. cbn [fst snd]. intros H.
  unfold plumber_line. destruct (strip l) as [|c s]; [exact H|].
  destruct (segment_line _ _ _) as [entries' cur']. cbn [fst snd].
  apply Forall_app. split; [apply Forall_app; split; [exact H|]|].
  - destruct (line_bbox p (c :: s)); [constructor; [reflexivity|]|]; constructor.
  - destruct (re_match HEADING_CLASS_RE (c :: s)), (line_bbox p (c :: s));
      try constructor; try reflexivity; constructor.
Qed.

Lemma plumber_lines_plain p ls : forall st,
  Forall (fun v => wh v = None) (snd (fst st)) ->
  Forall (fun v => wh v = None) (snd (fst (fold_left (plumber_line p) ls st))).
Proof.
  induction ls as [|l ls IH]; intros st H; [exact H|].
  cbn [fold_left]. apply IH. now apply plumber_line_plain.
Qed.

Lemma plumber_char_plain p fitz st c :
  Forall (fun v => wh v = None) (snd st) ->
  Forall (fun v => wh v = None) (snd (plumber_char env p fitz st c)).
Proof.
  destruct st as [[sc cur] ves]. cbn [snd]. intros H. unfold plumber_char.
  destruct (vector_candidate (text c)); [|exact H].
  destruct cur as [e|]; [|exact H].
  destruct (rejects p _); [exact H|].
  destruct (_save_sigil_image _ _ _ _ _ _) as [[path|] sc']; cbn [snd];
    (apply Forall_app; split; [exact H|constructor; [reflexivity|constructor]]).
Qed.

Lemma plumber_chars_plain p fitz cs : forall st,
  Forall (fun v => wh v = None) (snd st) ->
  Forall (fun v => wh v = None) (snd (fold_left (plumber_char env p fitz) cs st)).
Proof.
  induction cs as [|c cs IH]; intros st H; [exact H|].
  cbn [fold_left]. apply IH. now apply plumber_char_plain.
Qed.

Lemma biblio_words_wh p : Forall (fun v => wh v = None) (biblio_words p).
Proof.
  unfold biblio_words. apply Forall_forall. intros v Hv.
  apply in_map_iff in Hv. destruct Hv as (w & <- & _). reflexivity.
Qed.

(** X11.  Every record the vector strategy stores is outlined when the
    page is displayed: the record was cut around a character of the page
    (it has the text of the character, and its box is the box of the
    character padded by 1 on each side in doubles), and among the
    rectangles drawn over the page for the annotations returned there is
    one at the box of that character scaled by the zoom.  Removing
    annotations of equal boxes never removes the last one at a box. *)
Theorem vector_records_are_outlined (st : Scan) (p : PlumberPage) (fitz_page : Z)
        (e : Entry) (m : SigilMetadata) :
  let out := _extract_elements_from_plumber_page env st p fitz_page in
  In e (fst (fst out)) -> In m (sigils_metadata e) ->
  exists c r col,
    In c (chars p) /\ cut_around c m
    /\ In (r, col) (overlay (snd (fst out)))
    /\ bbox_eqb (on_screen (obj_box c)) r = true.
Proof.
  intros out. subst out. unfold _extract_elements_from_plumber_page.
  destruct (page_text p) as [|c0 txt] eqn:Etxt; [intros []|].
  pose proof (plumber_lines_segment p (split_on 10 (c0 :: txt)) ([], [], None)) as Hseg.
  pose proof (@plumber_lines_plain p (split_on 10 (c0 :: txt)) ([], [], None)
                (Forall_nil _)) as P1.
  destruct (fold_left (plumber_line p) _ _) as [[entries ves] cur] eqn:Efold.
  unfold vproj in Hseg. cbn [fst snd] in Hseg, P1.
  destruct (@segment_lines_fresh _ (pp_number p) (split_on 10 (c0 :: txt)) ([], None))
    as [F1 F2]; [constructor|discriminate|].
  rewrite <- Hseg in F1, F2. cbn [fst snd] in F1, F2.
  assert (H0 : outlined (chars p) (sigils_of cur) ves).
  { intros x Hx. destruct cur as [e0|]; [|destruct Hx].
    cbn [sigils_of] in Hx. rewrite (F2 e0 eq_refl) in Hx. destruct Hx. }
  pose proof (@plumber_chars_outlined p fitz_page (chars p) (st, cur, ves)
                (incl_refl _) H0) as H1.
  pose proof (@plumber_chars_plain p fitz_page (chars p) (st, cur, ves) P1) as P2.
  destruct (fold_left (plumber_char env p fitz_page) _ _) as [[st' cur'] ves'].
  cbn [fst snd] in *.
  intros He Hm.
  assert (Hrec : In m (sigils_of cur')).
  { unfold close_current in He.
    assert (Hold : In e entries -> False).
    { intros Hin. unfold no_sigils in F1. rewrite Forall_forall in F1.
      rewrite (F1 e Hin) in Hm. destruct Hm. }
    destruct cur' as [e'|]; [|now destruct Hold].
    apply in_app_or in He. destruct He as [He|[<-|[]]]; [now destruct Hold|].
    exact Hm. }
  destruct (H1 m Hrec) as (c & v & Hc & Hcut & Hv & Ev).
  destruct (@dedupe_covers (ves' ++ biblio_words p) [] v) as [Hs|(w & Hw & Evw)];
    [apply in_or_app; now left|discriminate|].
  assert (Hwh : wh w = None).
  { apply dedupe_incl in Hw.
    assert (Hall : Forall (fun v => wh v = None) (ves' ++ biblio_words p))
      by (apply Forall_app; split; [exact P2|apply biblio_words_wh]).
    rewrite Forall_forall in Hall. now apply Hall. }
  exists c, (overlay_rect w), (OVERLAY_COLORS (vkind w)).
  split; [exact Hc|]. split; [exact Hcut|]. split.
  - unfold overlay. apply in_map_iff. exists w. auto.
  - pose proof (bbox_eqb_trans _ _ _ Ev Evw) as Et.
    unfold on_screen, overlay_rect in *. rewrite Hwh.
    destruct (obj_box c) as [[[a b] c1] d].
    destruct (rect w) as [[[a' b'] c'] d'].
    cbn [bbox_eqb] in *. rewrite !andb_true_iff in *.
    destruct Et as [[[E1 E2] E3] E4].
    repeat split; now apply Qeq_bool_scale.
Qed.
End VectorOverlay.

Lemma vector_records_are_outlined_witness :
  exists c r col,
    In c (chars glyph_page) /\ cut_around c glyph_record
    /\ In (r, col) (overlay (snd (fst (_extract_elements_from_plumber_page
                                        demo_env scan0 glyph_page 0))))
    /\ bbox_eqb (on_screen (obj_box c)) r = true.
Proof.
  apply (@vector_records_are_outlined ascii_db exact_doubles demo_env scan0 glyph_page 0
           glyph_entry glyph_record).
  - vm_compute. left. reflexivity.
  - vm_compute. left. reflexivity.
Defined.

(** ** The dataset of a scan *)

Lemma combine_fst (A B : Type) (a : list A) : forall b : list B,
  (length a <= length b)%nat -> map fst (combine a b) = a.
Proof.
  induction a as [|x a IH]; intros [|y b] H; simpl in *; try reflexivity; try lia.
  f_equal. apply IH. lia.
Qed.

Lemma combine_seq_nth (A : Type) (n : nat) : forall (s : nat) (l : list A) ip,
  In ip (combine (map Z.of_nat (seq s n)) (firstn n (skipn s l))) ->
  nth_error l (Z.to_nat (fst ip)) = Some (snd ip).
Proof.
  induction n as [|n IH]; intros s l ip; cbn [seq map firstn combine]; [intros []|].
  destruct (skipn s l) as [|x rest] eqn:E; [intros []|].
  cbn [combine]. intros [<-|Hin].
  - cbn [fst snd]. rewrite Nat2Z.id.
    rewrite <- (firstn_skipn s l) at 1. rewrite E.
    assert (Hl : length (firstn s l) = s).
    { apply firstn_length_le.
      destruct (Nat.le_gt_cases s (length l)) as [H|H]; [exact H|].
      rewrite skipn_all2 in E by lia. discriminate. }
    rewrite nth_error_app2 by lia. rewrite Hl, Nat.sub_diag. reflexivity.
  - apply (IH (S s) l). replace (skipn (S s) l) with rest; [exact Hin|].
    change (S s) with (1 + s)%nat. rewrite <- skipn_skipn, E. reflexivity.
Qed.

Section Dataset.
Context {U : UnicodeDB}.
Context {D : Doubles}.
Variable env : Renderer.
Variable use_ocr : bool.

Lemma extract_page_core st idx pg :
  map core (fst (fst (extract_page env use_ocr st idx pg)))
  = map core (page_entries use_ocr (idx, pg)).
Proof.
  unfold extract_page, page_entries, page_label, page_lines. cbn [fst snd].
  destruct use_ocr.
  - destruct (ocr pg) as [data|]; [|reflexivity].
    destruct (raster_entries env st idx data) as (ms & E & _).
    rewrite E. apply map_core_on_last.
  - destruct (vector_entries env st (plumber pg) idx) as (ms & E & _).
    rewrite E. apply map_core_on_last.
Qed.

Lemma scan_pages_core l : forall st acc,
  map core (snd (fold_left (scan_page env use_ocr) l (st, acc)))
  = map core acc ++ flat_map (fun ip => map core (page_entries use_ocr ip)) l.
Proof.
  induction l as [|[idx pg] l IH]; intros st acc; cbn [fold_left flat_map].
  - now rewrite List.app_nil_r.
  - unfold scan_page at 2.
    pose proof (extract_page_core st idx pg) as H.
    destruct (extract_page env use_ocr st idx pg) as [[parsed ves] st'].
    cbn [fst] in H. rewrite IH, map_app, H, <- app_assoc. reflexivity.
Qed.

(** X12.  A scan that goes through returns, glyph records apart, the
    entries of the pages from the start index to the end index, the end
    clamped to the last page of the document: every index of that range
    once, in increasing order, each with its own page, and the dataset is
    the concatenation in that order of what the segmenter makes of each
    page; a page whose OCR fails contributes nothing.  A scan is refused,
    without touching the counter or the files, exactly when the start
    index lies outside the document or behind the clamped end. *)
Theorem dataset_is_the_pages_in_order (doc : list PageInput) (s e : Z) (st : Scan) :
  let total := Z.of_nat (length doc) in
  let last := Z.min e (total - 1) in
  let out := scan_pdf_worker env use_ocr doc s e st in
  match snd out with
  | Some data =>
      (0 <= s < total)%Z /\ (s <= last)%Z
      /\ map fst (page_range doc s last)
         = map Z.of_nat (seq (Z.to_nat s) (Z.to_nat (last - s + 1)))
      /\ Forall (fun ip => nth_error doc (Z.to_nat (fst ip)) = Some (snd ip))
                (page_range doc s last)
      /\ map core data
         = flat_map (fun ip => map core (page_entries use_ocr ip))
                    (page_range doc s last)
  | None =>
      (s < 0 \/ total <= s \/ last < s)%Z
      /\ sigil_counter (fst out) = sigil_counter st
      /\ written (fst out) = written st
      /\ attempted (fst out) = attempted st
  end.
Proof.
  intros total last out. subst out. unfold scan_pdf_worker.
  fold total. fold last.
  destruct ((0 <=? s)%Z && (s <? total)%Z) eqn:Hs; cbn [negb].
  - apply andb_true_iff in Hs. destruct Hs as [H0 H1].
    apply Z.leb_le in H0. apply Z.ltb_lt in H1.
    destruct (last <? s)%Z eqn:Hl; cbn [snd fst].
    + apply Z.ltb_lt in Hl. repeat split; auto.
    + apply Z.ltb_ge in Hl.
      pose proof (scan_pages_core (page_range doc s last) st []) as Hc.
      destruct (fold_left _ _ _) as [st' data]. cbn [snd] in *.
      assert (Hlast : (last <= total - 1)%Z) by (unfold last; lia).
      repeat split; auto.
      * unfold page_range. apply combine_fst.
        rewrite length_map, length_seq, length_firstn, length_skipn.
        unfold total in *. lia.
      * apply Forall_forall. intros ip Hin. unfold page_range in Hin.
        now apply combine_seq_nth in Hin.
  - cbn [snd fst log_add sigil_counter written attempted].
    apply andb_false_iff in Hs. repeat split; auto.
    destruct Hs as [H|H]; [apply Z.leb_gt in H|apply Z.ltb_ge in H]; auto.
Qed.
End Dataset.

(** ** What a search returns *)

Lemma sorted_app_le (a b : list MatchResult) :
  StronglySorted by_distance (a ++ b) ->
  forall x y, In x a -> In y b -> by_distance x y.
Proof.
  induction a as [|z a IH]; intros Hs x y Hx Hy; [destruct Hx|].
  cbn [app] in Hs. inversion Hs as [|? ? Hs' Hall]; subst.
  destruct Hx as [<-|Hx]; [|now apply IH].
  rewrite Forall_forall in Hall. apply Hall, in_or_app. now right.
Qed.

Section SearchResults.
Variable senv : SearchEnv.

Lemma in_corpus e sm data :
  In (e, sm) (corpus data) -> In e data /\ In sm (sigils_metadata e).
Proof.
  unfold corpus. intros H. apply in_flat_map in H. destruct H as (e' & He & Hin).
  apply in_map_iff in Hin. destruct Hin as (sm' & [= <- <-] & Hsm). auto.
Qed.

Lemma in_candidates h data m :
  In m (candidates senv h data) ->
  In (parent_entry m) data
  /\ In (sigil_meta m) (sigils_metadata (parent_entry m))
  /\ image_path (sigil_meta m) <> []
  /\ path_exists senv (image_path (sigil_meta m)) = true
  /\ exists db_hash, phash_file senv (image_path (sigil_meta m)) = Some db_hash
                     /\ distance m = hamming h db_hash.
Proof.
  unfold candidates. intros H. apply in_flat_map in H.
  destruct H as ([e sm] & Hc & Hm). apply in_corpus in Hc. destruct Hc as [He Hsm].
  unfold candidate_of, usable in Hm. cbn [fst snd] in Hm.
  destruct (image_path sm) as [|c p] eqn:Ep; [destruct Hm|].
  destruct (path_exists senv (c :: p)) eqn:Ex; [|destruct Hm].
  destruct (phash_file senv (c :: p)) as [hh|] eqn:Eh; [|destruct Hm].
  destruct Hm as [<-|[]]. cbn [parent_entry sigil_meta distance].
  rewrite Ep. repeat split; auto; [discriminate|eauto].
Qed.

(** X13.  The matches a search shows are the nearest ones: they are
    min(10, n) of the n sigils of the dataset whose image exists and can
    be hashed, and no sigil left out is nearer to the drawing than one
    that is shown.  Every match shown names an entry of the dataset and
    one of that entry's own sigils, whose image file exists, and its
    distance is the distance between the hash of the drawing and the hash
    of that file. *)
Theorem nearest_matches_are_shown (q : Query) (drawn : Image) (h : N)
        (top : list MatchResult) :
  phash_drawing senv drawn = Some h ->
  fst (search_drawn_sigil_action senv q drawn) = TopMatches top ->
  let data := loaded senv q in
  let found := candidates senv h data in
  length top = Nat.min 10 (length found)
  /\ (exists rest, Permutation (top ++ rest) found
                   /\ forall m m', In m top -> In m' rest -> distance m <= distance m')
  /\ (forall m, In m top ->
        In (parent_entry m) data
        /\ In (sigil_meta m) (sigils_metadata (parent_entry m))
        /\ path_exists senv (image_path (sigil_meta m)) = true
        /\ exists db_hash,
             phash_file senv (image_path (sigil_meta m)) = Some db_hash
             /\ distance m = hamming h db_hash).
Proof.
  intros Hhash Hout data found. subst data found.
  unfold search_drawn_sigil_action in Hout.
  pose proof (load_step senv q) as Hl.
  set (q1 := match scanned_data_for_query q with
             | [] => load_scanned_data_for_query senv q
             | _ => q
             end) in *.
  rewrite Hl in Hout. destruct (loaded senv q) as [|e0 data'] eqn:Ed; [discriminate|].
  destruct (empty_canvas drawn); [discriminate|discriminate|].
  rewrite Hhash, collect_all in Hout. cbn [fst app] in Hout.
  set (found := candidates senv h (e0 :: data')) in *.
  set (shown := firstn 10 (sort_matches found)) in Hout.
  injection Hout as <-. subst shown.
  pose proof (sort_matches_perm found) as Hp.
  pose proof (sort_matches_sorted found) as Hs.
  split; [|split].
  - rewrite length_firstn. now rewrite (Permutation_length Hp).
  - exists (skipn 10 (sort_matches found)). rewrite firstn_skipn. split; [exact Hp|].
    intros m m' Hm Hm'. rewrite <- (firstn_skipn 10 (sort_matches found)) in Hs.
    exact (sorted_app_le _ _ Hs m m' Hm Hm').
  - intros m Hm.
    assert (Hm2 : In m (sort_matches found))
      by (rewrite <- (firstn_skipn 10 (sort_matches found)); apply in_or_app; now left).
    clear Hm. rename Hm2 into Hm.
    apply (Permutation_in _ Hp) in Hm. apply in_candidates in Hm.
    destruct Hm as (H1 & H2 & _ & H4 & H5). auto.
Qed.
End SearchResults.

Lemma nearest_matches_are_shown_witness :
  length two_matches
  = Nat.min 10 (length (candidates two_image_disk 0 (loaded two_image_disk query0))).
Proof.
  apply (@nearest_matches_are_shown two_image_disk query0 dotted_canvas 0 two_matches);
    reflexivity.
Defined.

(** ** The data query *)

Lemma prefixb_iff (a : str) : forall b,
  prefixb a b = true <-> exists post, b = a ++ post.
Proof.
  induction a as [|x a IH]; intros b; cbn [prefixb].
  - split; [intros _; now exists b|auto].
  - destruct b as [|y b].
    + split; [discriminate|intros (post & H); discriminate].
    + rewrite andb_true_iff, N.eqb_eq, IH. split.
      * intros [-> (post & ->)]. now exists post.
      * intros (post & [= -> ->]). split; [reflexivity|now exists post].
Qed.

(** [a in b] holds exactly when [a] is a slice of [b]. *)
Lemma contains_iff (b : str) : forall a,
  contains b a = true <-> exists pre post, b = pre ++ a ++ post.
Proof.
  induction b as [|x b IH]; intros a; cbn [contains].
  - rewrite orb_false_r, prefixb_iff. split.
    + intros (post & H). now exists [], post.
    + intros (pre & post & H). destruct pre; [|discriminate]. now exists post.
  - rewrite orb_true_iff, prefixb_iff, IH. split.
    + intros [(post & H)|(pre & post & H)].
      * now exists [], post.
      * exists (x :: pre), post. cbn [app]. now rewrite H.
    + intros (pre & post & H). destruct pre as [|y pre].
      * left. now exists post.
      * right. injection H as -> ->. now exists pre, post.
Qed.

Lemma contains_trans (x t2 t1 : str) :
  contains x t2 = true -> contains t2 t1 = true -> contains x t1 = true.
Proof.
  rewrite !contains_iff. intros (p2 & q2 & ->) (p1 & q1 & ->).
  exists (p2 ++ p1), (q1 ++ q2). now rewrite <- !app_assoc.
Qed.

Lemma lstrip_suffix (s : str) : exists pre, s = pre ++ lstrip s.
Proof.
  induction s as [|c s (pre & IH)]; [now exists []|]. cbn [lstrip].
  destruct (isspace c); [|now exists []].
  exists (c :: pre). cbn [app]. now rewrite <- IH.
Qed.

Lemma rstrip_prefix (s : str) : exists post, s = rstrip s ++ post.
Proof.
  unfold rstrip. destruct (lstrip_suffix (rev s)) as (pre & H).
  exists (rev pre). rewrite <- rev_app_distr, <- H. now rewrite rev_involutive.
Qed.

Lemma contains_strip (s : str) : contains s (strip s) = true.
Proof.
  apply contains_iff. unfold strip.
  destruct (lstrip_suffix s) as (pre & H1).
  destruct (rstrip_prefix (lstrip s)) as (post & H2).
  exists pre, post. now rewrite <- H2.
Qed.

Section QueryFacts.
Variable lower : str -> str.

Lemma entry_matches_field t e f :
  In f (fields e) -> term_in lower t f = true -> entry_matches lower t e = true.
Proof.
  unfold fields, entry_matches. intros Hin Ht.
  destruct Hin as [<-|[<-|[<-|Hin]]]; try (rewrite Ht; now rewrite ?orb_true_r).
  apply in_app_or in Hin. destruct Hin as [Hin|Hin].
  - assert (H : existsb (term_in lower t) (references_raw e) = true)
      by (apply existsb_exists; eauto).
    rewrite H. now rewrite ?orb_true_r.
  - apply in_map_iff in Hin. destruct Hin as (sm & <- & Hsm).
    assert (H : existsb (fun sm => term_in lower t (source_text sm))
                        (sigils_metadata e) = true)
      by (apply existsb_exists; eauto).
    rewrite H. now rewrite ?orb_true_r.
Qed.

Lemma entry_matches_inv t e :
  entry_matches lower t e = true ->
  exists f, In f (fields e) /\ term_in lower t f = true.
Proof.
  unfold entry_matches, fields. rewrite !orb_true_iff.
  intros [[[[H|H]|H]|H]|H].
  - exists (heading e). split; [now left|exact H].
  - exists (class e). split; [right; now left|exact H].
  - exists (description e). split; [right; right; now left|exact H].
  - apply existsb_exists in H. destruct H as (r & Hr & H).
    exists r. split; [|exact H]. do 3 right. apply in_or_app. now left.
  - apply existsb_exists in H. destruct H as (sm & Hsm & H).
    exists (source_text sm). split; [|exact H]. do 3 right. apply in_or_app. right.
    now apply in_map.
Qed.

Lemma entry_matches_found t e : entry_matches lower t e = found_in lower t e.
Proof.
  apply eq_true_iff_eq. unfold found_in. rewrite existsb_exists. split.
  - apply entry_matches_inv.
  - intros (f & Hf & Hc). eapply entry_matches_field; [exact Hf|exact Hc].
Qed.

(** X14.  The data query finds an entry by any of its texts: asked for
    the heading, the class, the description, a reference or the source
    text of a sigil of an entry of the loaded data, as it stands, it shows
    that entry; more generally it shows exactly the entries one of whose
    lowercased texts contains the lowercased, trimmed query, each as
    often as it occurs in the data and in the order of the data, and all
    of them when that query is blank.  Lengthening the query never adds
    an entry: what is shown for a query whose term contains the term of
    another is shown for the other. *)
Theorem query_finds_an_entry_by_its_texts (data : list Entry) :
  (forall e f, In e data -> In f (fields e) -> In e (shown_by lower data f))
  /\ (forall q, strip (lower q) <> [] ->
        shown_by lower data q = filter (found_in lower (strip (lower q))) data)
  /\ (forall q e, strip (lower q) <> [] ->
        (In e (shown_by lower data q)
         <-> In e data
             /\ exists f, In f (fields e)
                          /\ contains (lower f) (strip (lower q)) = true))
  /\ (forall q, strip (lower q) = [] -> shown_by lower data q = data)
  /\ (forall q1 q2 e,
        strip (lower q1) <> [] ->
        contains (strip (lower q2)) (strip (lower q1)) = true ->
        In e (shown_by lower data q2) -> In e (shown_by lower data q1)).
Proof.
  assert (Hblank : forall q, strip (lower q) = [] -> shown_by lower data q = data).
  { intros q Hq. unfold shown_by, perform_query_search. rewrite Hq.
    destruct data; reflexivity. }
  assert (Hshown : forall q e, strip (lower q) <> [] ->
            (In e (shown_by lower data q)
             <-> In e data /\ entry_matches lower (strip (lower q)) e = true)).
  { intros q e Hq. unfold shown_by, perform_query_search.
    destruct data as [|e0 data']; [cbn; tauto|].
    destruct (strip (lower q)) as [|c t] eqn:Et; [congruence|].
    apply filter_In. }
  assert (Hiff : forall q e, strip (lower q) <> [] ->
            (In e (shown_by lower data q)
             <-> In e data
                 /\ exists f, In f (fields e)
                              /\ contains (lower f) (strip (lower q)) = true)).
  { intros q e Hq. rewrite Hshown by exact Hq. split.
    - intros [He Hm]. split; [exact He|]. now apply entry_matches_inv.
    - intros [He (f & Hf & Hc)]. split; [exact He|].
      eapply entry_matches_field; [exact Hf|exact Hc]. }
  assert (Hfilter : forall q, strip (lower q) <> [] ->
            shown_by lower data q = filter (found_in lower (strip (lower q))) data).
  { intros q Hq. unfold shown_by, perform_query_search.
    destruct data as [|e0 data']; [reflexivity|].
    destruct (strip (lower q)) as [|c t] eqn:Et; [congruence|].
    apply filter_ext. intros e. apply entry_matches_found. }
  split; [|split; [exact Hfilter|split; [exact Hiff|split; [exact Hblank|]]]].
  - intros e f He Hf.
    destruct (strip (lower f)) as [|c t] eqn:Et.
    + now rewrite Hblank.
    + apply Hiff; [rewrite Et; discriminate|]. split; [exact He|].
      exists f. split; [exact Hf|]. apply contains_strip.
  - intros q1 q2 e H1 Hc H2.
    destruct (strip (lower q2)) as [|c t] eqn:Et.
    + apply contains_iff in Hc. destruct Hc as (pre & post & Hc).
      destruct pre; [|discriminate]. destruct (strip (lower q1)); [congruence|discriminate].
    + rewrite <- Et in *. apply Hiff in H2; [|rewrite Et; discriminate].
      apply Hiff; [exact H1|]. destruct H2 as [He (f & Hf & Hcf)].
      split; [exact He|]. exists f. split; [exact Hf|].
      eapply contains_trans; eauto.
Qed.
End QueryFacts.

(** ** The sketch canvas *)

Lemma paint_from (p : point) (ms : list point) : forall s,
  draw_last s = Some p ->
  canvas_items (fold_left paint_on_draw_canvas ms s)
  = canvas_items s ++ filter (fun seg => off_axes (fst seg)) (polyline (p :: ms)).
Proof.
  revert p. induction ms as [|m ms IH]; intros p s Hs.
  - cbn. now rewrite List.app_nil_r.
  - cbn [fold_left]. rewrite (IH m) by (unfold paint_on_draw_canvas; now destruct (pen_down _)).
    unfold polyline. cbn [tl combine filter fst]. fold (polyline (m :: ms)).
    unfold paint_on_draw_canvas, pen_down. rewrite Hs. destruct p as [lx ly].
    unfold off_axes. cbn [fst snd].
    destruct (truthy lx && truthy ly); cbn [canvas_items].
    + now rewrite <- app_assoc.
    + reflexivity.
Qed.

Lemma sketch_step_agrees s ev :
  canvas_items s = pil_lines s ->
  canvas_items (sketch_step s ev) = pil_lines (sketch_step s ev).
Proof.
  intros H. destruct ev as [p| |]; cbn [sketch_step]; [|exact H|reflexivity].
  unfold paint_on_draw_canvas. destruct (pen_down _); cbn; now rewrite H.
Qed.

(** X15.  Whatever the sequence of pointer motions, button releases and
    clearings, the hidden image that a search hashes has received the same
    lines as the visible canvas.  A stroke started with the button up draws
    the segments joining each motion event to the next, except those that
    start at a point whose x or y is 0, which are left out; so a stroke of
    a single motion event draws nothing. *)
Theorem sketch_strokes :
  (forall evs : list sketch_event,
      canvas_items (fold_left sketch_step evs new_sketch)
      = pil_lines (fold_left sketch_step evs new_sketch))
  /\ (forall (s : Sketch) (ms : list point),
        draw_last s = None ->
        canvas_items (fold_left paint_on_draw_canvas ms s)
        = canvas_items s ++ filter (fun seg => off_axes (fst seg)) (polyline ms))
  /\ (forall (s : Sketch) (m : point),
        draw_last s = None ->
        canvas_items (reset_draw_canvas_pos (paint_on_draw_canvas s m)) = canvas_items s).
Proof.
  split; [|split].
  - assert (H : forall evs s, canvas_items s = pil_lines s ->
                canvas_items (fold_left sketch_step evs s)
                = pil_lines (fold_left sketch_step evs s)).
    { induction evs as [|ev evs IH]; intros s Hs; [exact Hs|].
      cbn [fold_left]. apply IH. now apply sketch_step_agrees. }
    intros evs. now apply H.
  - intros s [|m ms] Hs.
    + cbn. now rewrite List.app_nil_r.
    + cbn [fold_left]. rewrite (@paint_from m ms).
      * unfold paint_on_draw_canvas, pen_down. rewrite Hs. reflexivity.
      * unfold paint_on_draw_canvas, pen_down. now rewrite Hs.
  - intros s m Hs. unfold paint_on_draw_canvas, pen_down. now rewrite Hs.
Qed.

(** ** Choosing a document *)

Lemma default_index_from (l : list str) : forall (k : nat) (acc : option nat),
  (forall i, acc = Some i -> (i < k)%nat) ->
  match fold_left (fun a ip => if str_eqb (snd ip) DEFAULT_PDF_NAME
                               then Some (fst ip) else a)
                  (combine (seq k (length l)) l) acc with
  | Some i =>
      acc = Some i /\ ~ In DEFAULT_PDF_NAME l
      \/ (k <= i)%nat /\ nth_error l (i - k) = Some DEFAULT_PDF_NAME
  | None => acc = None /\ ~ In DEFAULT_PDF_NAME l
  end.
Proof.
  induction l as [|f l IH]; intros k acc Hacc; cbn [length seq combine fold_left].
  - destruct acc; [left|]; auto.
  - cbn [fst snd]. destruct (str_eqb f DEFAULT_PDF_NAME) eqn:E.
    + apply str_eqb_eq in E. subst f.
      assert (Hk : forall j, Some k = Some j -> (j < S k)%nat)
        by (intros j [= <-]; lia).
      specialize (IH (S k) (Some k) Hk).
      destruct (fold_left _ _ _) as [i|].
      * right. destruct IH as [[[= <-] _]|[Hk' Hn]].
        -- split; [lia|]. now rewrite Nat.sub_diag.
        -- split; [lia|]. replace (i - k)%nat with (S (i - S k)) by lia. exact Hn.
      * destruct IH as [H _]. discriminate.
    + assert (Hne : f <> DEFAULT_PDF_NAME).
      { intros ->.
        assert (H : str_eqb DEFAULT_PDF_NAME DEFAULT_PDF_NAME = true)
          by (now apply str_eqb_eq).
        congruence. }
      assert (Hk : forall j, acc = Some j -> (j < S k)%nat)
        by (intros j Hj; apply Hacc in Hj; lia).
      specialize (IH (S k) acc Hk).
      destruct (fold_left _ _ _) as [i|].
      * destruct IH as [[Ha Hn]|[Hk' Hn]].
        -- left. split; [exact Ha|]. intros [H|H]; [now apply Hne|now apply Hn].
        -- right. split; [lia|]. replace (i - k)%nat with (S (i - S k)) by lia. exact Hn.
      * destruct IH as [Ha Hn].
        split; [exact Ha|]. intros [H|H]; [now apply Hne|now apply Hn].
Qed.

Section ChoosingFacts.
Variable lower : str -> str.
Variable os_path_join : str -> str -> str.
Variable listdir : str -> option (list str).

Lemma default_pdf_index_spec (l : list str) :
  match default_pdf_index l with
  | Some i => nth_error l i = Some DEFAULT_PDF_NAME
  | None => ~ In DEFAULT_PDF_NAME l
  end.
Proof.
  unfold default_pdf_index.
  assert (H0 : forall i, @None nat = Some i -> (i < 0)%nat) by discriminate.
  pose proof (@default_index_from l 0%nat None H0) as H.
  destruct (fold_left _ _ _) as [i|].
  - destruct H as [[H _]|[_ H]]; [discriminate|].
    now rewrite Nat.sub_0_r in H.
  - exact (proj2 H).
Qed.

(** X16.  Choosing a folder lists the files whose lowercased name ends in
    .pdf, in the order of the directory listing.  When there is one, the
    document selected is a listed one, under the chosen folder: the one
    named by DEFAULT_PDF_NAME if it is listed, the first one otherwise,
    and its first page is previewed.  When there is none, or the listing
    fails, the list is emptied but the path of the document selected
    before stays selected. *)
Theorem choosing_a_folder (s : Chooser) (folder : str) :
  folder <> [] ->
  let s' := select_folder lower os_path_join listdir s folder in
  let pdfs := match listdir folder with
              | Some files => filter (fun f => endswith (lower f) (lit ".pdf")) files
              | None => []
              end in
  pdf_folder_path s' = folder
  /\ pdf_listbox s' = pdfs
  /\ match pdfs with
     | [] => selected_pdf_path s' = selected_pdf_path s
             /\ previewed s' = previewed s /\ curselection s' = None
     | first :: _ =>
         exists i name,
           curselection s' = Some i /\ nth_error pdfs i = Some name
           /\ selected_pdf_path s' = os_path_join folder name
           /\ previewed s' = Some (os_path_join folder name)
           /\ (In DEFAULT_PDF_NAME pdfs -> name = DEFAULT_PDF_NAME)
           /\ (~ In DEFAULT_PDF_NAME pdfs -> name = first /\ i = 0%nat)
     end.
Proof.
  intros Hf s' pdfs. subst s' pdfs. unfold select_folder.
  destruct folder as [|c0 folder]; [congruence|]. clear Hf.
  unfold populate_pdf_listbox. cbn [pdf_folder_path selected_pdf_path previewed].
  destruct (listdir (c0 :: folder)) as [files|]; [|cbn; auto].
  destruct (filter _ files) as [|first rest] eqn:Ep; [cbn; auto|].
  pose proof (default_pdf_index_spec (first :: rest)) as Hd.
  unfold on_pdf_select. cbn [curselection pdf_listbox pdf_folder_path].
  cbn [selected_pdf_path previewed].
  split; [reflexivity|]. split; [reflexivity|].
  destruct (default_pdf_index (first :: rest)) as [i|].
  - exists i, DEFAULT_PDF_NAME. split; [reflexivity|]. split; [exact Hd|].
    rewrite (nth_error_nth _ _ _ Hd).
    split; [reflexivity|]. split; [reflexivity|]. split; [auto|].
    intros Hn. exfalso. apply Hn. eapply nth_error_In; eauto.
  - exists 0%nat, first. cbn [nth nth_error]. repeat split; auto.
    intros Hin. now destruct Hd.
Qed.
End ChoosingFacts.

Lemma choosing_a_folder_witness :
  pdf_folder_path (select_folder (fun s => s) (path_join (ch "/")) two_books
                                 new_chooser (lit "books"))
  = lit "books".
Proof.
  apply (@choosing_a_folder (fun s => s) (path_join (ch "/")) two_books
           new_chooser (lit "books")).
  discriminate.
Defined.

(** ** The mouse wheel *)

(** X17.  On Windows the results scroll by minus the wheel movement divided
    by 120 and rounded down: never further up than the wheel moved, less
    than one unit further down.  A movement and its opposite scroll by
    opposite amounts exactly when the movement is a multiple of 120;
    otherwise the downward one scrolls one unit more, so that any movement
    short of a notch scrolls one unit when it goes down and nothing when it
    goes up.  Elsewhere the movement is ignored: button 4 scrolls one unit
    up, button 5 one unit down, any other event nothing. *)
Theorem wheel_rounds_downwards (delta num : Z) :
  let units := _on_mousewheel Nt delta num in
  (-120 * units <= delta < -120 * units + 120)%Z
  /\ ((delta mod 120 = 0)%Z -> _on_mousewheel Nt (- delta) num = (- units)%Z)
  /\ ((delta mod 120 <> 0)%Z -> _on_mousewheel Nt (- delta) num = (- units + 1)%Z)
  /\ ((0 < delta < 120)%Z ->
      units = 0%Z /\ _on_mousewheel Nt (- delta) num = 1%Z)
  /\ (_on_mousewheel Posix delta num = -1 <-> num = 4)%Z
  /\ (_on_mousewheel Posix delta num = 1 <-> num = 5)%Z
  /\ (_on_mousewheel Posix delta num = 0 <-> num <> 4 /\ num <> 5)%Z.
Proof.
  cbv zeta. unfold _on_mousewheel.
  pose proof (Z.div_mod delta 120 ltac:(lia)) as Hd.
  pose proof (Z.mod_pos_bound delta 120 ltac:(lia)) as Hm.
  pose proof (Z.div_mod (- delta) 120 ltac:(lia)) as Hd'.
  pose proof (Z.mod_pos_bound (- delta) 120 ltac:(lia)) as Hm'.
  split; [lia|]. split; [intros H; lia|]. split; [intros H; lia|].
  split; [intros H; split; [|lia]|].
  - rewrite Z.div_small by lia. reflexivity.
  - destruct (num =? 4)%Z eqn:E4; [apply Z.eqb_eq in E4|apply Z.eqb_neq in E4];
      (destruct (num =? 5)%Z eqn:E5; [apply Z.eqb_eq in E5|apply Z.eqb_neq in E5]);
      repeat split; intros; try lia.
Qed.

(** ** Records and files of a scan *)

Section ScanRecords.
Context {U : UnicodeDB}.
Context {D : Doubles}.
Variable env : Renderer.
Variable use_ocr : bool.

(** What a page returns: entries whose records stand for the files the
    page has written, and agree with the entry that holds them. *)
Lemma page_outcome (meth : method) (page : Z) (st st' : Scan)
      (segmented out : list Entry) (ms : list SigilMetadata) :
  out = on_last ms segmented ->
  written st' = written st ++ map image_path ms ->
  attached_to meth page (option_map heading (last_entry segmented)) ms ->
  (segmented = [] -> st' = st) ->
  no_sigils segmented -> on_page page segmented ->
  written st' = written st ++ map image_path (records out)
  /\ forall e m, In e out -> In m (sigils_metadata e) ->
       parent_entry_heading m = heading e /\ sm_page_number m = page_number e
       /\ extraction_method m = meth.
Proof.
  intros -> W A N F P.
  destruct segmented as [|x l _] using rev_ind.
  - rewrite on_last_nil. split; [|intros e m []].
    rewrite (N eq_refl). cbn. now rewrite List.app_nil_r.
  - rewrite records_on_last by (destruct l; discriminate).
    assert (Fl : no_sigils l /\ sigils_metadata x = []).
    { unfold no_sigils in *. rewrite Forall_app in F. destruct F as [F1 F2].
      inversion F2; subst. auto. }
    destruct Fl as [Fl Fx].
    assert (Hrec : records (l ++ [x]) = []) by (now apply records_fresh).
    rewrite Hrec. split; [exact W|].
    rewrite on_last_snoc. intros e m He Hm.
    apply in_app_or in He. destruct He as [He|[<-|[]]].
    + unfold no_sigils in Fl. rewrite Forall_forall in Fl.
      rewrite (Fl e He) in Hm. destruct Hm.
    + cbn [add_sigils sigils_metadata heading page_number] in *.
      rewrite Fx in Hm. cbn [app] in Hm.
      rewrite last_entry_snoc in A. unfold attached_to in A.
      rewrite Forall_forall in A. destruct (A m Hm) as (Hk & Hp & Ho).
      cbn [option_map] in Ho. injection Ho as Ho.
      unfold on_page in P. rewrite Forall_app in P. destruct P as [_ P].
      inversion P; subst. auto.
Qed.

Lemma extract_page_outcome st idx pg :
  let out := extract_page env use_ocr st idx pg in
  written (snd out) = written st ++ map image_path (records (fst (fst out)))
  /\ forall e m, In e (fst (fst out)) -> In m (sigils_metadata e) ->
       parent_entry_heading m = heading e /\ sm_page_number m = page_number e
       /\ extraction_method m = if use_ocr then Ocr else Direct.
Proof.
  unfold extract_page. destruct use_ocr.
  - destruct (ocr pg) as [data|].
    + destruct (raster_entries env st idx data) as (ms & E & W & A & N).
      eapply page_outcome; eauto.
      * apply segment_page_fresh.
      * apply segment_page_on_page.
    + cbn. rewrite List.app_nil_r. split; [reflexivity|intros e m []].
  - destruct (vector_entries env st (plumber pg) idx) as (ms & E & W & A & N).
    eapply page_outcome; eauto.
    + apply segment_page_fresh.
    + apply segment_page_on_page.
Qed.

Lemma scan_pages_outcome l : forall st acc,
  let out := fold_left (scan_page env use_ocr) l (st, acc) in
  exists new,
    snd out = acc ++ new
    /\ written (fst out) = written st ++ map image_path (records new)
    /\ forall e m, In e new -> In m (sigils_metadata e) ->
         parent_entry_heading m = heading e /\ sm_page_number m = page_number e
         /\ extraction_method m = if use_ocr then Ocr else Direct.
Proof.
  induction l as [|[idx pg] l IH]; intros st acc; cbv zeta in *; cbn [fold_left].
  - exists []. cbn. rewrite !List.app_nil_r. split; [reflexivity|].
    split; [reflexivity|intros e m []].
  - assert (Hs : scan_page env use_ocr (st, acc) (idx, pg)
                 = (snd (extract_page env use_ocr st idx pg),
                    acc ++ fst (fst (extract_page env use_ocr st idx pg)))).
    { unfold scan_page. now destruct (extract_page env use_ocr st idx pg) as [[? ?] ?]. }
    rewrite Hs. clear Hs.
    pose proof (extract_page_outcome st idx pg) as [W1 C1].
    destruct (extract_page env use_ocr st idx pg) as [[parsed ves] st1].
    cbn [fst snd] in *.
    destruct (IH st1 (acc ++ parsed)) as (new & E & W & C).
    exists (parsed ++ new). rewrite E, W, W1. split; [now rewrite app_assoc|].
    split.
    + unfold records. now rewrite flat_map_app, map_app, app_assoc.
    + intros e m He. apply in_app_or in He. destruct He; eauto.
Qed.

(** X18.  When a scan goes through, the files it has written are, in
    order, the images named by the records of its dataset: one file per
    record and one record per file, no two records naming the same file.
    Every record agrees with the entry that holds it, in heading and in
    page number, and carries the method of the strategy used. *)
Theorem records_match_files (doc : list PageInput) (s e : Z) (st0 : Scan)
        (data : list Entry) :
  snd (run_scan env use_ocr doc s e st0) = Some data ->
  written (fst (run_scan env use_ocr doc s e st0))
  = written st0 ++ map image_path (records data)
  /\ NoDup (map image_path (records data))
  /\ forall entry m, In entry data -> In m (sigils_metadata entry) ->
       parent_entry_heading m = heading entry
       /\ sm_page_number m = page_number entry
       /\ extraction_method m = if use_ocr then Ocr else Direct.
Proof.
  intros Hdata.
  destruct (worker_progresses env use_ocr doc s e (start_scan_thread st0))
    as (calls & _ & _ & Wc).
  revert Hdata Wc. unfold run_scan, scan_pdf_worker.
  destruct (negb _); [discriminate|].
  destruct (_ <? _)%Z; [discriminate|].
  destruct (scan_pages_outcome
              (page_range doc s (Z.min e (Z.of_nat (length doc) - 1)))
              (start_scan_thread st0) []) as (new & E & W & C).
  destruct (fold_left _ _ _) as [st' data']. cbn [fst snd app] in *.
  intros [= <-] Wc. subst new. cbn [log_add written] in *.
  split; [exact W|]. split; [|exact C].
  rewrite W in Wc. apply app_inv_head in Wc. rewrite Wc. apply paths_nodup.
Qed.
End ScanRecords.

Lemma records_match_files_witness :
  written (fst (run_scan gap_env true three_glyph_doc 0 0 scan0))
  = written scan0 ++ map image_path (records three_glyph_data).
Proof.
  apply (@records_match_files ascii_db exact_doubles gap_env true three_glyph_doc 0 0 scan0
           three_glyph_data).
  vm_compute. reflexivity.
Defined.

(** ** Types of the raster annotations *)

Lemma headings_on_last ms l : map heading (on_last ms l) = map heading l.
Proof.
  destruct l as [|x l _] using rev_ind; [reflexivity|].
  rewrite on_last_snoc, !map_app. reflexivity.
Qed.

Lemma filter_on_page page l :
  on_page page l -> filter (fun e => (page_number e =? page)%Z) l = l.
Proof.
  unfold on_page. induction 1 as [|e l He _ IH]; [reflexivity|].
  cbn [filter]. rewrite He, Z.eqb_refl, IH. reflexivity.
Qed.

Lemma existsb_map (A B : Type) (f : A -> B) (p : B -> bool) (l : list A) :
  existsb p (map f l) = existsb (fun x => p (f x)) l.
Proof. induction l as [|x l IH]; [reflexivity|]. cbn. now rewrite IH. Qed.

Section RasterKinds.
Context {U : UnicodeDB}.
Context {D : Doubles}.
Variable env : Renderer.

Lemma ocr_row_kinds number sc entries ves row :
  on_page (number + 1) entries ->
  exists ms sc' ves1,
    ocr_row env number (sc, entries, ves) row = (sc', on_last ms entries, ves ++ ves1)
    /\ map (fun v => kind_class (vkind v)) ves1
       = map (fun r => token_class (map heading entries) (row_text r))
             (filter readable [row]).
Proof.
  intros Hpage.
  assert (Hskip : readable row = false -> exists ms sc' ves1,
             (sc, entries, ves) = (sc', on_last ms entries, ves ++ ves1)
             /\ map (fun v => kind_class (vkind v)) ves1
                = map (fun r => token_class (map heading entries) (row_text r))
                      (filter readable [row])).
  { intros Hr. exists [], sc, []. cbn [filter]. rewrite Hr.
    rewrite on_last_none, List.app_nil_r. auto. }
  assert (Hone : forall (k : vtype) (sc' : Scan) (entries' : list Entry)
                        (ms : list SigilMetadata),
             readable row = true ->
             entries' = on_last ms entries ->
             kind_class k = token_class (map heading entries) (row_text row) ->
             exists ms' sc'' ves1,
               (sc', entries', ves ++ [ocr_ve row k (row_text row)])
               = (sc'', on_last ms' entries, ves ++ ves1)
               /\ map (fun v => kind_class (vkind v)) ves1
                  = map (fun r => token_class (map heading entries) (row_text r))
                        (filter readable [row])).
  { intros k sc' entries' ms Hr -> Hk. exists ms, sc', [ocr_ve row k (row_text row)].
    cbn [filter map ocr_ve vkind]. rewrite Hr. cbn [map]. now rewrite Hk. }
  unfold ocr_row.
  destruct (o_text row) as [t|] eqn:Eo;
    [|apply Hskip; unfold readable; now rewrite Eo].
  destruct (row_text row) as [|c0 txt] eqn:Et;
    [apply Hskip; unfold readable; now rewrite Eo, Et|].
  assert (Hr : readable row = true) by (unfold readable; now rewrite Eo, Et).
  clear Hskip.
  assert (Hsame : forall (k : vtype) (sc' : Scan),
             kind_class k = token_class (map heading entries) (c0 :: txt) ->
             exists ms' sc'' ves1,
               (sc', entries, ves ++ [ocr_ve row k (c0 :: txt)])
               = (sc'', on_last ms' entries, ves ++ ves1)
               /\ map (fun v => kind_class (vkind v)) ves1
                  = map (fun r => token_class (map heading entries) (row_text r))
                        (filter readable [row])).
  { intros k sc' Hk. apply (Hone k sc' entries [] Hr); [|exact Hk].
    symmetry. apply on_last_none. }
  unfold token_class in Hone, Hsame.
  rewrite (@filter_on_page _ _ Hpage).
  rewrite existsb_map in Hone, Hsame.
  destruct (existsb _ entries); [now apply Hsame|].
  destruct (re_search BIBLIO_RE (c0 :: txt)); [now apply Hsame|].
  destruct (raster_candidate (c0 :: txt)); [|now apply Hsame].
  rewrite (@active_entry_last _ _ Hpage).
  destruct entries as [|x l _] using rev_ind; [now apply Hsame|].
  rewrite last_entry_snoc.
  unfold on_page in Hpage. rewrite Forall_app in Hpage. destruct Hpage as [_ Hx].
  inversion Hx; subst.
  destruct (_save_sigil_image _ _ _ _ _ _) as [[path|] sc']; [|now apply Hsame].
  eapply Hone; [exact Hr|now apply attach_last|reflexivity].
Qed.

Lemma ocr_rows_kinds number rows : forall sc entries ves,
  on_page (number + 1) entries ->
  exists ms sc' ves1,
    fold_left (ocr_row env number) rows (sc, entries, ves)
    = (sc', on_last ms entries, ves ++ ves1)
    /\ map (fun v => kind_class (vkind v)) ves1
       = map (fun r => token_class (map heading entries) (row_text r))
             (filter readable rows).
Proof.
  induction rows as [|row rows IH]; intros sc entries ves Hpage.
  - exists [], sc, []. cbn [fold_left filter map].
    now rewrite on_last_none, List.app_nil_r.
  - destruct (@ocr_row_kinds number sc entries ves row Hpage)
      as (ms1 & sc1 & v1 & E1 & K1).
    destruct (IH sc1 (on_last ms1 entries) (ves ++ v1) (@on_page_on_last _ ms1 _ Hpage))
      as (ms2 & sc2 & v2 & E2 & K2).
    exists (ms1 ++ ms2), sc2, (v1 ++ v2). cbn [fold_left]. rewrite E1, E2.
    rewrite on_last_app, <- app_assoc. split; [reflexivity|].
    change (row :: rows) with ([row] ++ rows).
    rewrite filter_app, !map_app, K1, K2. now rewrite headings_on_last.
Qed.

Lemma ocr_row_glyphs number sc entries ves row :
  on_page (number + 1) entries ->
  records_ok (fun m => token_class (map heading entries) (source_text m) = KGlyph)
             entries ->
  records_ok (fun m => token_class (map heading entries) (source_text m) = KGlyph)
             (snd (fst (ocr_row env number (sc, entries, ves) row))).
Proof.
  intros Hpage H. unfold ocr_row.
  destruct (o_text row) as [t|]; [|exact H].
  destruct (row_text row) as [|c0 txt]; [exact H|].
  rewrite (@filter_on_page _ _ Hpage).
  destruct (existsb _ entries) eqn:Eh; [exact H|].
  destruct (re_search BIBLIO_RE (c0 :: txt)) eqn:Eb; [exact H|].
  destruct (raster_candidate (c0 :: txt)) eqn:Ec; [|exact H].
  destruct (active_entry _ _) as [a|]; [|exact H].
  destruct (_save_sigil_image _ _ _ _ _ _) as [[path|] sc']; [|exact H].
  cbn [fst snd]. intros e m He Hm.
  apply in_attach in He. destruct He as [He|(e0 & He0 & ->)]; [eauto|].
  cbn [add_sigil sigils_metadata] in Hm. apply in_app_or in Hm.
  destruct Hm as [Hm|[<-|[]]]; [eauto|].
  cbn [ocr_meta source_text]. unfold token_class.
  now rewrite existsb_map, Eh, Eb, Ec.
Qed.

Lemma ocr_rows_glyphs number rows : forall sc entries ves,
  on_page (number + 1) entries ->
  records_ok (fun m => token_class (map heading entries) (source_text m) = KGlyph)
             entries ->
  records_ok (fun m => token_class (map heading entries) (source_text m) = KGlyph)
             (snd (fst (fold_left (ocr_row env number) rows (sc, entries, ves)))).
Proof.
  induction rows as [|row rows IH]; intros sc entries ves Hpage H; [exact H|].
  cbn [fold_left].
  pose proof (@ocr_row_glyphs number sc entries ves row Hpage H) as H1.
  destruct (@ocr_row_kinds number sc entries ves row Hpage)
    as (ms1 & sc1 & v1 & E1 & _).
  rewrite E1 in *. cbn [fst snd] in H1.
  rewrite <- (headings_on_last ms1 entries) in H1 |- *.
  apply IH; [now apply on_page_on_last|exact H1].
Qed.

(** X19.  The type of every annotation of the raster strategy depends on
    the text of its token and on the headings of the page only, by this
    order of precedence: a token that occurs within the heading of an
    entry of the page is a heading; otherwise a token in which a citation
    is found is a citation; otherwise a token that passes the symbol
    pattern is a glyph, saved or not; any other token is a text block.
    The glyph loop leaves the headings of the page as they are, and no
    token that occurs in one of them is ever stored as a sigil. *)
Theorem raster_annotation_types (st : Scan) (number : Z) (data : list OcrRow) :
  let out := _extract_elements_with_ocr env st number (Some data) in
  let rows := filter (fun r => Qltb (-1) (conf r)) data in
  let headings := map heading (segment_page (number + 1) (ocr_lines rows)) in
  map (fun v => kind_class (vkind v)) (snd (fst out))
  = map (fun r => token_class headings (row_text r)) (filter readable rows)
  /\ map heading (fst (fst out)) = headings
  /\ (forall e m, In e (fst (fst out)) -> In m (sigils_metadata e) ->
        token_class headings (source_text m) = KGlyph
        /\ existsb (fun h => contains h (source_text m)) headings = false).
Proof.
  intros out rows headings. subst out headings. unfold _extract_elements_with_ocr.
  fold rows. set (segmented := segment_page (number + 1) (ocr_lines rows)).
  destruct (@ocr_rows_kinds number rows st segmented []
              (segment_page_on_page (number + 1) _))
    as (ms & st' & ves1 & E & K).
  assert (Hfresh : records_ok
                     (fun m => token_class (map heading segmented) (source_text m)
                               = KGlyph) segmented).
  { intros e1 m1 He1 Hm1.
    pose proof (segment_page_fresh (number + 1) (ocr_lines rows)) as F.
    unfold no_sigils in F. rewrite Forall_forall in F.
    fold segmented in F. rewrite (F e1 He1) in Hm1. destruct Hm1. }
  pose proof (@ocr_rows_glyphs number rows st segmented []
                (segment_page_on_page (number + 1) _) Hfresh) as Hg.
  rewrite E in *. cbn [fst snd app] in *.
  split; [exact K|]. split; [apply headings_on_last|].
  intros e m He Hm. pose proof (Hg e m He Hm) as Hk. split; [exact Hk|].
  unfold token_class in Hk.
  destruct (existsb _ (map heading segmented)); [discriminate|reflexivity].
Qed.
End RasterKinds.

(** ** The empty canvas *)

Lemma rgb_eqb_eq (a b : rgb) : rgb_eqb a b = true <-> a = b.
Proof.
  destruct a as [[r1 g1] b1], b as [[r2 g2] b2]. unfold rgb_eqb.
  rewrite !andb_true_iff, !N.eqb_eq. split.
  - intros [[-> ->] ->]. reflexivity.
  - intros [= -> -> ->]. auto.
Qed.

Lemma bump_length c counts : (length counts <= length (bump c counts))%nat.
Proof.
  induction counts as [|[n c'] counts IH]; cbn [bump length]; [lia|].
  destruct (rgb_eqb c c'); cbn [length]; lia.
Qed.

Lemma fold_bump_length l : forall counts,
  (length counts <= length (fold_left (fun acc x => bump x acc) l counts))%nat.
Proof.
  induction l as [|x l IH]; intros counts; cbn [fold_left]; [lia|].
  etransitivity; [apply bump_length|apply IH].
Qed.

(** One colour counted at the end: every pixel had it. *)
Lemma fold_bump_single l : forall n c m c',
  fold_left (fun acc x => bump x acc) l [(n, c)] = [(m, c')] ->
  c' = c /\ m = n + N.of_nat (length l) /\ l = repeat c (length l).
Proof.
  induction l as [|x l IH]; intros n c m c'; cbn [fold_left length repeat].
  - intros [= -> ->]. repeat split. lia.
  - cbn [bump]. destruct (rgb_eqb x c) eqn:E.
    + apply rgb_eqb_eq in E. subst x. intros H. apply IH in H.
      destruct H as (-> & -> & Hl). repeat split; [lia|]. now rewrite <- Hl.
    + intros H. pose proof (fold_bump_length l [(n, c); (1, x)]) as Hlen.
      rewrite H in Hlen. cbn in Hlen. lia.
Qed.

Section EmptyCanvas.
Variable senv : SearchEnv.

(** The check raises on the canvases of a single colour, and on no
    other. *)
Lemma empty_canvas_raises (drawn : Image) :
  empty_canvas drawn = Raises <-> one_colour drawn.
Proof.
  split.
  - destruct drawn as [px]. unfold empty_canvas, getcolors, one_colour. cbn [pixels].
    destruct px as [|x l]; [discriminate|]. cbn [fold_left bump].
    pose proof (fold_bump_length l [(1, x)]) as Hlen.
    destruct (fold_left _ l [(1, x)]) as [|[count colour] rest] eqn:E;
      [cbn in Hlen; lia|].
    destruct rest as [|y rest]; [|discriminate].
    intros _. apply fold_bump_single in E. destruct E as (_ & _ & Hl).
    exists x, (length l). cbn [repeat]. now rewrite <- Hl.
  - intros (c & n & H). destruct drawn as [px]. cbn [pixels] in H. subst px.
    apply empty_canvas_one_colour.
Qed.

(** X20.  The drawn-sigil search never answers that nothing is drawn.
    It raises at the canvas check of line 654 exactly when a dataset is
    at hand and the canvas shows a single colour, whatever the colour
    and the size of the canvas, the untouched canvas included; nothing
    has been hashed by then.  A canvas of two colours or more passes the
    check. *)
Theorem one_colour_canvases_stop_the_search (q : Query) (drawn : Image) :
  let out := search_drawn_sigil_action senv q drawn in
  fst out <> EmptyCanvas
  /\ (fst out = Raised <-> loaded senv q <> [] /\ one_colour drawn)
  /\ (fst out = Raised -> hashed (snd out) = hashed q)
  /\ one_colour blank_canvas
  /\ (getcolors 1 drawn = None -> fst out <> Raised).
Proof.
  cbv zeta. unfold search_drawn_sigil_action.
  pose proof (load_step senv q) as Hl.
  set (q1 := match scanned_data_for_query q with
             | [] => load_scanned_data_for_query senv q
             | _ => q
             end) in *.
  assert (Hh : hashed q1 = hashed q).
  { subst q1. destruct (scanned_data_for_query q); auto.
    unfold load_scanned_data_for_query. destruct (stored_dataset senv); auto. }
  rewrite Hl.
  pose proof (empty_canvas_raises drawn) as Hr.
  pose proof (@empty_canvas_never_holds drawn) as Hn.
  assert (Hb : one_colour blank_canvas).
  { apply empty_canvas_raises, empty_canvas_blank. }
  destruct (loaded senv q) as [|e0 data].
  - cbn [fst snd]. split; [discriminate|]. split; [|split; [discriminate|]].
    + split; [discriminate|intros [H _]; congruence].
    + split; [exact Hb|discriminate].
  - destruct (empty_canvas drawn) eqn:E; [| now destruct Hn |].
    + cbn [fst snd]. split; [discriminate|]. split; [|split; [auto|]].
      * split; [|reflexivity]. intros _. split; [discriminate|now apply Hr].
      * split; [exact Hb|]. intros Hc. unfold empty_canvas in E.
        rewrite Hc in E. discriminate.
    + assert (Hne : ~ one_colour drawn).
      { intros H. apply Hr in H. discriminate. }
      destruct (phash_drawing senv drawn) as [h|].
      * destruct (collect senv h (e0 :: data) _) as [[ms lg] hs]. cbn [fst snd].
        split; [discriminate|]. split; [|split; [discriminate|]].
        -- split; [discriminate|intros [_ H]; contradiction].
        -- split; [exact Hb|discriminate].
      * cbn [fst snd].
        split; [discriminate|]. split; [|split; [discriminate|]].
        -- split; [discriminate|intros [_ H]; contradiction].
        -- split; [exact Hb|discriminate].
Qed.
End EmptyCanvas.

(** ** Headings of one character *)

Lemma lower_not_space c : ascii_lower c = true -> isspace c = false.
Proof.
  unfold ascii_lower. rewrite in_range_spec. intros H.
  apply not_true_is_false. intros Hs. apply isspace_spec in Hs. lia.
Qed.

Lemma lower_not_more c : ascii_lower c = true -> heading_more c = false.
Proof.
  unfold ascii_lower. rewrite in_range_spec. intros H.
  apply not_true_is_false. unfold heading_more, ascii_upper, ascii_digit.
  change (ch "-") with 45. change (ch ",") with 44. unfold RSQUO.
  rewrite !orb_true_iff, !in_range_spec, !N.eqb_eq.
  intros [[[[[Hu|Hd]|Hs]|Hh]|Hq]|Hc]; try lia.
  apply isspace_spec in Hs. lia.
Qed.

(** A run of lowercase letters before a full stop is determined by the
    text. *)
Lemma lows_unique (a : str) : forall b r1 r2,
  Forall (fun x => ascii_lower x = true) a ->
  Forall (fun x => ascii_lower x = true) b ->
  a ++ ch "." :: r1 = b ++ ch "." :: r2 -> a = b.
Proof.
  induction a as [|x a IH]; intros [|y b] r1 r2 Ha Hb E; cbn [app] in E.
  - reflexivity.
  - injection E as E _. inversion Hb as [|? ? Hy _]; subst. discriminate Hy.
  - injection E as E _. inversion Ha as [|? ? Hx _]; subst. discriminate Hx.
  - injection E as -> E. inversion Ha; inversion Hb; subst. f_equal. eauto.
Qed.

Section ShortHeadings.
Context {U : UnicodeDB}.
Context {D : Doubles}.

Lemma short_heading_rejected c sp tag rest g1 ws g2 rest' :
  isspace sp = true -> tag_shaped tag ->
  ~ heading_prefix (c :: sp :: tag ++ rest) g1 ws g2 rest'.
Proof.
  intros Hsp (t & lows & -> & Ht & Hlen & Hlows)
         [Hline (c' & run & -> & Hc' & Hne & Hall) [Hwne Hws] _].
  destruct lows as [|l1 lows]; [cbn in Hlen; lia|].
  inversion Hlows as [|? ? Hl1 _]; subst.
  cbn [app] in Hline. injection Hline as _ Hline.
  destruct run as [|r1 [|r2 [|r3 run]]]; [congruence| | |]; cbn [app] in Hline.
  - injection Hline as _ Hline. destruct ws as [|w ws]; [congruence|].
    cbn [app] in Hline. injection Hline as <- _. inversion Hws; subst.
    apply upper_not_space in Ht. congruence.
  - injection Hline as _ _ Hline. destruct ws as [|w ws]; [congruence|].
    cbn [app] in Hline. injection Hline as <- _. inversion Hws; subst.
    apply lower_not_space in Hl1. congruence.
  - injection Hline as _ _ <- _.
    inversion Hall as [|? ? _ H2]; subst. inversion H2 as [|? ? _ H3]; subst.
    inversion H3 as [|? ? Hm _]; subst. apply lower_not_more in Hl1. congruence.
Qed.

(** X21.  A heading of one character is recognised only when at least two
    blanks separate it from the tag: the pattern wants a second character
    in the heading, and only a blank can be one.  With a single blank the
    line is no heading line, whatever follows the tag; with one more blank
    it is one, and announces the character as heading and the tag as
    class. *)
Theorem one_character_headings (c sp : char) (tag rest : str) :
  heading_first c = true -> isspace sp = true -> tag_shaped tag ->
  is_heading (c :: sp :: tag ++ rest) = false
  /\ forall sp2, isspace sp2 = true ->
       is_heading (c :: sp :: sp2 :: tag ++ rest) = true
       /\ announced (c :: sp :: sp2 :: tag ++ rest) = ([c], tag).
Proof.
  intros Hc Hsp Htag. split.
  - unfold is_heading.
    destruct (re_match HEADING_CLASS_RE (c :: sp :: tag ++ rest)) as [m|] eqn:E;
      [|reflexivity].
    destruct (heading_match_sound _ E) as (g1 & ws & g2 & rest' & Hp & _).
    exfalso. revert Hp. now apply short_heading_rejected.
  - intros sp2 Hsp2.
    set (line := c :: sp :: sp2 :: tag ++ rest).
    assert (Hp : heading_prefix line [c; sp] [sp2] tag rest).
    { destruct Htag as (t & lows & -> & Ht & Hlen & Hlows). split.
      - reflexivity.
      - exists c, [sp]. repeat split; auto; [discriminate|].
        constructor; [|constructor]. unfold heading_more. rewrite Hsp.
        now rewrite !orb_true_r.
      - split; [discriminate|]. constructor; [exact Hsp2|constructor].
      - exists t, lows. auto. }
    pose proof (heading_match_complete Hp) as Hm.
    unfold is_heading, announced.
    destruct (re_match HEADING_CLASS_RE line) as [m|] eqn:E; [|congruence].
    split; [reflexivity|].
    destruct (heading_match_sound _ E)
      as (g1 & ws & g2 & rest' & Hp' & -> & -> & _ & Hmin).
    specialize (Hmin _ _ _ _ Hp). cbn [length] in Hmin.
    destruct Hp' as [Hline (c' & run & -> & Hc' & Hne & Hall) [Hwne Hws]
                           (t' & lows' & -> & Ht' & Hlen' & Hlows')].
    destruct run as [|r1 [|r2 run]]; [congruence| |cbn [length] in Hmin; lia].
    unfold line in Hline. cbn [app] in Hline. injection Hline as <- <- Hline.
    destruct Htag as (t & lows & -> & Ht & Hlen & Hlows).
    destruct ws as [|w1 [|w2 ws]]; [congruence| |].
    + cbn [app] in Hline. injection Hline as _ <- Hline.
      rewrite <- !app_assoc in Hline. cbn [app] in Hline.
      apply lows_unique in Hline; auto. subst lows'.
      rewrite (@strip_cons c [sp] (@first_not_space c Hc)).
      assert (Hr : rstrip [sp] = []) by (unfold rstrip; cbn; now rewrite Hsp).
      rewrite Hr. f_equal.
      rewrite (@strip_cons t (lows ++ [ch "."]) (@upper_not_space t Ht)).
      rewrite rstrip_snoc by reflexivity. reflexivity.
    + cbn [app] in Hline. injection Hline as _ <- _.
      inversion Hws as [|? ? _ H2]; subst. inversion H2 as [|? ? Hw _]; subst.
      apply upper_not_space in Ht. congruence.
Qed.
End ShortHeadings.

Lemma one_character_headings_witness :
  is_heading (ch "A" :: ch " " :: lit "Sym." ++ lit " first letter") = false.
Proof.
  apply (@one_character_headings ascii_db (ch "A") (ch " ") (lit "Sym.")
           (lit " first letter")).
  - reflexivity.
  - reflexivity.
  - exists (ch "S"), (lit "ym"). split; [reflexivity|]. split; [reflexivity|].
    split; [cbn; lia|]. repeat constructor.
Defined.

(** ** Two runs of a scan *)

Lemma in_step_refl a b : sigil_counter a = sigil_counter b -> in_step a a b b.
Proof. intros H. split; [exact H|]. exists []. now rewrite !List.app_nil_r. Qed.

Lemma in_step_trans a a' a'' b b' b'' :
  in_step a a' b b' -> in_step a' a'' b' b'' -> in_step a a'' b b''.
Proof.
  intros [_ (n1 & A1 & B1)] [C (n2 & A2 & B2)]. split; [exact C|].
  exists (n1 ++ n2). now rewrite A2, B2, A1, B1, !app_assoc.
Qed.

Lemma filter_map_core (g : _ -> bool) (l : list Entry) :
  map core (filter (fun e => g (core e)) l) = filter g (map core l).
Proof.
  induction l as [|e l IH]; [reflexivity|]. cbn [filter map].
  destruct (g (core e)); cbn [map]; now rewrite IH.
Qed.

Lemma find_map_core (g : _ -> bool) (l : list Entry) :
  option_map core (find (fun e => g (core e)) l) = find g (map core l).
Proof.
  induction l as [|e l IH]; [reflexivity|]. cbn [find map].
  destruct (g (core e)); [reflexivity|exact IH].
Qed.

Lemma map_core_attach_rev page m r : map core (attach_rev page m r) = map core r.
Proof.
  induction r as [|e r IH]; [reflexivity|]. cbn [attach_rev].
  destruct (page_number e =? page)%Z; cbn [map]; [reflexivity|now rewrite IH].
Qed.

Lemma map_core_attach page m l : map core (attach page m l) = map core l.
Proof.
  unfold attach. now rewrite map_rev, map_core_attach_rev, <- map_rev, rev_involutive.
Qed.

Section TwoRuns.
Context {U : UnicodeDB}.
Context {D : Doubles}.
Variables env1 env2 : Renderer.

Lemma save_in_step st1 st2 fitz box1 box2 h pg :
  sigil_counter st1 = sigil_counter st2 ->
  in_step st1 (snd (_save_sigil_image env1 st1 fitz box1 h pg))
          st2 (snd (_save_sigil_image env2 st2 fitz box2 h pg)).
Proof.
  intros Hc. unfold _save_sigil_image, in_step. rewrite Hc.
  destruct (get_pixmap env1 _ fitz box1) as [|w1 h1];
    destruct (get_pixmap env2 _ fitz box2) as [|w2 h2];
    repeat match goal with
           | |- context [if ?b then _ else _] => destruct b
           end;
    cbn [snd sigil_counter attempted]; (split; [reflexivity|]);
    eexists; split; reflexivity.
Qed.

Lemma plumber_char_in_step p fitz sc1 sc2 cur1 cur2 ves1 ves2 c :
  sigil_counter sc1 = sigil_counter sc2 ->
  option_map oe_heading cur1 = option_map oe_heading cur2 ->
  let r1 := plumber_char env1 p fitz (sc1, cur1, ves1) c in
  let r2 := plumber_char env2 p fitz (sc2, cur2, ves2) c in
  in_step sc1 (fst (fst r1)) sc2 (fst (fst r2))
  /\ option_map oe_heading (snd (fst r1)) = option_map oe_heading (snd (fst r2)).
Proof.
  intros Hc Hh. cbv zeta. unfold plumber_char.
  destruct (vector_candidate (text c)); [|split; [now apply in_step_refl|exact Hh]].
  destruct cur1 as [e1|], cur2 as [e2|]; try discriminate;
    [|split; [now apply in_step_refl|exact Hh]].
  injection Hh as Hh.
  destruct (rejects p _);
    [split; [now apply in_step_refl|cbn [fst snd option_map]; congruence]|].
  rewrite Hh.
  pose proof (save_in_step sc1 sc2 fitz
                (rect_tuple (pad {| rx0 := x0 c; ry0 := top c;
                                    rx1 := x1 c; ry1 := bottom c |}))
                (rect_tuple (pad {| rx0 := x0 c; ry0 := top c;
                                    rx1 := x1 c; ry1 := bottom c |}))
                (oe_heading e2) (pp_number p) Hc) as Hs.
  destruct (_save_sigil_image env1 _ _ _ _ _) as [[i1|] s1];
    destruct (_save_sigil_image env2 _ _ _ _ _) as [[i2|] s2];
    cbn [fst snd option_map add_sigil_open oe_heading] in *;
    (split; [exact Hs|congruence]).
Qed.

Lemma plumber_chars_in_step p fitz cs : forall sc1 sc2 cur1 cur2 ves1 ves2,
  sigil_counter sc1 = sigil_counter sc2 ->
  option_map oe_heading cur1 = option_map oe_heading cur2 ->
  in_step sc1 (fst (fst (fold_left (plumber_char env1 p fitz) cs (sc1, cur1, ves1))))
          sc2 (fst (fst (fold_left (plumber_char env2 p fitz) cs (sc2, cur2, ves2)))).
Proof.
  induction cs as [|c cs IH]; intros sc1 sc2 cur1 cur2 ves1 ves2 Hc Hh.
  - now apply in_step_refl.
  - cbn [fold_left].
    destruct (@plumber_char_in_step p fitz sc1 sc2 cur1 cur2 ves1 ves2 c Hc Hh)
      as [S1 H1].
    destruct (plumber_char env1 p fitz (sc1, cur1, ves1) c) as [[a1 b1] v1].
    destruct (plumber_char env2 p fitz (sc2, cur2, ves2) c) as [[a2 b2] v2].
    cbn [fst snd] in *. eapply in_step_trans; [exact S1|].
    apply IH; [exact (proj1 S1)|exact H1].
Qed.

Lemma ocr_row_in_step number sc1 sc2 es1 es2 ves1 ves2 row :
  sigil_counter sc1 = sigil_counter sc2 ->
  map core es1 = map core es2 ->
  let r1 := ocr_row env1 number (sc1, es1, ves1) row in
  let r2 := ocr_row env2 number (sc2, es2, ves2) row in
  in_step sc1 (fst (fst r1)) sc2 (fst (fst r2))
  /\ map core (snd (fst r1)) = map core (snd (fst r2)).
Proof.
  intros Hc He. cbv zeta. unfold ocr_row.
  destruct (o_text row); [|split; [now apply in_step_refl|exact He]].
  destruct (row_text row) as [|c0 txt]; [split; [now apply in_step_refl|exact He]|].
  assert (Hw : forall es,
             existsb (fun e => contains (heading e) (c0 :: txt))
                     (filter (fun e => (page_number e =? number + 1)%Z) es)
             = existsb (fun k => contains (fst (fst (fst (fst k)))) (c0 :: txt))
                       (filter (fun k => (snd k =? number + 1)%Z) (map core es))).
  { intros es.
    rewrite <- (filter_map_core (fun k => (snd k =? number + 1)%Z)).
    now rewrite existsb_map. }
  rewrite (Hw es1), (Hw es2), He.
  destruct (existsb _ _); [split; [now apply in_step_refl|exact He]|].
  destruct (re_search BIBLIO_RE (c0 :: txt));
    [split; [now apply in_step_refl|exact He]|].
  destruct (raster_candidate (c0 :: txt));
    [|split; [now apply in_step_refl|exact He]].
  assert (Ha : option_map core (active_entry (number + 1) es1)
               = option_map core (active_entry (number + 1) es2)).
  { unfold active_entry.
    rewrite !(find_map_core (fun k => (snd k =? number + 1)%Z)).
    now rewrite !map_rev, He. }
  destruct (active_entry (number + 1) es1) as [a1|],
           (active_entry (number + 1) es2) as [a2|]; try discriminate;
    [|split; [now apply in_step_refl|exact He]].
  injection Ha as Hh _ _ _ _.
  rewrite Hh.
  match goal with
  | |- context [_save_sigil_image env1 sc1 number ?b (heading a2) ?pg] =>
      pose proof (save_in_step sc1 sc2 number b b (heading a2) pg Hc) as Hs
  end.
  destruct (_save_sigil_image env1 _ _ _ _ _) as [[i1|] s1];
    destruct (_save_sigil_image env2 _ _ _ _ _) as [[i2|] s2];
    cbn [fst snd] in *; (split; [exact Hs|]);
    now rewrite ?map_core_attach.
Qed.

Lemma ocr_rows_in_step number rows : forall sc1 sc2 es1 es2 ves1 ves2,
  sigil_counter sc1 = sigil_counter sc2 ->
  map core es1 = map core es2 ->
  in_step sc1 (fst (fst (fold_left (ocr_row env1 number) rows (sc1, es1, ves1))))
          sc2 (fst (fst (fold_left (ocr_row env2 number) rows (sc2, es2, ves2)))).
Proof.
  induction rows as [|row rows IH]; intros sc1 sc2 es1 es2 ves1 ves2 Hc He.
  - now apply in_step_refl.
  - cbn [fold_left].
    destruct (@ocr_row_in_step number sc1 sc2 es1 es2 ves1 ves2 row Hc He)
      as [S1 H1].
    destruct (ocr_row env1 number (sc1, es1, ves1) row) as [[a1 b1] v1].
    destruct (ocr_row env2 number (sc2, es2, ves2) row) as [[a2 b2] v2].
    cbn [fst snd] in *. eapply in_step_trans; [exact S1|].
    apply IH; [exact (proj1 S1)|exact H1].
Qed.

Lemma extract_page_in_step use_ocr st1 st2 idx pg :
  sigil_counter st1 = sigil_counter st2 ->
  in_step st1 (snd (extract_page env1 use_ocr st1 idx pg))
          st2 (snd (extract_page env2 use_ocr st2 idx pg)).
Proof.
  intros Hc. unfold extract_page. destruct use_ocr.
  - unfold _extract_elements_with_ocr. destruct (ocr pg) as [data|].
    + match goal with
      | |- context [fold_left (ocr_row env1 idx) ?rows (st1, ?es, [])] =>
          pose proof (@ocr_rows_in_step idx rows st1 st2 es es [] [] Hc eq_refl) as H
      end.
      destruct (fold_left (ocr_row env1 idx) _ _) as [[a1 b1] v1].
      destruct (fold_left (ocr_row env2 idx) _ _) as [[a2 b2] v2].
      exact H.
    + cbn [snd]. unfold log_add, in_step. cbn [sigil_counter attempted].
      split; [exact Hc|]. exists []. now rewrite !List.app_nil_r.
  - unfold _extract_elements_from_plumber_page.
    destruct (page_text (plumber pg)); [now apply in_step_refl|].
    destruct (fold_left (plumber_line (plumber pg)) _ _) as [[entries ves] cur].
    pose proof (@plumber_chars_in_step (plumber pg) idx (chars (plumber pg))
                  st1 st2 cur cur ves ves Hc eq_refl) as H.
    destruct (fold_left (plumber_char env1 _ _) _ _) as [[a1 b1] v1].
    destruct (fold_left (plumber_char env2 _ _) _ _) as [[a2 b2] v2].
    exact H.
Qed.

Lemma scan_pages_in_step use_ocr l : forall st1 st2 acc1 acc2,
  sigil_counter st1 = sigil_counter st2 ->
  in_step st1 (fst (fold_left (scan_page env1 use_ocr) l (st1, acc1)))
          st2 (fst (fold_left (scan_page env2 use_ocr) l (st2, acc2))).
Proof.
  induction l as [|[idx pg] l IH]; intros st1 st2 acc1 acc2 Hc.
  - now apply in_step_refl.
  - cbn [fold_left]. unfold scan_page at 2 4.
    pose proof (@extract_page_in_step use_ocr st1 st2 idx pg Hc) as H.
    destruct (extract_page env1 use_ocr st1 idx pg) as [[p1 v1] s1].
    destruct (extract_page env2 use_ocr st2 idx pg) as [[p2 v2] s2].
    cbn [snd] in H. eapply in_step_trans; [exact H|].
    apply IH. exact (proj1 H).
Qed.

(** X22.  The names of the files a scan tries to write, in order, and the
    number of its attempts depend on the document, the page range and the
    strategy only: not on the renderer, not on which crops are empty or
    which writes fail, not on any scan made before.  Scanning a document
    again therefore goes for the very same file names. *)
Theorem a_scan_names_its_files_by_the_document (use_ocr : bool)
        (doc : list PageInput) (s e : Z) (st1 st2 : Scan) :
  attempted (fst (run_scan env1 use_ocr doc s e st1))
  = attempted (fst (run_scan env2 use_ocr doc s e st2))
  /\ sigil_counter (fst (run_scan env1 use_ocr doc s e st1))
     = sigil_counter (fst (run_scan env2 use_ocr doc s e st2)).
Proof.
  assert (H : in_step (start_scan_thread st1) (fst (run_scan env1 use_ocr doc s e st1))
                      (start_scan_thread st2) (fst (run_scan env2 use_ocr doc s e st2))).
  { unfold run_scan, scan_pdf_worker.
    destruct (negb _).
    { unfold in_step, log_add, start_scan_thread.
      cbn [fst sigil_counter attempted app]. split; [reflexivity|].
      exists []. split; reflexivity. }
    destruct (_ <? _)%Z.
    { unfold in_step, log_add, start_scan_thread.
      cbn [fst sigil_counter attempted app]. split; [reflexivity|].
      exists []. split; reflexivity. }
    pose proof (@scan_pages_in_step use_ocr
                  (page_range doc s (Z.min e (Z.of_nat (length doc) - 1)))
                  (start_scan_thread st1) (start_scan_thread st2) [] [] eq_refl) as H.
    destruct (fold_left (scan_page env1 use_ocr) _ _) as [a1 d1].
    destruct (fold_left (scan_page env2 use_ocr) _ _) as [a2 d2].
    cbn [fst] in *. exact H. }
  destruct H as [Hc (names & A1 & A2)]. split; [|exact Hc].
  rewrite A1, A2. reflexivity.
Qed.
End TwoRuns.
